(** * Persistence of bridge endpoints

    A shallow embedding of [drivers/bridge/endpoint_store.go]: the JSON codec
    of [bridgeEndpoint] and of its two sub-configurations, the key scheme, the
    restore of a network's endpoint table from the store, and [CopyTo].

    The code is modelled twice.  Part 1 works on the values of the records
    (a pointer is [None] or the record it points to, a slice is [None] or its
    elements) and covers the codec, the keys and the restore.  Part 2 keeps
    the storage explicit (a store of arrays and structs, slice headers,
    pointers) and covers [CopyTo], whose point is which storage is shared.
    Part 3 has the vocabulary of the statements; parts 4 to 9 prove them, for
    any implementation of the other packages; part 10 runs them on a sample
    one. *)

From stdpp Require Import gmap strings list.
From Stdlib.Strings Require Import Ascii Byte.

#[local] Set Warnings "-register-all".

(** * Part 1: the records by value *)

(** ** Go values *)

(** A slice seen by its value: [None] is the nil slice, [Some l] a non-nil
    slice with elements [l] ([Some []] is empty but not nil). *)
Definition slice (T : Type) : Type := option (list T).

Definition elems {T} (s : slice T) : list T := default [] s.

Definition len {T} (s : slice T) : nat := length (elems s).

(** [append(s, x)]: the result is never nil. *)
Definition append {T} (s : slice T) (x : T) : slice T := Some (elems s ++ [x]).

(** [net.IPNet]. *)
Record IPNet := { IP : slice byte; Mask : slice byte }.

(** ** Errors, panics and outcomes *)

Inductive error : Type :=
| ErrKeyNotFound                           (* datastore.ErrKeyNotFound *)
| InternalError (msg : string)             (* types.InternalErrorf *)
| SyntaxError                              (* *json.SyntaxError *)
| UnmarshalTypeError (value ty : string)   (* *json.UnmarshalTypeError *)
| OtherError (msg : string).               (* an error of a collaborator *)

#[global] Instance error_eq_dec : EqDecision error.
Proof. solve_decision. Defined.

(** A run-time panic: a failed type assertion [x.(T)] ("interface
    conversion: interface {} is [dynamic], not [wanted]"), or the use of a
    pointer that is nil or does not point to an object of its type. *)
Inductive panic : Type :=
| InterfaceConversion (dynamic wanted : string)
| InvalidPointer.

(** What a call does: it returns normally, returns a non-nil [error], or
    panics. *)
Inductive outcome (A : Type) : Type :=
| Ok (a : A)
| Err (e : error)
| Panic (p : panic).
Arguments Ok {A} a.
Arguments Err {A} e.
Arguments Panic {A} p.

(** A method with a pointer receiver of type [S]: it runs on the receiver's
    current fields and leaves them updated, also when it returns an error or
    panics half way. *)
Definition M (S A : Type) : Type := S → outcome A * S.

Definition ret {S A} (a : A) : M S A := λ s, (Ok a, s).

Definition bind {S A B} (m : M S A) (k : A → M S B) : M S B :=
  λ s, match m s with
       | (Ok a, s') => k a s'
       | (Err e, s') => (Err e, s')
       | (Panic p, s') => (Panic p, s')
       end.

Definition lift {S A} (o : outcome A) : M S A := λ s, (o, s).

Definition fail {S A} (e : error) : M S A := lift (Err e).

Definition modify {S} (f : S → S) : M S unit := λ s, (Ok tt, f s).

Definition get {S} : M S S := λ s, (Ok s, s).

Declare Scope go_scope.
Delimit Scope go_scope with go.
Notation "x <- m ;; k" := (bind m (λ x, k))
  (at level 100, m at next level, right associativity) : go_scope.
Notation "m ;; k" := (bind m (λ _, k))
  (at level 100, right associativity) : go_scope.
Open Scope go_scope.

(** [for _, x := range l { acc = body(acc, x) }] where the body may return
    from the enclosing function. *)
Fixpoint range {S A T} (l : list T) (body : A → T → M S A) (acc : A) : M S A :=
  match l with
  | [] => ret acc
  | x :: l' => acc' <- body acc x;; range l' body acc'
  end.

(** [fmt.Sprintf] for the verbs [%s] and [%v], the arguments given by their
    text. *)
Fixpoint Sprintf (format : string) (args : list string) : string :=
  match format with
  | EmptyString => EmptyString
  | String c rest =>
      match rest with
      | String v rest' =>
          if (Ascii.eqb c "%"%char && (Ascii.eqb v "s"%char || Ascii.eqb v "v"%char))%bool
          then match args with
               | a :: args' => a +:+ Sprintf rest' args'
               | [] => "%!" +:+ String v ("(MISSING)" +:+ Sprintf rest' [])
               end
          else String c (Sprintf rest args)
      | EmptyString => String c EmptyString
      end
  end.

(** [types.InternalErrorf]. *)
Definition InternalErrorf (format : string) (args : list string) : error :=
  InternalError (Sprintf format args).

(** ** encoding/json *)

(** A JSON document.  An object is the map it decodes to. *)
Inductive json : Type :=
| JNull
| JBool (b : bool)
| JNumber (literal : string)
| JString (s : string)
| JArray (l : list json)
| JObject (m : gmap string json).

(** A [[]byte] handed to [json.Unmarshal]: the text of a document, or
    anything else. *)
Inductive bytes : Type :=
| Text (doc : json)
| Garbage.

(** A value held in an [interface{}], as far as this file stores any.
    [json.Unmarshal] stores [nil], [bool], [float64], [string],
    [[]interface{}] and [map[string]interface{}], which are the documents
    themselves ([IJson]).  [MarshalJSON] also stores [[]string] and pointers
    that have a [MarshalJSON] method of their own; such a pointer is given by
    its type's name and by what its method returns ([None] when the pointer is
    nil). *)
Inductive iface : Type :=
| IJson (j : json)
| IStrings (s : slice string)
| IMarshaler (type_name : string) (p : option json).

Definition dynamic_type (v : iface) : string :=
  match v with
  | IJson JNull => "nil"
  | IJson (JBool _) => "bool"
  | IJson (JNumber _) => "float64"
  | IJson (JString _) => "string"
  | IJson (JArray _) => "[]interface {}"
  | IJson (JObject _) => "map[string]interface {}"
  | IStrings _ => "[]string"
  | IMarshaler ty _ => ty
  end.

(** [v.(string)] *)
Definition assert_string (v : iface) : outcome string :=
  match v with
  | IJson (JString s) => Ok s
  | _ => Panic (InterfaceConversion (dynamic_type v) "string")
  end.

(** [v.([]string)] *)
Definition assert_strings (v : iface) : outcome (slice string) :=
  match v with
  | IStrings s => Ok s
  | _ => Panic (InterfaceConversion (dynamic_type v) "[]string")
  end.

(** [m[k]]: the nil interface when the key is missing. *)
Definition index (m : gmap string iface) (k : string) : iface :=
  default (IJson JNull) (m !! k).

(** [_, ok := m[k]] *)
Definition has_key (m : gmap string iface) (k : string) : bool :=
  bool_decide (is_Some (m !! k)).

(** [json.Marshal] of one value.  On the values of [iface] it cannot fail. *)
Definition json_Marshal (v : iface) : json :=
  match v with
  | IJson j => j
  | IStrings None => JNull
  | IStrings (Some l) => JArray (JString <$> l)
  | IMarshaler _ None => JNull
  | IMarshaler _ (Some doc) => doc
  end.

(** [json.Marshal] of a [map[string]interface{}]. *)
Definition json_Marshal_map (m : gmap string iface) : json :=
  JObject (json_Marshal <$> m).

Definition json_kind (j : json) : string :=
  match j with
  | JNull => "null"
  | JBool _ => "bool"
  | JNumber _ => "number"
  | JString _ => "string"
  | JArray _ => "array"
  | JObject _ => "object"
  end.

(** [json.Unmarshal(b, &m)] for a nil [m] of type [map[string]interface{}]. *)
Definition json_Unmarshal_map (b : bytes) : outcome (gmap string iface) :=
  match b with
  | Garbage => Err SyntaxError
  | Text JNull => Ok ∅
  | Text (JObject m) => Ok (IJson <$> m)
  | Text j => Err (UnmarshalTypeError (json_kind j) "map[string]interface {}")
  end.

(** [json.Unmarshal(b, &p)] for a nil pointer [p] to a type with an
    [UnmarshalJSON] method: [null] leaves [p] nil; for any other document a
    new zero record is allocated and its method called on the text. *)
Definition json_Unmarshal_ptr {T} (zero : T) (method : bytes → M T unit)
    (b : bytes) : outcome (option T) :=
  match b with
  | Garbage => Err SyntaxError
  | Text JNull => Ok None
  | Text _ =>
      match method b zero with
      | (Ok _, t) => Ok (Some t)
      | (Err e, _) => Err e
      | (Panic p, _) => Panic p
      end
  end.

(** [if err != nil { return wrap(err) }] *)
Definition or_return {A} (o : outcome A) (wrap : error → error) : outcome A :=
  match o with
  | Err e => Err (wrap e)
  | _ => o
  end.

(** ** What the file takes from other packages *)

(** The result of a parser that returns [(value, error)]. *)
Inductive parsed (A : Type) : Type :=
| Parsed (a : A)
| Unparsed (err : error).
Arguments Parsed {A} a.
Arguments Unparsed {A} err.

(** The types of package [types] whose declarations are elsewhere, and the
    functions of [types], [net], [fmt] and [datastore] that the file calls. *)
Class External := {
  PortBinding : Type;                                    (* types.PortBinding *)
  TransportPort : Type;                                  (* types.TransportPort *)
  PortBinding_zero : PortBinding;
  TransportPort_zero : TransportPort;
  IPNet_String : IPNet → string;                         (* IPNet.String *)
  ParseCIDR : string → parsed IPNet;                     (* types.ParseCIDR *)
  HardwareAddr_String : list byte → string;              (* net.HardwareAddr.String *)
  ParseMAC : string → parsed (list byte);                (* net.ParseMAC *)
  PortBinding_String : PortBinding → string;             (* PortBinding.String *)
  PortBinding_FromString : string → parsed PortBinding;  (* PortBinding.FromString *)
  TransportPort_String : TransportPort → string;
  TransportPort_FromString : string → parsed TransportPort;
  fmt_value : iface → string;                            (* the verb %v on a value *)
  fmt_error : error → string;                            (* the verb %v on an error *)
  datastore_Key : list string → string;                  (* datastore.Key *)
}.

Section endpoint_store.
Context `{External}.

(** ** The records *)

Record endpointConfiguration := {
  MacAddress : slice byte;
  PortBindings : slice PortBinding;
  ExposedPorts : slice TransportPort;
}.

Record containerConfiguration := {
  ParentEndpoints : slice string;
  ChildEndpoints : slice string;
}.

(** [network] is the pointer back to the owning [*bridgeNetwork]; the only
    thing read through it is the network's id, which stands for it here. *)
Record bridgeEndpoint := {
  id : string;
  srcName : string;
  addr : option IPNet;
  addrv6 : option IPNet;
  macAddress : slice byte;
  config : option endpointConfiguration;
  containerConfig : option containerConfiguration;
  portMapping : slice PortBinding;
  network : string;
  dbIndex : N;
  dbExists : bool;
}.

(** Assignments to one field. *)
Definition set_MacAddress v (ec : endpointConfiguration) :=
  {| MacAddress := v; PortBindings := PortBindings ec; ExposedPorts := ExposedPorts ec |}.
Definition set_PortBindings v (ec : endpointConfiguration) :=
  {| MacAddress := MacAddress ec; PortBindings := v; ExposedPorts := ExposedPorts ec |}.
Definition set_ExposedPorts v (ec : endpointConfiguration) :=
  {| MacAddress := MacAddress ec; PortBindings := PortBindings ec; ExposedPorts := v |}.

Definition set_ParentEndpoints v (cf : containerConfiguration) :=
  {| ParentEndpoints := v; ChildEndpoints := ChildEndpoints cf |}.
Definition set_ChildEndpoints v (cf : containerConfiguration) :=
  {| ParentEndpoints := ParentEndpoints cf; ChildEndpoints := v |}.

Definition set_id v (ep : bridgeEndpoint) :=
  {| id := v; srcName := srcName ep; addr := addr ep; addrv6 := addrv6 ep;
     macAddress := macAddress ep; config := config ep;
     containerConfig := containerConfig ep; portMapping := portMapping ep;
     network := network ep; dbIndex := dbIndex ep; dbExists := dbExists ep |}.
Definition set_srcName v (ep : bridgeEndpoint) :=
  {| id := id ep; srcName := v; addr := addr ep; addrv6 := addrv6 ep;
     macAddress := macAddress ep; config := config ep;
     containerConfig := containerConfig ep; portMapping := portMapping ep;
     network := network ep; dbIndex := dbIndex ep; dbExists := dbExists ep |}.
Definition set_addr v (ep : bridgeEndpoint) :=
  {| id := id ep; srcName := srcName ep; addr := v; addrv6 := addrv6 ep;
     macAddress := macAddress ep; config := config ep;
     containerConfig := containerConfig ep; portMapping := portMapping ep;
     network := network ep; dbIndex := dbIndex ep; dbExists := dbExists ep |}.
Definition set_addrv6 v (ep : bridgeEndpoint) :=
  {| id := id ep; srcName := srcName ep; addr := addr ep; addrv6 := v;
     macAddress := macAddress ep; config := config ep;
     containerConfig := containerConfig ep; portMapping := portMapping ep;
     network := network ep; dbIndex := dbIndex ep; dbExists := dbExists ep |}.
Definition set_macAddress v (ep : bridgeEndpoint) :=
  {| id := id ep; srcName := srcName ep; addr := addr ep; addrv6 := addrv6 ep;
     macAddress := v; config := config ep;
     containerConfig := containerConfig ep; portMapping := portMapping ep;
     network := network ep; dbIndex := dbIndex ep; dbExists := dbExists ep |}.
Definition set_config v (ep : bridgeEndpoint) :=
  {| id := id ep; srcName := srcName ep; addr := addr ep; addrv6 := addrv6 ep;
     macAddress := macAddress ep; config := v;
     containerConfig := containerConfig ep; portMapping := portMapping ep;
     network := network ep; dbIndex := dbIndex ep; dbExists := dbExists ep |}.
Definition set_containerConfig v (ep : bridgeEndpoint) :=
  {| id := id ep; srcName := srcName ep; addr := addr ep; addrv6 := addrv6 ep;
     macAddress := macAddress ep; config := config ep;
     containerConfig := v; portMapping := portMapping ep;
     network := network ep; dbIndex := dbIndex ep; dbExists := dbExists ep |}.
Definition set_portMapping v (ep : bridgeEndpoint) :=
  {| id := id ep; srcName := srcName ep; addr := addr ep; addrv6 := addrv6 ep;
     macAddress := macAddress ep; config := config ep;
     containerConfig := containerConfig ep; portMapping := v;
     network := network ep; dbIndex := dbIndex ep; dbExists := dbExists ep |}.
Definition set_network v (ep : bridgeEndpoint) :=
  {| id := id ep; srcName := srcName ep; addr := addr ep; addrv6 := addrv6 ep;
     macAddress := macAddress ep; config := config ep;
     containerConfig := containerConfig ep; portMapping := portMapping ep;
     network := v; dbIndex := dbIndex ep; dbExists := dbExists ep |}.
Definition set_db (index : N) (ep : bridgeEndpoint) :=
  {| id := id ep; srcName := srcName ep; addr := addr ep; addrv6 := addrv6 ep;
     macAddress := macAddress ep; config := config ep;
     containerConfig := containerConfig ep; portMapping := portMapping ep;
     network := network ep; dbIndex := index; dbExists := true |}.

(** The zero values [endpointConfiguration{}], [containerConfiguration{}]
    and [bridgeEndpoint{network: n}]. *)
Definition endpointConfiguration_zero : endpointConfiguration :=
  {| MacAddress := None; PortBindings := None; ExposedPorts := None |}.

Definition containerConfiguration_zero : containerConfiguration :=
  {| ParentEndpoints := None; ChildEndpoints := None |}.

Definition bridgeEndpoint_of_network (n : string) : bridgeEndpoint :=
  {| id := EmptyString; srcName := EmptyString; addr := None; addrv6 := None; macAddress := None;
     config := None; containerConfig := None; portMapping := None;
     network := n; dbIndex := 0%N; dbExists := false |}.

(** ** The codec of the sub-configurations (lines 197-283) *)

(** [for _, x := range xs { out = append(out, x.String()) }] *)
Definition strings_of {T} (String : T → string) (xs : slice T) : slice string :=
  foldl (λ out x, append out (String x)) None (elems xs).

Definition containerConfiguration_MarshalJSON (cf : containerConfiguration) : json :=
  let cMap : gmap string iface := ∅ in
  let cMap := <["ParentEndpoints" := IStrings (ParentEndpoints cf)]> cMap in
  let cMap := <["ChildEndpoints" := IStrings (ChildEndpoints cf)]> cMap in
  json_Marshal_map cMap.

Definition containerConfiguration_UnmarshalJSON (b : bytes)
    : M containerConfiguration unit :=
  cMap <- lift (json_Unmarshal_map b);;
  pe <- lift (assert_strings (index cMap "ParentEndpoints"));;
  modify (set_ParentEndpoints pe);;
  ce <- lift (assert_strings (index cMap "ChildEndpoints"));;
  modify (set_ChildEndpoints ce);;
  ret tt.

Definition endpointConfiguration_MarshalJSON (ec : endpointConfiguration) : json :=
  let cMap : gmap string iface := ∅ in
  let cMap :=
    if decide (len (MacAddress ec) ≠ 0)
    then <["MacAddress" := IJson (JString (HardwareAddr_String (elems (MacAddress ec))))]> cMap
    else cMap in
  let cMap :=
    if decide (len (PortBindings ec) ≠ 0)
    then <["PortBindings" := IStrings (strings_of PortBinding_String (PortBindings ec))]> cMap
    else cMap in
  let cMap :=
    if decide (len (ExposedPorts ec) ≠ 0)
    then <["ExposedPorts" := IStrings (strings_of TransportPort_String (ExposedPorts ec))]> cMap
    else cMap in
  json_Marshal_map cMap.

(** The loop that parses a list of strings, returning from the method at the
    first one that does not parse. *)
Definition parse_all {S T} (FromString : string → parsed T)
    (wrap : string → error → error) (strs : slice string) : M S (slice T) :=
  range (elems strs)
    (λ out str,
       match FromString str with
       | Parsed x => ret (append out x)
       | Unparsed err => fail (wrap str err)
       end)
    None.

Definition endpointConfiguration_UnmarshalJSON (b : bytes)
    : M endpointConfiguration unit :=
  cMap <- lift (json_Unmarshal_map b);;
  (if has_key cMap "MacAddress" then
     raw <- lift (assert_string (index cMap "MacAddress"));;
     match ParseMAC raw with
     | Parsed mac => modify (set_MacAddress (Some mac))
     | Unparsed err =>
         modify (set_MacAddress None);;
         fail (InternalErrorf
                 "failed to decode bridge endpoint configuration mac address after json unmarshal %s: %v"
                 [raw; fmt_error err])
     end
   else ret tt);;
  pms <- (if has_key cMap "PortBindings" then
            strs <- lift (assert_strings (index cMap "PortBindings"));;
            parse_all PortBinding_FromString
              (λ str err, InternalErrorf
                 "failed to decode bridge endpoint configuration port binding after json unmarshal %s: %v"
                 [str; fmt_error err])
              strs
          else ret None);;
  modify (set_PortBindings pms);;
  eps <- (if has_key cMap "ExposedPorts" then
            strs <- lift (assert_strings (index cMap "ExposedPorts"));;
            parse_all TransportPort_FromString
              (λ str err, InternalErrorf
                 "failed to decode bridge endpoint configuration exposed port after json unmarshal %s: %v"
                 [str; fmt_error err])
              strs
          else ret None);;
  modify (set_ExposedPorts eps);;
  ret tt.

(** ** The codec of the endpoint (lines 50-130) *)

Definition bridgeEndpointPrefix : string := "bridge_endpoint".

(** The map that [MarshalJSON] builds before it hands it to [json.Marshal]. *)
Definition MarshalJSON_nMap (ep : bridgeEndpoint) : gmap string iface :=
  let nMap : gmap string iface := ∅ in
  let nMap := <["id" := IJson (JString (id ep))]> nMap in
  let nMap := <["srcName" := IJson (JString (srcName ep))]> nMap in
  let nMap :=
    match addr ep with
    | Some a => <["addr" := IJson (JString (IPNet_String a))]> nMap
    | None => nMap
    end in
  let nMap :=
    match addrv6 ep with
    | Some a => <["addrv6" := IJson (JString (IPNet_String a))]> nMap
    | None => nMap
    end in
  let nMap :=
    if decide (len (macAddress ep) ≠ 0)
    then <["macAddress" := IJson (JString (HardwareAddr_String (elems (macAddress ep))))]> nMap
    else nMap in
  let nMap :=
    <["config" := IMarshaler "*bridge.endpointConfiguration"
                    (endpointConfiguration_MarshalJSON <$> config ep)]> nMap in
  let nMap :=
    <["containerConfiguration" := IMarshaler "*bridge.containerConfiguration"
                    (containerConfiguration_MarshalJSON <$> containerConfig ep)]> nMap in
  let nMap :=
    if decide (len (portMapping ep) ≠ 0)
    then <["portMapping" := IStrings (strings_of PortBinding_String (portMapping ep))]> nMap
    else nMap in
  nMap.

Definition MarshalJSON (ep : bridgeEndpoint) : json :=
  json_Marshal_map (MarshalJSON_nMap ep).

(** Lines 88-92, 93-97 and 98-102: an optional key whose string is parsed
    into a field.  A failed parse leaves nil in the field, as the parsers
    return [(nil, err)]. *)
Definition decode_optional {T} (nMap : gmap string iface) (key : string)
    (parse : string → parsed T) (assign : option T → bridgeEndpoint → bridgeEndpoint)
    (format : string) : M bridgeEndpoint unit :=
  if has_key nMap key then
    raw <- lift (assert_string (index nMap key));;
    match parse raw with
    | Parsed x => modify (assign (Some x))
    | Unparsed _ => modify (assign None);; fail (InternalErrorf format [raw])
    end
  else ret tt.

(** Lines 103-110 and 111-118: the value under [key] is encoded again and
    the text decoded into a nil pointer to the sub-configuration.
    [json.Marshal] cannot fail on a value that [json.Unmarshal] stored, so
    the first of the two error returns is never taken. *)
Definition decode_sub {T} (nMap : gmap string iface) (key : string) (zero : T)
    (method : bytes → M T unit) (format : string) : outcome (option T) :=
  let data := Text (json_Marshal (index nMap key)) in
  or_return (json_Unmarshal_ptr zero method data)
    (λ err, InternalErrorf format [fmt_value (index nMap key); fmt_error err]).

Definition UnmarshalJSON (b : bytes) : M bridgeEndpoint unit :=
  nMap <- lift (json_Unmarshal_map b);;
  v <- lift (assert_string (index nMap "id"));;
  modify (set_id v);;
  v <- lift (assert_string (index nMap "srcName"));;
  modify (set_srcName v);;
  decode_optional nMap "addr" ParseCIDR set_addr
    "failed to decode bridge endpoint address IPv4 after json unmarshal: %s";;
  decode_optional nMap "addrv6" ParseCIDR set_addrv6
    "failed to decode bridge endpoint address IPv6 after json unmarshal: %s";;
  decode_optional nMap "macAddress" ParseMAC set_macAddress
    "failed to decode bridge endpoint mac address after json unmarshal: %s";;
  cfg <- lift (decode_sub nMap "config" endpointConfiguration_zero
                 endpointConfiguration_UnmarshalJSON
                 "failed to decode bridge endpoint config after json unmarshal %v: %v");;
  modify (set_config cfg);;
  ccfg <- lift (decode_sub nMap "containerConfiguration" containerConfiguration_zero
                  containerConfiguration_UnmarshalJSON
                  "failed to decode bridge endpoint container configuration after json unmarshal %v: %v");;
  modify (set_containerConfig ccfg);;
  pms <- (if has_key nMap "portMapping" then
            strs <- lift (assert_strings (index nMap "portMapping"));;
            parse_all PortBinding_FromString
              (λ str _, InternalErrorf
                 "failed to decode bridge endpoint port mapping after json unmarshal: %s"
                 [str])
              strs
          else ret None);;
  modify (set_portMapping pms);;
  ret tt.

(** ** The store's contract on a record (lines 132-171) *)

Definition Key (ep : bridgeEndpoint) : list string :=
  [bridgeEndpointPrefix; network ep; id ep].

Definition KeyPrefix (ep : bridgeEndpoint) : list string :=
  [bridgeEndpointPrefix; network ep].

Definition Value (ep : bridgeEndpoint) : bytes := Text (MarshalJSON ep).

Definition SetValue (value : bytes) : M bridgeEndpoint unit := UnmarshalJSON value.

Definition Index (ep : bridgeEndpoint) : N := dbIndex ep.

Definition SetIndex (index : N) : M bridgeEndpoint unit := modify (set_db index).

Definition Exists (ep : bridgeEndpoint) : bool := dbExists ep.

Definition Skip (ep : bridgeEndpoint) : bool := false.

Definition New (ep : bridgeEndpoint) : bridgeEndpoint :=
  bridgeEndpoint_of_network (network ep).

(** ** Restoring the endpoints of a network (lines 14-48) *)

(** A [datastore.KVObject]: a [*bridgeEndpoint], or an object of another
    type. *)
Inductive KVObject : Type :=
| KVBridgeEndpoint (ep : bridgeEndpoint)
| KVOther (type_name : string).

(** [kvo.( *bridgeEndpoint )] *)
Definition assert_bridgeEndpoint (kvo : KVObject) : outcome bridgeEndpoint :=
  match kvo with
  | KVBridgeEndpoint ep => Ok ep
  | KVOther ty => Panic (InterfaceConversion ty "*bridge.bridgeEndpoint")
  end.

(** The store of the driver, by its one method used here: [List] returns the
    objects under a key and an error. *)
Record datastore := {
  store_List : string → KVObject → list KVObject * option error;
}.

(** [endpoints] is the table, keyed by endpoint id; [store] is
    [n.driver.store]. *)
Record bridgeNetwork := {
  network_id : string;
  endpoints : gmap string bridgeEndpoint;
  store : datastore;
}.

Definition set_endpoints v (n : bridgeNetwork) :=
  {| network_id := network_id n; endpoints := v; store := store n |}.

(** The debug log line on the error path is not modelled. *)
Definition getEndpointsFromStore : M bridgeNetwork (slice bridgeEndpoint) :=
  n <- get;;
  let epl : slice bridgeEndpoint := None in
  let tmp := bridgeEndpoint_of_network (network_id n) in
  let '(kvol, err) :=
    store_List (store n) (datastore_Key (KeyPrefix tmp))
      (KVBridgeEndpoint (bridgeEndpoint_of_network (network_id n))) in
  (match err with
   | Some e => if decide (e ≠ ErrKeyNotFound) then fail e else ret tt
   | None => ret tt
   end);;
  range kvol
    (λ epl kvo, ep <- lift (assert_bridgeEndpoint kvo);; ret (append epl ep))
    epl.

(** The lock is held around the insertion only; on one thread it does
    nothing. *)
Definition populateEndpoints : M bridgeNetwork unit :=
  eps <- getEndpointsFromStore;;
  range (elems eps)
    (λ _ ep,
       n <- get;;
       let ep := set_network (network_id n) ep in
       modify (set_endpoints (<[id ep := ep]> (endpoints n))))
    tt;;
  ret tt.

End endpoint_store.

(** * Part 2: the records in storage *)

(** [CopyTo] is about storage: which arrays and structs two records share.
    Here a slice is a header pointing into an array, a pointer is an address,
    and arrays and structs live in a store.  [Mem] has the records with such
    fields and the code that runs on the store. *)
Module Mem.

Abbreviation loc := positive.

(** A slice header: nil, or [len] elements from index [off] of the array at
    [arr].  (The capacity plays no role in this file.) *)
Inductive slice : Type :=
| SNil
| SWin (arr : loc) (off len : nat).

Definition len (s : slice) : nat :=
  match s with
  | SNil => 0
  | SWin _ _ n => n
  end.

Record IPNet := { IP : slice; Mask : slice }.

Record endpointConfiguration := {
  MacAddress : slice;
  PortBindings : slice;
  ExposedPorts : slice;
}.

Record containerConfiguration := {
  ParentEndpoints : slice;
  ChildEndpoints : slice;
}.

Record bridgeEndpoint := {
  id : string;
  srcName : string;
  addr : option loc;
  addrv6 : option loc;
  macAddress : slice;
  config : option loc;
  containerConfig : option loc;
  portMapping : slice;
  network : string;
  dbIndex : N;
  dbExists : bool;
}.

Definition set_MacAddress v (ec : endpointConfiguration) :=
  {| MacAddress := v; PortBindings := PortBindings ec; ExposedPorts := ExposedPorts ec |}.
Definition set_PortBindings v (ec : endpointConfiguration) :=
  {| MacAddress := MacAddress ec; PortBindings := v; ExposedPorts := ExposedPorts ec |}.
Definition set_ExposedPorts v (ec : endpointConfiguration) :=
  {| MacAddress := MacAddress ec; PortBindings := PortBindings ec; ExposedPorts := v |}.

Definition set_ParentEndpoints v (cf : containerConfiguration) :=
  {| ParentEndpoints := v; ChildEndpoints := ChildEndpoints cf |}.
Definition set_ChildEndpoints v (cf : containerConfiguration) :=
  {| ParentEndpoints := ParentEndpoints cf; ChildEndpoints := v |}.

Definition set_id v (ep : bridgeEndpoint) :=
  {| id := v; srcName := srcName ep; addr := addr ep; addrv6 := addrv6 ep;
     macAddress := macAddress ep; config := config ep;
     containerConfig := containerConfig ep; portMapping := portMapping ep;
     network := network ep; dbIndex := dbIndex ep; dbExists := dbExists ep |}.
Definition set_srcName v (ep : bridgeEndpoint) :=
  {| id := id ep; srcName := v; addr := addr ep; addrv6 := addrv6 ep;
     macAddress := macAddress ep; config := config ep;
     containerConfig := containerConfig ep; portMapping := portMapping ep;
     network := network ep; dbIndex := dbIndex ep; dbExists := dbExists ep |}.
Definition set_addr v (ep : bridgeEndpoint) :=
  {| id := id ep; srcName := srcName ep; addr := v; addrv6 := addrv6 ep;
     macAddress := macAddress ep; config := config ep;
     containerConfig := containerConfig ep; portMapping := portMapping ep;
     network := network ep; dbIndex := dbIndex ep; dbExists := dbExists ep |}.
Definition set_addrv6 v (ep : bridgeEndpoint) :=
  {| id := id ep; srcName := srcName ep; addr := addr ep; addrv6 := v;
     macAddress := macAddress ep; config := config ep;
     containerConfig := containerConfig ep; portMapping := portMapping ep;
     network := network ep; dbIndex := dbIndex ep; dbExists := dbExists ep |}.
Definition set_macAddress v (ep : bridgeEndpoint) :=
  {| id := id ep; srcName := srcName ep; addr := addr ep; addrv6 := addrv6 ep;
     macAddress := v; config := config ep;
     containerConfig := containerConfig ep; portMapping := portMapping ep;
     network := network ep; dbIndex := dbIndex ep; dbExists := dbExists ep |}.
Definition set_config v (ep : bridgeEndpoint) :=
  {| id := id ep; srcName := srcName ep; addr := addr ep; addrv6 := addrv6 ep;
     macAddress := macAddress ep; config := v;
     containerConfig := containerConfig ep; portMapping := portMapping ep;
     network := network ep; dbIndex := dbIndex ep; dbExists := dbExists ep |}.
Definition set_containerConfig v (ep : bridgeEndpoint) :=
  {| id := id ep; srcName := srcName ep; addr := addr ep; addrv6 := addrv6 ep;
     macAddress := macAddress ep; config := config ep;
     containerConfig := v; portMapping := portMapping ep;
     network := network ep; dbIndex := dbIndex ep; dbExists := dbExists ep |}.
Definition set_portMapping v (ep : bridgeEndpoint) :=
  {| id := id ep; srcName := srcName ep; addr := addr ep; addrv6 := addrv6 ep;
     macAddress := macAddress ep; config := config ep;
     containerConfig := containerConfig ep; portMapping := v;
     network := network ep; dbIndex := dbIndex ep; dbExists := dbExists ep |}.

Section store.
Context `{External}.

(** What the store holds at an address: the backing array of a slice, or a
    struct. *)
Inductive obj : Type :=
| OBytes (xs : list byte)
| OStrings (xs : list string)
| OPortBindings (xs : list PortBinding)
| OTransportPorts (xs : list TransportPort)
| OIPNet (n : IPNet)
| OEndpointConfiguration (c : endpointConfiguration)
| OContainerConfiguration (c : containerConfiguration)
| OBridgeEndpoint (e : bridgeEndpoint).

Abbreviation heap := (gmap loc obj).

(** The element types of the slices: how an array of each is stored, and the
    type's zero value. *)
Record kind (T : Type) := {
  wrap : list T → obj;
  unwrap : obj → option (list T);
  zero : T;
}.
Arguments wrap {T} _ _.
Arguments unwrap {T} _ _.
Arguments zero {T} _.

Definition bytes_kind : kind byte :=
  {| wrap := OBytes;
     unwrap := λ o, match o with OBytes xs => Some xs | _ => None end;
     zero := x00 |}.

Definition strings_kind : kind string :=
  {| wrap := OStrings;
     unwrap := λ o, match o with OStrings xs => Some xs | _ => None end;
     zero := EmptyString |}.

Definition portBindings_kind : kind PortBinding :=
  {| wrap := OPortBindings;
     unwrap := λ o, match o with OPortBindings xs => Some xs | _ => None end;
     zero := PortBinding_zero |}.

Definition transportPorts_kind : kind TransportPort :=
  {| wrap := OTransportPorts;
     unwrap := λ o, match o with OTransportPorts xs => Some xs | _ => None end;
     zero := TransportPort_zero |}.

(** *** Store operations *)

Definition panics {A} : M heap A := lift (Panic InvalidPointer).

(** A new object at an address not in use. *)
Definition alloc (o : obj) : M heap loc :=
  λ h, let l := fresh (dom h) in (Ok l, <[l := o]> h).

Definition load (l : loc) : M heap obj :=
  λ h, match h !! l with
       | Some o => (Ok o, h)
       | None => (Panic InvalidPointer, h)
       end.

Definition store (l : loc) (o : obj) : M heap unit :=
  λ h, (Ok tt, <[l := o]> h).

(** The struct types: how a struct of each is stored. *)
Record struct (R : Type) := {
  pack : R → obj;
  unpack : obj → option R;
}.
Arguments pack {R} _ _.
Arguments unpack {R} _ _.

Definition IPNet_struct : struct IPNet :=
  {| pack := OIPNet;
     unpack := λ o, match o with OIPNet n => Some n | _ => None end |}.

Definition endpointConfiguration_struct : struct endpointConfiguration :=
  {| pack := OEndpointConfiguration;
     unpack := λ o, match o with OEndpointConfiguration c => Some c | _ => None end |}.

Definition containerConfiguration_struct : struct containerConfiguration :=
  {| pack := OContainerConfiguration;
     unpack := λ o, match o with OContainerConfiguration c => Some c | _ => None end |}.

Definition bridgeEndpoint_struct : struct bridgeEndpoint :=
  {| pack := OBridgeEndpoint;
     unpack := λ o, match o with OBridgeEndpoint e => Some e | _ => None end |}.

(** Reading the fields behind a pointer. *)
Definition load_struct {R} (st : struct R) (l : loc) : M heap R :=
  o <- load l;;
  match unpack st o with
  | Some r => ret r
  | None => panics
  end.

(** [p.field = v] *)
Definition update_struct {R} (st : struct R) (l : loc) (f : R → R) : M heap unit :=
  r <- load_struct st l;;
  store l (pack st (f r)).

(** The elements a slice header shows. *)
Definition window {T} (off n : nat) (xs : list T) : option (list T) :=
  if decide (off + n ≤ length xs) then Some (take n (drop off xs)) else None.

Definition read {T} (k : kind T) (s : slice) : M heap (list T) :=
  match s with
  | SNil => ret []
  | SWin a off n =>
      o <- load a;;
      match unwrap k o ≫= window off n with
      | Some xs => ret xs
      | None => panics
      end
  end.

(** [make([]T, n)] *)
Definition make {T} (k : kind T) (n : nat) : M heap slice :=
  a <- alloc (wrap k (replicate n (zero k)));;
  ret (SWin a 0 n).

(** [copy(dst, src)]: the first [min(len(dst), len(src))] elements of [src]
    are written over those of [dst]; the count is returned. *)
Definition copy {T} (k : kind T) (dst src : slice) : M heap nat :=
  xs <- read k src;;
  match dst with
  | SNil => ret 0
  | SWin a off n =>
      o <- load a;;
      match unwrap k o with
      | Some ys =>
          if decide (off + n ≤ length ys) then
            let c := n `min` length xs in
            store a (wrap k (take off ys ++ take c xs ++ drop (off + c) ys));;
            ret c
          else panics
      | None => panics
      end
  end.

(** *** The copy helpers of package [types] *)

(** Modelled from the spec: [types.GetMacCopy] is not in src/.  The spec has
    hardware addresses copied by value-semantics duplication, never aliasing
    the source's underlying byte storage: a nil address stays nil, any other
    gets a new array of the same length with the same bytes. *)
Definition GetMacCopy (from : slice) : M heap slice :=
  match from with
  | SNil => ret SNil
  | SWin _ _ _ =>
      to <- make bytes_kind (len from);;
      copy bytes_kind to from;;
      ret to
  end.

(** Modelled from the spec: [types.GetIPNetCopy] is not in src/.  The spec
    has addresses copied by value-semantics duplication, never aliasing the
    source's underlying byte storage: a nil pointer stays nil, any other
    becomes a pointer to a new [IPNet] whose [IP] and [Mask] are duplicated
    like a hardware address. *)
Definition GetIPNetCopy (from : option loc) : M heap (option loc) :=
  match from with
  | None => ret None
  | Some p =>
      n <- load_struct IPNet_struct p;;
      mask <- GetMacCopy (Mask n);;
      n <- load_struct IPNet_struct p;;
      ip <- GetMacCopy (IP n);;
      q <- alloc (OIPNet {| IP := ip; Mask := mask |});;
      ret (Some q)
  end.

(** *** CopyTo (lines 173-191, 217-223, 285-292) *)

(** The statement [dst.f = g(src.f)] for a field [f] of two structs of one
    type; [g] is [ret] for a plain assignment. *)
Definition assign {R A} (st : struct R) (f : R → A) (set_f : A → R → R)
    (g : A → M heap A) (src dst : loc) : M heap unit :=
  s <- load_struct st src;;
  v <- g (f s);;
  update_struct st dst (set_f v).

(** The two statements
    [dst.f = make([]T, len(src.f)); copy(dst.f, src.f)]
    for a slice field [f] of two structs of one type. *)
Definition make_copy {R T} (k : kind T) (st : struct R)
    (f : R → slice) (set_f : slice → R → R) (src dst : loc) : M heap unit :=
  assign st f set_f (λ s, make k (len s)) src dst;;
  d <- load_struct st dst;;
  s <- load_struct st src;;
  copy k (f d) (f s);;
  ret tt.

Definition containerConfiguration_CopyTo (cc dstCc : loc) : M heap unit :=
  make_copy strings_kind containerConfiguration_struct
    ParentEndpoints set_ParentEndpoints cc dstCc;;
  make_copy strings_kind containerConfiguration_struct
    ChildEndpoints set_ChildEndpoints cc dstCc;;
  ret tt.

Definition endpointConfiguration_CopyTo (epc dstEpc : loc) : M heap unit :=
  assign endpointConfiguration_struct MacAddress set_MacAddress GetMacCopy
    epc dstEpc;;
  make_copy portBindings_kind endpointConfiguration_struct
    PortBindings set_PortBindings epc dstEpc;;
  make_copy transportPorts_kind endpointConfiguration_struct
    ExposedPorts set_ExposedPorts epc dstEpc;;
  ret tt.

(** [if src.f != nil { dst.f = &T{}; src.f.CopyTo(dst.f) }] for a pointer
    field [f] of two endpoints. *)
Definition copy_sub {R} (st : struct R) (empty : R)
    (f : bridgeEndpoint → option loc)
    (set_f : option loc → bridgeEndpoint → bridgeEndpoint)
    (method : loc → loc → M heap unit) (ep dstEp : loc) : M heap unit :=
  s <- load_struct bridgeEndpoint_struct ep;;
  match f s with
  | None => ret tt
  | Some _ =>
      q <- alloc (pack st empty);;
      update_struct bridgeEndpoint_struct dstEp (set_f (Some q));;
      s <- load_struct bridgeEndpoint_struct ep;;
      d <- load_struct bridgeEndpoint_struct dstEp;;
      match f s, f d with
      | Some from, Some to => method from to
      | _, _ => panics
      end
  end.

(** [o] is the address held in the interface; the type assertion passes when
    a [bridgeEndpoint] is stored there. *)
Definition CopyTo (ep o : loc) : M heap unit :=
  load_struct bridgeEndpoint_struct o;;
  let dstEp := o in
  assign bridgeEndpoint_struct id set_id ret ep dstEp;;
  assign bridgeEndpoint_struct srcName set_srcName ret ep dstEp;;
  assign bridgeEndpoint_struct addr set_addr GetIPNetCopy ep dstEp;;
  assign bridgeEndpoint_struct addrv6 set_addrv6 GetIPNetCopy ep dstEp;;
  assign bridgeEndpoint_struct macAddress set_macAddress GetMacCopy ep dstEp;;
  copy_sub endpointConfiguration_struct
    {| MacAddress := SNil; PortBindings := SNil; ExposedPorts := SNil |}
    config set_config endpointConfiguration_CopyTo ep dstEp;;
  copy_sub containerConfiguration_struct
    {| ParentEndpoints := SNil; ChildEndpoints := SNil |}
    containerConfig set_containerConfig containerConfiguration_CopyTo ep dstEp;;
  make_copy portBindings_kind bridgeEndpoint_struct
    portMapping set_portMapping ep dstEp;;
  ret tt.

(** *** The storage of a record *)

Definition slice_locs (s : slice) : gset loc :=
  match s with
  | SNil => ∅
  | SWin a _ _ => {[a]}
  end.

(** The struct behind a pointer and the arrays of its slices. *)
Definition sub_locs {R} (st : struct R) (slices : R → list slice)
    (h : heap) (p : option loc) : gset loc :=
  match p with
  | None => ∅
  | Some l =>
      {[l]} ∪ match h !! l ≫= unpack st with
              | Some r => ⋃ (slice_locs <$> slices r)
              | None => ∅
              end
  end.

Definition IPNet_slices (n : IPNet) : list slice := [IP n; Mask n].

Definition endpointConfiguration_slices (c : endpointConfiguration) : list slice :=
  [MacAddress c; PortBindings c; ExposedPorts c].

Definition containerConfiguration_slices (c : containerConfiguration) : list slice :=
  [ParentEndpoints c; ChildEndpoints c].

(** Everything that can be changed through the endpoint at [x]: its own
    struct, the structs it points to, and the arrays of all their slices. *)
Definition storage (h : heap) (x : loc) : gset loc :=
  {[x]} ∪
  match h !! x ≫= unpack bridgeEndpoint_struct with
  | Some e =>
      sub_locs IPNet_struct IPNet_slices h (addr e)
      ∪ sub_locs IPNet_struct IPNet_slices h (addrv6 e)
      ∪ slice_locs (macAddress e)
      ∪ sub_locs endpointConfiguration_struct endpointConfiguration_slices h (config e)
      ∪ sub_locs containerConfiguration_struct containerConfiguration_slices h
          (containerConfig e)
      ∪ slice_locs (portMapping e)
  | None => ∅
  end.

End store.

Arguments wrap {H T} _ _.
Arguments unwrap {H T} _ _.
Arguments zero {H T} _.
Arguments pack {H R} _ _.
Arguments unpack {H R} _ _.

End Mem.

(** ** The value of a stored record *)

(** What a record in the store is worth: the record of Part 1 obtained by
    following every pointer and reading every slice.  [None] when a pointer
    does not lead to an object of its type or a slice leaves its array. *)
Section values.
Context `{External}.

Definition slice_value {T} (k : Mem.kind T) (h : gmap positive Mem.obj)
    (s : Mem.slice) : option (slice T) :=
  match s with
  | Mem.SNil => Some None
  | Mem.SWin a off n =>
      Some <$> ((h !! a ≫= Mem.unwrap k) ≫= Mem.window off n)
  end.

Definition IPNet_value (h : gmap positive Mem.obj) (p : option positive)
    : option (option IPNet) :=
  match p with
  | None => Some None
  | Some l =>
      n ← h !! l ≫= Mem.unpack Mem.IPNet_struct;
      ip ← slice_value Mem.bytes_kind h (Mem.IP n);
      mask ← slice_value Mem.bytes_kind h (Mem.Mask n);
      Some (Some {| IP := ip; Mask := mask |})
  end.

Definition endpointConfiguration_value (h : gmap positive Mem.obj)
    (p : option positive) : option (option endpointConfiguration) :=
  match p with
  | None => Some None
  | Some l =>
      c ← h !! l ≫= Mem.unpack Mem.endpointConfiguration_struct;
      mac ← slice_value Mem.bytes_kind h (Mem.MacAddress c);
      pbs ← slice_value Mem.portBindings_kind h (Mem.PortBindings c);
      eps ← slice_value Mem.transportPorts_kind h (Mem.ExposedPorts c);
      Some (Some {| MacAddress := mac; PortBindings := pbs; ExposedPorts := eps |})
  end.

Definition containerConfiguration_value (h : gmap positive Mem.obj)
    (p : option positive) : option (option containerConfiguration) :=
  match p with
  | None => Some None
  | Some l =>
      c ← h !! l ≫= Mem.unpack Mem.containerConfiguration_struct;
      pe ← slice_value Mem.strings_kind h (Mem.ParentEndpoints c);
      ce ← slice_value Mem.strings_kind h (Mem.ChildEndpoints c);
      Some (Some {| ParentEndpoints := pe; ChildEndpoints := ce |})
  end.

Definition bridgeEndpoint_value (h : gmap positive Mem.obj) (x : positive)
    : option bridgeEndpoint :=
  e ← h !! x ≫= Mem.unpack Mem.bridgeEndpoint_struct;
  a ← IPNet_value h (Mem.addr e);
  a6 ← IPNet_value h (Mem.addrv6 e);
  mac ← slice_value Mem.bytes_kind h (Mem.macAddress e);
  cfg ← endpointConfiguration_value h (Mem.config e);
  ccfg ← containerConfiguration_value h (Mem.containerConfig e);
  pms ← slice_value Mem.portBindings_kind h (Mem.portMapping e);
  Some {| id := Mem.id e; srcName := Mem.srcName e; addr := a; addrv6 := a6;
          macAddress := mac; config := cfg; containerConfig := ccfg;
          portMapping := pms; network := Mem.network e;
          dbIndex := Mem.dbIndex e; dbExists := Mem.dbExists e |}.

End values.

(** ** A sample instance *)

(** One address, one hardware address and port bindings given by their
    canonical strings: enough of the other packages to run the code on
    examples. *)
Module Sample.

Definition ip4 : IPNet :=
  {| IP := Some [x0a; x00; x00; x05]; Mask := Some [xff; xff; xff; x00] |}.

Definition mac : list byte := [x02; x42; xac; x11; x00; x02].

#[export] Instance external : External := {|
  PortBinding := string;
  TransportPort := string;
  PortBinding_zero := EmptyString;
  TransportPort_zero := EmptyString;
  IPNet_String := λ _, "10.0.0.5/24";
  ParseCIDR := λ s,
    if decide (s = "10.0.0.5/24") then Parsed ip4
    else Unparsed (OtherError ("invalid CIDR address: " +:+ s));
  HardwareAddr_String := λ _, "02:42:ac:11:00:02";
  ParseMAC := λ s,
    if decide (s = "02:42:ac:11:00:02") then Parsed mac
    else Unparsed (OtherError ("invalid MAC address: " +:+ s));
  PortBinding_String := λ p, p;
  PortBinding_FromString := λ s, Parsed s;
  TransportPort_String := λ p, p;
  TransportPort_FromString := λ s, Parsed s;
  fmt_value := λ v, dynamic_type v;
  fmt_error := λ e,
    match e with
    | ErrKeyNotFound => "key not found"
    | InternalError msg | OtherError msg => msg
    | SyntaxError => "syntax error"
    | UnmarshalTypeError v ty => "json: cannot unmarshal " +:+ v +:+ " into " +:+ ty
    end;
  datastore_Key := λ l, foldr (λ a b, a +:+ "/" +:+ b) EmptyString l;
|}.

(** An endpoint with every optional field absent. *)
Definition bare : bridgeEndpoint :=
  {| id := "ep1"; srcName := "veth0"; addr := None; addrv6 := None;
     macAddress := None; config := None; containerConfig := None;
     portMapping := None; network := "net1"; dbIndex := 0%N; dbExists := false |}.

(** An endpoint with every optional field present. *)
Definition full : bridgeEndpoint :=
  {| id := "ep1"; srcName := "veth0"; addr := Some ip4; addrv6 := Some ip4;
     macAddress := Some mac;
     config := Some {| MacAddress := Some mac;
                       PortBindings := Some ["172.17.0.2:80/tcp:80"];
                       ExposedPorts := Some ["80/tcp"] |};
     containerConfig := Some {| ParentEndpoints := Some ["ep0"];
                                ChildEndpoints := Some ["ep2"] |};
     portMapping := Some ["172.17.0.2:80/tcp:80"];
     network := "net1"; dbIndex := 0%N; dbExists := false |}.


(** [{"id":"ep1","srcName":"veth0","addr":"10.0.0.5/24","config":null}] *)
Definition null_config : gmap string json :=
  <["id" := JString "ep1"]> (<["srcName" := JString "veth0"]>
    (<["addr" := JString "10.0.0.5/24"]> (<["config" := JNull]> ∅))).

(** A store whose [List] fails with [err] and returns no objects. *)
Definition failing_store (err : error) : datastore :=
  {| store_List := λ _ _, ([], Some err) |}.

Definition net1 (err : error) : bridgeNetwork :=
  {| network_id := "net1"; endpoints := {[ "ep0" := bare ]};
     store := failing_store err |}.

(** A store with a source endpoint at 1 and a destination at 2.  The source
    has no [config]; the destination has one, at 10. *)
Definition store0 : gmap positive Mem.obj :=
  <[1%positive := Mem.OBridgeEndpoint
      {| Mem.id := "ep1"; Mem.srcName := "veth0"; Mem.addr := Some 3%positive;
         Mem.addrv6 := None; Mem.macAddress := Mem.SWin 6 0 6;
         Mem.config := None; Mem.containerConfig := Some 8%positive;
         Mem.portMapping := Mem.SWin 7 1 1; Mem.network := "net1";
         Mem.dbIndex := 4%N; Mem.dbExists := true |}]>
  (<[2%positive := Mem.OBridgeEndpoint
      {| Mem.id := EmptyString; Mem.srcName := EmptyString; Mem.addr := None;
         Mem.addrv6 := None; Mem.macAddress := Mem.SNil;
         Mem.config := Some 10%positive; Mem.containerConfig := None;
         Mem.portMapping := Mem.SNil; Mem.network := "net1";
         Mem.dbIndex := 0%N; Mem.dbExists := false |}]>
  (<[3%positive := Mem.OIPNet {| Mem.IP := Mem.SWin 4 0 4; Mem.Mask := Mem.SWin 5 0 4 |}]>
  (<[4%positive := Mem.OBytes [x0a; x00; x00; x05]]>
  (<[5%positive := Mem.OBytes [xff; xff; xff; x00]]>
  (<[6%positive := Mem.OBytes mac]>
  (<[7%positive := Mem.OPortBindings ["a"; "172.17.0.2:80/tcp:80"; "c"]]>
  (<[8%positive := Mem.OContainerConfiguration
      {| Mem.ParentEndpoints := Mem.SWin 9 0 1; Mem.ChildEndpoints := Mem.SNil |}]>
  (<[9%positive := Mem.OStrings ["ep0"]]>
  (<[10%positive := Mem.OEndpointConfiguration
      {| Mem.MacAddress := Mem.SNil; Mem.PortBindings := Mem.SWin 11 0 1;
         Mem.ExposedPorts := Mem.SNil |}]>
  (<[11%positive := Mem.OPortBindings ["8080/tcp"]]> ∅)))))))))).


(** The configuration of [scalar], and the one of [full]. *)
Definition mac_only : endpointConfiguration :=
  {| MacAddress := Some mac; PortBindings := None; ExposedPorts := None |}.

Definition with_lists : endpointConfiguration :=
  {| MacAddress := Some mac; PortBindings := Some ["172.17.0.2:80/tcp:80"];
     ExposedPorts := Some ["80/tcp"] |}.

(** The configuration that [store0] holds at 10. *)
Definition config10 : endpointConfiguration :=
  {| MacAddress := None; PortBindings := Some ["8080/tcp"]; ExposedPorts := None |}.

(** A second endpoint of the network, with every optional field absent. *)
Definition second : bridgeEndpoint :=
  {| id := "ep2"; srcName := "veth1"; addr := None; addrv6 := None;
     macAddress := None; config := None; containerConfig := None;
     portMapping := None; network := "net1"; dbIndex := 0%N; dbExists := false |}.

(** A store whose [List] returns [kvol] and no error. *)
Definition listing_store (kvol : list KVObject) : datastore :=
  {| store_List := λ _ _, (kvol, None) |}.

Definition net2 (kvol : list KVObject) : bridgeNetwork :=
  {| network_id := "net1"; endpoints := {[ "ep0" := bare ]};
     store := listing_store kvol |}.

(** [store0] with three records more: an endpoint as [New] makes it at 12,
    an empty endpoint configuration at 13 and an empty container
    configuration at 14. *)
Definition store1 : gmap positive Mem.obj :=
  <[12%positive := Mem.OBridgeEndpoint
      {| Mem.id := EmptyString; Mem.srcName := EmptyString; Mem.addr := None;
         Mem.addrv6 := None; Mem.macAddress := Mem.SNil;
         Mem.config := None; Mem.containerConfig := None;
         Mem.portMapping := Mem.SNil; Mem.network := "net1";
         Mem.dbIndex := 0%N; Mem.dbExists := false |}]>
  (<[13%positive := Mem.OEndpointConfiguration
      {| Mem.MacAddress := Mem.SNil; Mem.PortBindings := Mem.SNil;
         Mem.ExposedPorts := Mem.SNil |}]>
  (<[14%positive := Mem.OContainerConfiguration
      {| Mem.ParentEndpoints := Mem.SNil; Mem.ChildEndpoints := Mem.SNil |}]>
   store0)).

End Sample.

(** * Part 3: the vocabulary of the statements *)

Section facts.
Context `{External}.

Implicit Types (h : gmap positive Mem.obj) (l : positive).

(** A format string without any verb. *)
Fixpoint no_verb (s : string) : bool :=
  match s with
  | EmptyString => true
  | String c s' => negb (Ascii.eqb c "%"%char) && no_verb s'
  end.

(** The optional keys that hold one parsed string, in the order in which
    [UnmarshalJSON] decodes them (lines 88-102). *)
Inductive optional_key := Kaddr | Kaddrv6 | KmacAddress.

(** The key in the document. *)
Definition key_name (k : optional_key) : string :=
  match k with
  | Kaddr => "addr"
  | Kaddrv6 => "addrv6"
  | KmacAddress => "macAddress"
  end.




(** The document has a string under [key]. *)
Definition is_string_at (m : gmap string json) (key : string) : Prop :=
  ∃ s, m !! key = Some (JString s).


(** The key is absent from the document, or holds [null]. *)
Definition null_or_absent (m : gmap string json) (key : string) : Prop :=
  m !! key = None ∨ m !! key = Some JNull.


(** Two records agree on the field that the key is decoded into. *)
Definition same_field (k : optional_key) (ep ep' : bridgeEndpoint) : Prop :=
  match k with
  | Kaddr => addr ep = addr ep'
  | Kaddrv6 => addrv6 ep = addrv6 ep'
  | KmacAddress => macAddress ep = macAddress ep'
  end.

(** The statements of [UnmarshalJSON] after the two required keys (lines
    88-129), as the method has them; [UnmarshalJSON_required] runs the
    method up to here. *)
Definition after_required (nMap : gmap string iface) : M bridgeEndpoint unit :=
  decode_optional nMap "addr" ParseCIDR set_addr
    "failed to decode bridge endpoint address IPv4 after json unmarshal: %s";;
  decode_optional nMap "addrv6" ParseCIDR set_addrv6
    "failed to decode bridge endpoint address IPv6 after json unmarshal: %s";;
  decode_optional nMap "macAddress" ParseMAC set_macAddress
    "failed to decode bridge endpoint mac address after json unmarshal: %s";;
  cfg <- lift (decode_sub nMap "config" endpointConfiguration_zero
                 endpointConfiguration_UnmarshalJSON
                 "failed to decode bridge endpoint config after json unmarshal %v: %v");;
  modify (set_config cfg);;
  ccfg <- lift (decode_sub nMap "containerConfiguration" containerConfiguration_zero
                  containerConfiguration_UnmarshalJSON
                  "failed to decode bridge endpoint container configuration after json unmarshal %v: %v");;
  modify (set_containerConfig ccfg);;
  pms <- (if has_key nMap "portMapping" then
            strs <- lift (assert_strings (index nMap "portMapping"));;
            parse_all PortBinding_FromString
              (λ str _, InternalErrorf
                 "failed to decode bridge endpoint port mapping after json unmarshal: %s"
                 [str])
              strs
          else ret None);;
  modify (set_portMapping pms);;
  ret tt.

(** What [List] returns for the prefix of the network's endpoints. *)
Definition listing (n : bridgeNetwork) : list KVObject * option error :=
  store_List (store n)
    (datastore_Key (KeyPrefix (bridgeEndpoint_of_network (network_id n))))
    (KVBridgeEndpoint (bridgeEndpoint_of_network (network_id n))).

(** [m] run on [h] returns normally, with a result and a store that satisfy
    [Q]. *)
Definition wp {A} (m : M (gmap positive Mem.obj) A) h
    (Q : A → gmap positive Mem.obj → Prop) : Prop :=
  match m h with
  | (Ok a, h') => Q a h'
  | _ => False
  end.

(** [h'] extends [h] and differs from it on the cells of [h] only in [X]. *)
Definition frame (X : gset positive) h h' : Prop :=
  dom h ⊆ dom h' ∧ ∀ l, l ∈ dom h → l ∉ X → h' !! l = h !! l.

(** [pack] and [unpack] of a struct type are inverse to each other. *)
Class StructOk {R} (st : Mem.struct R) : Prop := {
  unpack_pack r : Mem.unpack st (Mem.pack st r) = Some r;
  pack_unpack o r : Mem.unpack st o = Some r → o = Mem.pack st r;
}.

(** [wrap] and [unwrap] of an array type are inverse to each other, and an
    array is no endpoint. *)
Class KindOk {T} (k : Mem.kind T) : Prop := {
  unwrap_wrap xs : Mem.unwrap k (Mem.wrap k xs) = Some xs;
  wrap_unwrap o xs : Mem.unwrap k o = Some xs → o = Mem.wrap k xs;
  wrap_not_endpoint xs e : Mem.wrap k xs ≠ Mem.OBridgeEndpoint e;
}.

(** A slice after [make] and [copy]: the same elements, never nil. *)
Definition allocated {T} (s : slice T) : slice T := Some (elems s).

(** What [endpointConfiguration.CopyTo] leaves in the destination. *)
Definition endpointConfiguration_copy (c : endpointConfiguration)
    : endpointConfiguration :=
  {| MacAddress := MacAddress c;
     PortBindings := allocated (PortBindings c);
     ExposedPorts := allocated (ExposedPorts c) |}.

(** What [containerConfiguration.CopyTo] leaves in the destination. *)
Definition containerConfiguration_copy (c : containerConfiguration)
    : containerConfiguration :=
  {| ParentEndpoints := allocated (ParentEndpoints c);
     ChildEndpoints := allocated (ChildEndpoints c) |}.

(** A kind of field: the storage behind a field's content and what it is
    worth. *)
Record field_kind (A V : Type) := {
  locs : gmap positive Mem.obj → A → gset positive;
  value : gmap positive Mem.obj → A → option V;
}.
Arguments locs {A V} _ _ _.
Arguments value {A V} _ _ _.

(** A field held by value: no storage behind it. *)
Definition plain_field (A : Type) : field_kind A A :=
  {| locs := λ _ _, ∅; value := λ _ x, Some x |}.

(** A slice field: the array behind the header. *)
Definition slice_field {T} (k : Mem.kind T) : field_kind Mem.slice (slice T) :=
  {| locs := λ _ s, Mem.slice_locs s; value := slice_value k |}.

(** A pointer to a [net.IPNet]: the struct and its two arrays. *)
Definition IPNet_field : field_kind (option positive) (option IPNet) :=
  {| locs := Mem.sub_locs Mem.IPNet_struct Mem.IPNet_slices;
     value := IPNet_value |}.

(** A pointer to an [endpointConfiguration]: the struct and its arrays. *)
Definition endpointConfiguration_field
    : field_kind (option positive) (option endpointConfiguration) :=
  {| locs := Mem.sub_locs Mem.endpointConfiguration_struct
               Mem.endpointConfiguration_slices;
     value := endpointConfiguration_value |}.

(** A pointer to a [containerConfiguration]: the struct and its arrays. *)
Definition containerConfiguration_field
    : field_kind (option positive) (option containerConfiguration) :=
  {| locs := Mem.sub_locs Mem.containerConfiguration_struct
               Mem.containerConfiguration_slices;
     value := containerConfiguration_value |}.

(** The content survives a frame away from its storage, which holds no
    endpoint. *)
Class FieldOk {A V} (fk : field_kind A V) : Prop := {
  field_frame X h h' p v :
    value fk h p = Some v → frame X h h' → locs fk h p ## X →
    value fk h' p = Some v ∧ locs fk h' p = locs fk h p;
  field_dom h p v : value fk h p = Some v → locs fk h p ⊆ dom h;
  field_not_endpoint h p v l e :
    value fk h p = Some v → h !! l = Some (Mem.OBridgeEndpoint e) →
    l ∉ locs fk h p;
}.

(** The content [p] of a field is worth [v] and its storage is outside
    [D]. *)
Definition good {A V} (fk : field_kind A V) (D : gset positive) h (p : A) (v : V)
    : Prop :=
  locs fk h p ## D ∧ value fk h p = Some v.

(** What [CopyTo] does, on the values: the fields are assigned in the order
    of the code; a slice that went through [make] is never nil; a
    sub-configuration is replaced only when the source has one. *)
Definition CopyTo_value (src dst : bridgeEndpoint) : bridgeEndpoint :=
  let dst := set_id (id src) dst in
  let dst := set_srcName (srcName src) dst in
  let dst := set_addr (addr src) dst in
  let dst := set_addrv6 (addrv6 src) dst in
  let dst := set_macAddress (macAddress src) dst in
  let dst :=
    match config src with
    | Some c => set_config (Some (endpointConfiguration_copy c)) dst
    | None => dst
    end in
  let dst :=
    match containerConfig src with
    | Some c => set_containerConfig (Some (containerConfiguration_copy c)) dst
    | None => dst
    end in
  set_portMapping (allocated (portMapping src)) dst.

(** [m] leaves [nil_kept] true of the store, however it ends. *)
Definition keeps {A} (nil_kept : gmap positive Mem.obj → Prop)
    (m : M (gmap positive Mem.obj) A) : Prop :=
  ∀ h, nil_kept h → nil_kept (m h).2.

(** What [CopyTo] leaves in the field [proj] of the destination. *)
Definition field_after (proj : Mem.bridgeEndpoint → option positive)
    (a b : positive) h : option (option positive) :=
  match (Mem.CopyTo a b h).2 !! b with
  | Some (Mem.OBridgeEndpoint e) => Some (proj e)
  | _ => None
  end.

(** [m] leaves [P] true of the receiver, however it ends. *)
Definition preserves {S A} (P : S → Prop) (m : M S A) : Prop :=
  ∀ s, P s → P (m s).2.


(** The text before the first verb of the format of line 258. *)
Definition MacAddress_message : string :=
  "failed to decode bridge endpoint configuration mac address after json unmarshal ".

(** Lines 256-260 on a decoded object. *)
Definition MacAddress_stage (cMap : gmap string iface)
    : M endpointConfiguration unit :=
  if has_key cMap "MacAddress" then
    raw <- lift (assert_string (index cMap "MacAddress"));;
    match ParseMAC raw with
    | Parsed mac => modify (set_MacAddress (Some mac))
    | Unparsed err =>
        modify (set_MacAddress None);;
        fail (InternalErrorf
                "failed to decode bridge endpoint configuration mac address after json unmarshal %s: %v"
                [raw; fmt_error err])
    end
  else ret tt.

(** The printer and the parser of hardware addresses agree on [mac]. *)
Definition prints_back (mac : slice byte) : Prop :=
  len mac ≠ 0 → ParseMAC (HardwareAddr_String (elems mac)) = Parsed (elems mac).



(** The table after the loop of [populateEndpoints] over [eps]. *)
Definition restored (nid : string) (eps : list bridgeEndpoint)
    (table : gmap string bridgeEndpoint) : gmap string bridgeEndpoint :=
  foldl (λ t ep, <[id ep := set_network nid ep]> t) table eps.

(** The listing is usable: no error, or the one that stands for no key. *)
Definition no_listing_error (err : option error) : Prop :=
  err = None ∨ err = Some ErrKeyNotFound.

(** The lists of a container configuration are allocated: it is encoded
    with arrays, not with [null]. *)
Definition lists_allocated (cc : containerConfiguration) : Prop :=
  is_Some (ParentEndpoints cc) ∧ is_Some (ChildEndpoints cc).

(** What is left of a container configuration copied onto itself: as many
    empty strings as each list had elements. *)
Definition containerConfiguration_zeroed (c : containerConfiguration)
    : containerConfiguration :=
  {| ParentEndpoints := Some (replicate (len (ParentEndpoints c)) EmptyString);
     ChildEndpoints := Some (replicate (len (ChildEndpoints c)) EmptyString) |}.

(** What is left of an endpoint configuration copied onto itself: the
    hardware address, and as many zero values as each list had elements. *)
Definition endpointConfiguration_zeroed (c : endpointConfiguration)
    : endpointConfiguration :=
  {| MacAddress := MacAddress c;
     PortBindings := Some (replicate (len (PortBindings c)) PortBinding_zero);
     ExposedPorts := Some (replicate (len (ExposedPorts c)) TransportPort_zero) |}.

(** What is left of an endpoint copied onto itself. *)
Definition copied_onto_itself (va : bridgeEndpoint) : bridgeEndpoint :=
  set_portMapping (Some (replicate (len (portMapping va)) PortBinding_zero))
    (set_containerConfig
       ((λ _, {| ParentEndpoints := Some []; ChildEndpoints := Some [] |})
          <$> containerConfig va)
       (set_config
          ((λ _, {| MacAddress := None; PortBindings := Some [];
                    ExposedPorts := Some [] |}) <$> config va)
          va)).

(** * Part 4: the codec, the keys and the restore *)

(** * Facts about the codec, the keys and the restore *)

(** ** Running the steps of a method *)

Lemma bind_Ok {S A B} (m : M S A) (k : A → M S B) s a s' :
  m s = (Ok a, s') → bind m k s = k a s'.
Proof. unfold bind. by intros ->. Qed.

Lemma bind_Err {S A B} (m : M S A) (k : A → M S B) s e s' :
  m s = (Err e, s') → bind m k s = (Err e, s').
Proof. unfold bind. by intros ->. Qed.

Lemma bind_Panic {S A B} (m : M S A) (k : A → M S B) s p s' :
  m s = (Panic p, s') → bind m k s = (Panic p, s').
Proof. unfold bind. by intros ->. Qed.

Lemma bind_Ok_inv {S A B} (m : M S A) (k : A → M S B) s b :
  (bind m k s).1 = Ok b → ∃ a s', m s = (Ok a, s') ∧ (k a s').1 = Ok b.
Proof.
  unfold bind. destruct (m s) as [[a|e|p] s']; simpl; try done. eauto.
Qed.

Lemma bind_lift_Ok {S A B} (a : A) (k : A → M S B) s :
  bind (lift (Ok a)) k s = k a s.
Proof. done. Qed.

Lemma bind_lift_Err {S A B} e (k : A → M S B) s :
  bind (lift (Err e)) k s = (Err e, s).
Proof. done. Qed.

Lemma bind_lift_Panic {S A B} p (k : A → M S B) s :
  bind (lift (Panic p)) k s = (Panic p, s).
Proof. done. Qed.

Lemma bind_modify {S B} (f : S → S) (k : unit → M S B) s :
  bind (modify f) k s = k tt (f s).
Proof. done. Qed.

Lemma bind_ret {S A B} (a : A) (k : A → M S B) s :
  bind (ret a) k s = k a s.
Proof. done. Qed.

Lemma append_empty (s : string) : s +:+ EmptyString = s.
Proof.
  induction s as [|c s IH]; [done|].
  change (String c (s +:+ EmptyString) = String c s). by rewrite IH.
Qed.

Lemma Sprintf_step c v rest args :
  Sprintf (String c (String v rest)) args =
  if (Ascii.eqb c "%"%char && (Ascii.eqb v "s"%char || Ascii.eqb v "v"%char))%bool
  then match args with
       | a :: args' => a +:+ Sprintf rest args'
       | [] => "%!" +:+ String v ("(MISSING)" +:+ Sprintf rest [])
       end
  else String c (Sprintf (String v rest) args).
Proof. done. Qed.


(** ** Looking up a decoded document *)

Lemma has_key_json (m : gmap string json) k :
  has_key (IJson <$> m) k = bool_decide (is_Some (m !! k)).
Proof.
  unfold has_key. apply bool_decide_ext. by rewrite lookup_fmap, fmap_is_Some.
Qed.

Lemma index_json (m : gmap string json) k :
  index (IJson <$> m) k = IJson (default JNull (m !! k)).
Proof. unfold index. rewrite lookup_fmap. by destruct (m !! k). Qed.

Lemma assert_string_index (m : gmap string json) k s :
  m !! k = Some (JString s) → assert_string (index (IJson <$> m) k) = Ok s.
Proof. intros Hk. by rewrite index_json, Hk. Qed.

Lemma assert_strings_json (m : gmap string json) k :
  ∃ dyn, assert_strings (index (IJson <$> m) k)
         = Panic (InterfaceConversion dyn "[]string").
Proof. rewrite index_json. simpl. eauto. Qed.

(** ** The optional keys *)

Lemma decode_optional_absent {T} (m : gmap string json) key
    (parse : string → parsed T) assign format s :
  m !! key = None →
  decode_optional (IJson <$> m) key parse assign format s = (Ok tt, s).
Proof.
  intros Hk. unfold decode_optional. rewrite has_key_json, Hk.
  rewrite bool_decide_eq_false_2; [done|]. by intros [? ?].
Qed.



(** ** The sub-configurations *)

Lemma decode_sub_null {T} (nMap : gmap string iface) key (zero : T) method format :
  nMap !! key = None ∨ nMap !! key = Some (IJson JNull) →
  decode_sub nMap key zero method format = Ok None.
Proof. unfold decode_sub, index. by intros [-> | ->]. Qed.

Lemma containerConfiguration_UnmarshalJSON_object (m : gmap string json) s :
  ∃ dyn, containerConfiguration_UnmarshalJSON (Text (JObject m)) s
         = (Panic (InterfaceConversion dyn "[]string"), s).
Proof.
  unfold containerConfiguration_UnmarshalJSON. cbn.
  destruct (assert_strings_json m "ParentEndpoints") as [dyn ->]. eauto.
Qed.

Lemma endpointConfiguration_UnmarshalJSON_empty s :
  endpointConfiguration_UnmarshalJSON (Text (JObject ∅)) s
  = (Ok tt, set_ExposedPorts None (set_PortBindings None s)).
Proof. done. Qed.



Lemma UnmarshalJSON_required m tgt s1 s2 :
  m !! "id" = Some (JString s1) → m !! "srcName" = Some (JString s2) →
  UnmarshalJSON (Text (JObject m)) tgt
  = after_required (IJson <$> m) (set_srcName s2 (set_id s1 tgt)).
Proof.
  intros H1 H2. unfold UnmarshalJSON. cbn [json_Unmarshal_map].
  rewrite bind_lift_Ok, (assert_string_index _ _ _ H1).
  rewrite bind_lift_Ok, bind_modify, (assert_string_index _ _ _ H2).
  by rewrite bind_lift_Ok, bind_modify.
Qed.




Lemma null_or_absent_fmap m key :
  null_or_absent m key →
  (IJson <$> m) !! key = None ∨ (IJson <$> m) !! key = Some (IJson JNull).
Proof. rewrite lookup_fmap. by intros [-> | ->]; [left|right]. Qed.


(** ** What [MarshalJSON] puts under each key *)

Lemma nMap_lookup ep :
  let nMap := MarshalJSON_nMap ep in
  nMap !! "id" = Some (IJson (JString (id ep)))
  ∧ nMap !! "srcName" = Some (IJson (JString (srcName ep)))
  ∧ nMap !! "addr" = (λ a, IJson (JString (IPNet_String a))) <$> addr ep
  ∧ nMap !! "addrv6" = (λ a, IJson (JString (IPNet_String a))) <$> addrv6 ep
  ∧ nMap !! "macAddress"
    = (if decide (len (macAddress ep) ≠ 0)
       then Some (IJson (JString (HardwareAddr_String (elems (macAddress ep)))))
       else None)
  ∧ nMap !! "config"
    = Some (IMarshaler "*bridge.endpointConfiguration"
              (endpointConfiguration_MarshalJSON <$> config ep))
  ∧ nMap !! "containerConfiguration"
    = Some (IMarshaler "*bridge.containerConfiguration"
              (containerConfiguration_MarshalJSON <$> containerConfig ep))
  ∧ nMap !! "portMapping"
    = (if decide (len (portMapping ep) ≠ 0)
       then Some (IStrings (strings_of PortBinding_String (portMapping ep)))
       else None).
Proof.
  unfold MarshalJSON_nMap. cbv zeta.
  destruct (addr ep), (addrv6 ep), (decide (len (macAddress ep) ≠ 0)),
    (decide (len (portMapping ep) ≠ 0)); by simplify_map_eq.
Qed.

Lemma lift_Ok_inv {S A} (o : outcome A) (s s' : S) a :
  lift o s = (Ok a, s') → o = Ok a.
Proof. unfold lift. by intros [= -> _]. Qed.

Lemma decode_sub_containerConfiguration (m : gmap string json) cm format :
  m !! "containerConfiguration" = Some (JObject cm) →
  ∃ dyn, decode_sub (IJson <$> m) "containerConfiguration"
           containerConfiguration_zero containerConfiguration_UnmarshalJSON format
         = Panic (InterfaceConversion dyn "[]string").
Proof.
  intros Hm. unfold decode_sub. rewrite index_json, Hm. cbn [from_option Datatypes.id json_Marshal].
  unfold json_Unmarshal_ptr.
  destruct (containerConfiguration_UnmarshalJSON_object cm containerConfiguration_zero)
    as [dyn ->].
  cbn. eauto.
Qed.

(** C1, where it fails.  An endpoint with a port mapping or with a container
    configuration does not come back from its own encoding: decoding the
    document that [MarshalJSON] produced never returns normally, whatever
    the record decoded into.  The lists were written as JSON arrays, which
    [encoding/json] decodes as [[]interface{}] (and a nil list as nil), and
    lines 120, 212 and 213 assert [[]string].  [round_trip_bare] is the other
    half: a record with every optional field absent does come back. *)
Theorem round_trip_not_Ok ep tgt :
  len (portMapping ep) ≠ 0 ∨ containerConfig ep ≠ None →
  (UnmarshalJSON (Text (MarshalJSON ep)) tgt).1 ≠ Ok tt.
Proof.
  intros Hep Hok.
  destruct (nMap_lookup ep) as (Hid & Hsrc & _ & _ & _ & _ & Hcc & Hpm).
  unfold MarshalJSON, json_Marshal_map in Hok.
  set (m := json_Marshal <$> MarshalJSON_nMap ep) in *.
  assert (H1 : m !! "id" = Some (JString (id ep)))
    by by unfold m; rewrite lookup_fmap, Hid.
  assert (H2 : m !! "srcName" = Some (JString (srcName ep)))
    by by unfold m; rewrite lookup_fmap, Hsrc.
  rewrite (UnmarshalJSON_required _ _ _ _ H1 H2) in Hok. unfold after_required in Hok.
  apply bind_Ok_inv in Hok as (_ & r1 & _ & Hok).
  apply bind_Ok_inv in Hok as (_ & r2 & _ & Hok).
  apply bind_Ok_inv in Hok as (_ & r3 & _ & Hok).
  apply bind_Ok_inv in Hok as (cfg & r4 & _ & Hok).
  apply bind_Ok_inv in Hok as (_ & r5 & _ & Hok).
  apply bind_Ok_inv in Hok as (ccfg & r6 & Hccfg%lift_Ok_inv & Hok).
  apply bind_Ok_inv in Hok as (_ & r7 & _ & Hok).
  apply bind_Ok_inv in Hok as (pms & r8 & Hpms & _).
  destruct (containerConfig ep) as [cf|] eqn:Hcf.
  - destruct (decode_sub_containerConfiguration m
                (json_Marshal <$> (<["ChildEndpoints" := IStrings (ChildEndpoints cf)]>
                   (<["ParentEndpoints" := IStrings (ParentEndpoints cf)]> ∅)))
                "failed to decode bridge endpoint container configuration after json unmarshal %v: %v")
      as [dyn Hp].
    { unfold m. by rewrite lookup_fmap, Hcc. }
    congruence.
  - destruct Hep as [Hlen | ?]; [|done].
    rewrite has_key_json in Hpms. unfold m in Hpms.
    rewrite lookup_fmap, Hpm, decide_True in Hpms by done.
    rewrite bool_decide_eq_true_2 in Hpms by (cbn; eauto).
    destruct (assert_strings_json (json_Marshal <$> MarshalJSON_nMap ep) "portMapping")
      as [dyn Hp].
    by rewrite Hp in Hpms.
Qed.

(** ** The keys *)

(** C8.  [Key] is the tuple of the tag [bridge_endpoint], the network's id
    and the endpoint's id; [KeyPrefix] is the tuple of the tag and the
    network's id; [Key] is [KeyPrefix] with the endpoint's id appended. *)
Theorem key_scheme ep :
  Key ep = ["bridge_endpoint"; network ep; id ep]
  ∧ KeyPrefix ep = ["bridge_endpoint"; network ep]
  ∧ Key ep = KeyPrefix ep ++ [id ep].
Proof. done. Qed.

(** ** Omitted keys *)

(** C6.  The map that [MarshalJSON] encodes has no key [addrv6] when the
    IPv6 address is nil, no key [addr] when the address is nil, no key
    [macAddress] when the hardware address is empty and no key
    [portMapping] when the port mapping is empty; and a key that the map
    lacks is absent from the encoded document. *)
Theorem unset_fields_are_omitted ep :
  (addrv6 ep = None → MarshalJSON_nMap ep !! "addrv6" = None)
  ∧ (addr ep = None → MarshalJSON_nMap ep !! "addr" = None)
  ∧ (len (macAddress ep) = 0 → MarshalJSON_nMap ep !! "macAddress" = None)
  ∧ (len (portMapping ep) = 0 → MarshalJSON_nMap ep !! "portMapping" = None)
  ∧ ∃ doc, MarshalJSON ep = JObject doc
      ∧ ∀ key, MarshalJSON_nMap ep !! key = None → doc !! key = None.
Proof.
  destruct (nMap_lookup ep) as (_ & _ & Ha & Ha6 & Hmac & _ & _ & Hpm).
  repeat split.
  - intros E. by rewrite Ha6, E.
  - intros E. by rewrite Ha, E.
  - intros E. rewrite Hmac, decide_False; [done|]. by intros ?.
  - intros E. rewrite Hpm, decide_False; [done|]. by intros ?.
  - eexists. split; [done|]. intros key E. by rewrite lookup_fmap, E.
Qed.

(** An endpoint with every optional field absent is decoded, from its own
    encoding and into a record made by [New], as the record it was. *)
Lemma round_trip_bare ep :
  addr ep = None → addrv6 ep = None → macAddress ep = None →
  config ep = None → containerConfig ep = None → portMapping ep = None →
  dbIndex ep = 0%N → dbExists ep = false →
  UnmarshalJSON (Text (MarshalJSON ep)) (New ep) = (Ok tt, ep).
Proof.
  intros Ha Ha6 Hmac Hcfg Hccfg Hpm Hidx Hex.
  destruct (nMap_lookup ep) as (Hid & Hsrc & La & La6 & Lmac & Lcfg & Lccfg & Lpm).
  rewrite Ha in La. rewrite Ha6 in La6. rewrite Hmac in Lmac.
  rewrite Hcfg in Lcfg. rewrite Hccfg in Lccfg. rewrite Hpm in Lpm.
  cbn in La, La6, Lmac, Lcfg, Lccfg, Lpm.
  unfold MarshalJSON, json_Marshal_map.
  set (m := json_Marshal <$> MarshalJSON_nMap ep) in *.
  assert (m !! "id" = Some (JString (id ep))) as M1
    by by unfold m; rewrite lookup_fmap, Hid.
  assert (m !! "srcName" = Some (JString (srcName ep))) as M2
    by by unfold m; rewrite lookup_fmap, Hsrc.
  assert (m !! "addr" = None) as Ma by by unfold m; rewrite lookup_fmap, La.
  assert (m !! "addrv6" = None) as Ma6 by by unfold m; rewrite lookup_fmap, La6.
  assert (m !! "macAddress" = None) as Mmac
    by by unfold m; rewrite lookup_fmap, Lmac.
  assert (null_or_absent m "config") as Mcfg
    by by right; unfold m; rewrite lookup_fmap, Lcfg.
  assert (null_or_absent m "containerConfiguration") as Mccfg
    by by right; unfold m; rewrite lookup_fmap, Lccfg.
  assert (m !! "portMapping" = None) as Mpm
    by by unfold m; rewrite lookup_fmap, Lpm.
  clearbody m.
  rewrite (UnmarshalJSON_required m _ _ _ M1 M2). unfold after_required.
  rewrite (bind_Ok _ _ _ _ _ (decode_optional_absent m "addr" _ _ _ _ Ma)).
  rewrite (bind_Ok _ _ _ _ _ (decode_optional_absent m "addrv6" _ _ _ _ Ma6)).
  rewrite (bind_Ok _ _ _ _ _ (decode_optional_absent m "macAddress" _ _ _ _ Mmac)).
  rewrite !decode_sub_null by by apply null_or_absent_fmap.
  rewrite bind_lift_Ok, bind_modify, bind_lift_Ok, bind_modify.
  rewrite has_key_json, Mpm, bool_decide_eq_false_2 by by intros [? ?].
  rewrite bind_ret, bind_modify.
  destruct ep; cbn in *; by subst.
Qed.

(** ** Restore *)

(** C4.  When [List] returns an error other than [ErrKeyNotFound],
    [populateEndpoints] returns that error and leaves the network, with its
    table of endpoints, as it was. *)
Theorem listing_error_is_returned n kvol e :
  listing n = (kvol, Some e) → e ≠ ErrKeyNotFound →
  populateEndpoints n = (Err e, n).
Proof.
  intros Hl He. unfold populateEndpoints, getEndpointsFromStore.
  unfold listing in Hl. unfold bind, get. cbv beta iota. rewrite Hl.
  by rewrite decide_True.
Qed.

(** C5.  When [List] reports [ErrKeyNotFound] (and so returns no object),
    [populateEndpoints] returns no error and the network's table of
    endpoints is the one it was: nothing is added. *)
Theorem not_found_is_an_empty_listing n :
  listing n = ([], Some ErrKeyNotFound) →
  populateEndpoints n = (Ok tt, n).
Proof.
  intros Hl. unfold populateEndpoints, getEndpointsFromStore.
  unfold listing in Hl. unfold bind, get. cbv beta iota. rewrite Hl.
  by rewrite decide_False by by intros ?.
Qed.

(** * Part 5: [CopyTo] copies deeply *)

(** ** Running store code to a normal return *)

#[local] Instance IPNet_struct_ok : StructOk Mem.IPNet_struct.
Proof. split; [done|]. intros [] ?; naive_solver. Qed.
#[local] Instance endpointConfiguration_struct_ok : StructOk Mem.endpointConfiguration_struct.
Proof. split; [done|]. intros [] ?; naive_solver. Qed.
#[local] Instance containerConfiguration_struct_ok : StructOk Mem.containerConfiguration_struct.
Proof. split; [done|]. intros [] ?; naive_solver. Qed.
#[local] Instance bridgeEndpoint_struct_ok : StructOk Mem.bridgeEndpoint_struct.
Proof. split; [done|]. intros [] ?; naive_solver. Qed.
#[local] Instance bytes_kind_ok : KindOk Mem.bytes_kind.
Proof. split; [done| |done]. intros [] ?; naive_solver. Qed.
#[local] Instance strings_kind_ok : KindOk Mem.strings_kind.
Proof. split; [done| |done]. intros [] ?; naive_solver. Qed.
#[local] Instance portBindings_kind_ok : KindOk Mem.portBindings_kind.
Proof. split; [done| |done]. intros [] ?; naive_solver. Qed.
#[local] Instance transportPorts_kind_ok : KindOk Mem.transportPorts_kind.
Proof. split; [done| |done]. intros [] ?; naive_solver. Qed.

Lemma wp_ret {A} (a : A) h Q : Q a h → wp (ret a) h Q.
Proof. done. Qed.

Lemma wp_bind {A B} (m : M _ A) (k : A → M _ B) h Q :
  wp m h (λ a h', wp (k a) h' Q) → wp (bind m k) h Q.
Proof. unfold wp, bind. by destruct (m h) as [[?|?|?] ?]. Qed.

Lemma wp_mono {A} (m : M _ A) h (Q Q' : A → gmap positive Mem.obj → Prop) :
  wp m h Q → (∀ a h', Q a h' → Q' a h') → wp m h Q'.
Proof. unfold wp. destruct (m h) as [[?|?|?] ?]; naive_solver. Qed.

Lemma wp_run {A} (m : M _ A) h Q :
  wp m h Q → ∃ a h', m h = (Ok a, h') ∧ Q a h'.
Proof. unfold wp. destruct (m h) as [[?|?|?] ?]; naive_solver. Qed.

Lemma wp_alloc o h Q :
  (∀ l, l ∉ dom h → Q l (<[l := o]> h)) → wp (Mem.alloc o) h Q.
Proof. intros HQ. apply HQ, is_fresh. Qed.

Lemma wp_load l h o Q : h !! l = Some o → Q o h → wp (Mem.load l) h Q.
Proof. unfold wp, Mem.load. by intros ->. Qed.

Lemma wp_store l o h Q : Q tt (<[l := o]> h) → wp (Mem.store l o) h Q.
Proof. done. Qed.

Lemma wp_load_struct {R} (st : Mem.struct R) `{!StructOk st} l h r Q :
  h !! l = Some (Mem.pack st r) → Q r h → wp (Mem.load_struct st l) h Q.
Proof.
  intros Hl HQ. apply wp_bind, (wp_load _ _ _ _ Hl). by rewrite unpack_pack.
Qed.

Lemma wp_update_struct {R} (st : Mem.struct R) `{!StructOk st} l f h r Q :
  h !! l = Some (Mem.pack st r) →
  Q tt (<[l := Mem.pack st (f r)]> h) →
  wp (Mem.update_struct st l f) h Q.
Proof.
  intros Hl HQ. by apply wp_bind, (wp_load_struct _ _ _ _ _ Hl), wp_store.
Qed.

(** ** Frames *)

Lemma frame_refl X h : frame X h h.
Proof. by split. Qed.

Lemma frame_trans X h1 h2 h3 :
  frame X h1 h2 → frame X h2 h3 → frame X h1 h3.
Proof.
  intros [D1 F1] [D2 F2]. split; [set_solver|].
  intros l Hl HX. rewrite F2, F1; auto.
Qed.

Lemma frame_weaken X Y h h' : frame X h h' → X ⊆ Y → frame Y h h'.
Proof. intros [D F] ?. split; [done|]. intros l ? ?. apply F; set_solver. Qed.

Lemma frame_insert_fresh X h l o : l ∉ dom h → frame X h (<[l := o]> h).
Proof.
  intros Hl. split; [set_solver|].
  intros l' ? _. rewrite lookup_insert_ne; [done|]. set_solver.
Qed.

Lemma frame_insert_in X h l o : l ∈ X → frame X h (<[l := o]> h).
Proof.
  intros Hl. split; [set_solver|].
  intros l' ? ?. rewrite lookup_insert_ne; [done|]. set_solver.
Qed.

(** A frame that changed only cells outside the first store is a frame for
    any set. *)
Lemma frame_outside X Y h1 h2 h3 :
  frame X h1 h2 → frame Y h2 h3 → Y ## dom h1 → frame X h1 h3.
Proof.
  intros [D1 F1] [D2 F2] HY. split; [set_solver|].
  intros l Hl HX. rewrite F2, F1; auto. set_solver.
Qed.

(** ** Slices *)

Section slices.
Context {T : Type} (k : Mem.kind T) `{!KindOk k}.

Lemma slice_value_SWin h a off n v :
  slice_value k h (Mem.SWin a off n) = Some v →
  ∃ ys, h !! a = Some (Mem.wrap k ys) ∧ off + n ≤ length ys
        ∧ v = Some (take n (drop off ys)).
Proof.
  cbn. destruct (h !! a) as [o|] eqn:Ha; [|done]. cbn.
  destruct (Mem.unwrap k o) as [ys|] eqn:Ho; [|done]. cbn.
  unfold Mem.window. case_decide; [|done]. cbn. intros [= <-].
  exists ys. by rewrite (wrap_unwrap _ _ Ho).
Qed.

Lemma slice_value_dom h s v :
  slice_value k h s = Some v → Mem.slice_locs s ⊆ dom h.
Proof.
  destruct s as [|a off n]; [set_solver|].
  intros (ys & Ha & _)%slice_value_SWin. cbn.
  apply singleton_subseteq_l, elem_of_dom. eauto.
Qed.

Lemma slice_value_length h s v :
  slice_value k h s = Some v → length (elems v) = Mem.len s.
Proof.
  destruct s as [|a off n]; [by intros [= <-]|].
  intros (ys & _ & ? & ->)%slice_value_SWin. cbn.
  rewrite length_take, length_drop. lia.
Qed.

Lemma slice_value_agree h h' s :
  (∀ l, l ∈ Mem.slice_locs s → h' !! l = h !! l) →
  slice_value k h' s = slice_value k h s.
Proof.
  destruct s as [|a off n]; [done|]. intros Hag. cbn.
  rewrite Hag; [done|]. set_solver.
Qed.

Lemma slice_value_whole h a xs :
  h !! a = Some (Mem.wrap k xs) →
  slice_value k h (Mem.SWin a 0 (length xs)) = Some (Some xs).
Proof.
  intros Ha. cbn. rewrite Ha. cbn. rewrite unwrap_wrap. cbn.
  unfold Mem.window. rewrite decide_True by (cbn; lia). cbn.
  by rewrite drop_0, take_ge.
Qed.

Lemma wp_read h s v Q :
  slice_value k h s = Some v → Q (elems v) h → wp (Mem.read k s) h Q.
Proof.
  destruct s as [|a off n]; [by intros [= <-]|].
  intros (ys & Ha & Hn & ->)%slice_value_SWin HQ.
  apply wp_bind, (wp_load _ _ _ _ Ha). rewrite unwrap_wrap. cbn.
  unfold Mem.window. by rewrite decide_True.
Qed.

Lemma wp_make h n Q :
  (∀ a, a ∉ dom h →
        Q (Mem.SWin a 0 n) (<[a := Mem.wrap k (replicate n (Mem.zero k))]> h)) →
  wp (Mem.make k n) h Q.
Proof. intros HQ. apply wp_bind, wp_alloc. intros a Ha. by apply wp_ret, HQ. Qed.

(** Copying into a whole array of the source's length replaces it. *)
Lemma wp_copy_whole h a ys src v Q :
  h !! a = Some (Mem.wrap k ys) → length ys = Mem.len src →
  slice_value k h src = Some v →
  Q (Mem.len src) (<[a := Mem.wrap k (elems v)]> h) →
  wp (Mem.copy k (Mem.SWin a 0 (Mem.len src)) src) h Q.
Proof.
  intros Ha Hys Hv HQ. pose proof (slice_value_length _ _ _ Hv) as Hlen.
  apply wp_bind, (wp_read _ _ _ _ Hv).
  apply wp_bind, (wp_load _ _ _ _ Ha). rewrite unwrap_wrap.
  rewrite decide_True by (cbn; lia).
  apply wp_bind, wp_store. apply wp_ret.
  rewrite Hlen, Nat.min_id. cbn.
  rewrite (take_ge (elems v)), drop_ge, app_nil_r by lia. done.
Qed.

End slices.

(** ** Values depend on the storage only *)

Lemma sub_locs_agree {R} (st : Mem.struct R) slices h h' p :
  (∀ l, l ∈ Mem.sub_locs st slices h p → h' !! l = h !! l) →
  Mem.sub_locs st slices h' p = Mem.sub_locs st slices h p.
Proof.
  destruct p as [l0|]; [|done]. intros Hag. unfold Mem.sub_locs in *.
  rewrite (Hag l0); [done|]. set_solver.
Qed.

Lemma sub_locs_target {R} (st : Mem.struct R) slices h l0 r :
  h !! l0 = Some (Mem.pack st r) → StructOk st →
  Mem.sub_locs st slices h (Some l0) = {[l0]} ∪ ⋃ (Mem.slice_locs <$> slices r).
Proof. intros Hl ?. cbn. rewrite Hl. cbn. by rewrite unpack_pack. Qed.

Lemma IPNet_value_agree h h' p :
  (∀ l, l ∈ Mem.sub_locs Mem.IPNet_struct Mem.IPNet_slices h p → h' !! l = h !! l) →
  IPNet_value h' p = IPNet_value h p.
Proof.
  destruct p as [l0|]; [|done]. unfold IPNet_value, Mem.sub_locs. intros Hag.
  rewrite (Hag l0) by set_solver.
  destruct (h !! l0 ≫= Mem.unpack Mem.IPNet_struct) as [n|] eqn:Hn; [|done].
  cbn in Hag |- *.
  rewrite !(slice_value_agree _ h h'); [done|..];
    intros l Hl; apply Hag; set_solver.
Qed.

Lemma endpointConfiguration_value_agree h h' p :
  (∀ l, l ∈ Mem.sub_locs Mem.endpointConfiguration_struct
              Mem.endpointConfiguration_slices h p → h' !! l = h !! l) →
  endpointConfiguration_value h' p = endpointConfiguration_value h p.
Proof.
  destruct p as [l0|]; [|done].
  unfold endpointConfiguration_value, Mem.sub_locs. intros Hag.
  rewrite (Hag l0) by set_solver.
  destruct (h !! l0 ≫= Mem.unpack Mem.endpointConfiguration_struct)
    as [n|] eqn:Hn; [|done].
  cbn in Hag |- *.
  rewrite !(slice_value_agree _ h h'); [done|..];
    intros l Hl; apply Hag; set_solver.
Qed.

Lemma containerConfiguration_value_agree h h' p :
  (∀ l, l ∈ Mem.sub_locs Mem.containerConfiguration_struct
              Mem.containerConfiguration_slices h p → h' !! l = h !! l) →
  containerConfiguration_value h' p = containerConfiguration_value h p.
Proof.
  destruct p as [l0|]; [|done].
  unfold containerConfiguration_value, Mem.sub_locs. intros Hag.
  rewrite (Hag l0) by set_solver.
  destruct (h !! l0 ≫= Mem.unpack Mem.containerConfiguration_struct)
    as [n|] eqn:Hn; [|done].
  cbn in Hag |- *.
  rewrite !(slice_value_agree _ h h'); [done|..];
    intros l Hl; apply Hag; set_solver.
Qed.

Lemma storage_agree h h' x :
  (∀ l, l ∈ Mem.storage h x → h' !! l = h !! l) →
  Mem.storage h' x = Mem.storage h x.
Proof.
  intros Hag. unfold Mem.storage in *.
  rewrite (Hag x) by set_solver.
  destruct (h !! x ≫= Mem.unpack Mem.bridgeEndpoint_struct) as [e|]; [|done].
  rewrite !(sub_locs_agree _ _ h h'); [done|..];
    intros l Hl; apply Hag; set_solver.
Qed.

Lemma bridgeEndpoint_value_agree h h' x :
  (∀ l, l ∈ Mem.storage h x → h' !! l = h !! l) →
  bridgeEndpoint_value h' x = bridgeEndpoint_value h x.
Proof.
  intros Hag. unfold bridgeEndpoint_value, Mem.storage in *.
  rewrite (Hag x) by set_solver.
  destruct (h !! x ≫= Mem.unpack Mem.bridgeEndpoint_struct) as [e|]; [|done].
  cbn.
  rewrite !(IPNet_value_agree h h'), !(slice_value_agree _ h h'),
    (endpointConfiguration_value_agree h h'),
    (containerConfiguration_value_agree h h'); [done|..];
    intros l Hl; apply Hag; set_solver.
Qed.

(** ** Values survive a frame *)

Lemma frame_agree X h h' (S : gset positive) :
  frame X h h' → S ⊆ dom h → S ## X → ∀ l, l ∈ S → h' !! l = h !! l.
Proof. intros [_ F] HS HX l Hl. apply F; set_solver. Qed.

Lemma slice_value_frame {T} (k : Mem.kind T) `{!KindOk k} X h h' s v :
  slice_value k h s = Some v → frame X h h' → Mem.slice_locs s ## X →
  slice_value k h' s = Some v.
Proof.
  intros Hv HF HX. rewrite <- Hv. apply (slice_value_agree k).
  eapply frame_agree; [done| |done]. by apply (slice_value_dom k _ _ v).
Qed.

Lemma IPNet_value_Some h l0 v :
  IPNet_value h (Some l0) = Some v →
  ∃ n ip mask,
    h !! l0 = Some (Mem.OIPNet n)
    ∧ slice_value Mem.bytes_kind h (Mem.IP n) = Some ip
    ∧ slice_value Mem.bytes_kind h (Mem.Mask n) = Some mask
    ∧ v = Some {| IP := ip; Mask := mask |}.
Proof.
  unfold IPNet_value. intros (n & (o & Hl & Ho)%bind_Some & Hv)%bind_Some.
  apply bind_Some in Hv as (ip & H1 & (mask & H2 & [= <-])%bind_Some).
  apply (pack_unpack (st := Mem.IPNet_struct)) in Ho as ->. naive_solver.
Qed.

Lemma endpointConfiguration_value_Some h l0 v :
  endpointConfiguration_value h (Some l0) = Some v →
  ∃ c mac pbs eps,
    h !! l0 = Some (Mem.OEndpointConfiguration c)
    ∧ slice_value Mem.bytes_kind h (Mem.MacAddress c) = Some mac
    ∧ slice_value Mem.portBindings_kind h (Mem.PortBindings c) = Some pbs
    ∧ slice_value Mem.transportPorts_kind h (Mem.ExposedPorts c) = Some eps
    ∧ v = Some {| MacAddress := mac; PortBindings := pbs; ExposedPorts := eps |}.
Proof.
  unfold endpointConfiguration_value.
  intros (c & (o & Hl & Ho)%bind_Some & Hv)%bind_Some.
  apply bind_Some in Hv as (mac & H1 & (pbs & H2 & Hv)%bind_Some).
  apply bind_Some in Hv as (eps & H3 & [= <-]).
  apply (pack_unpack (st := Mem.endpointConfiguration_struct)) in Ho as ->.
  naive_solver.
Qed.

Lemma containerConfiguration_value_Some h l0 v :
  containerConfiguration_value h (Some l0) = Some v →
  ∃ c pe ce,
    h !! l0 = Some (Mem.OContainerConfiguration c)
    ∧ slice_value Mem.strings_kind h (Mem.ParentEndpoints c) = Some pe
    ∧ slice_value Mem.strings_kind h (Mem.ChildEndpoints c) = Some ce
    ∧ v = Some {| ParentEndpoints := pe; ChildEndpoints := ce |}.
Proof.
  unfold containerConfiguration_value.
  intros (c & (o & Hl & Ho)%bind_Some & Hv)%bind_Some.
  apply bind_Some in Hv as (pe & H1 & (ce & H2 & [= <-])%bind_Some).
  apply (pack_unpack (st := Mem.containerConfiguration_struct)) in Ho as ->.
  naive_solver.
Qed.

Lemma IPNet_value_dom h p v :
  IPNet_value h p = Some v →
  Mem.sub_locs Mem.IPNet_struct Mem.IPNet_slices h p ⊆ dom h.
Proof.
  destruct p as [l0|]; [|set_solver].
  intros (n & ip & mask & Hl & H1 & H2 & _)%IPNet_value_Some.
  rewrite (sub_locs_target Mem.IPNet_struct _ _ _ _ Hl _).
  apply (slice_value_dom _) in H1, H2. apply elem_of_dom_2 in Hl.
  cbn. set_solver.
Qed.

Lemma endpointConfiguration_value_dom h p v :
  endpointConfiguration_value h p = Some v →
  Mem.sub_locs Mem.endpointConfiguration_struct
    Mem.endpointConfiguration_slices h p ⊆ dom h.
Proof.
  destruct p as [l0|]; [|set_solver].
  intros (c & ? & ? & ? & Hl & H1 & H2 & H3 & _)%endpointConfiguration_value_Some.
  rewrite (sub_locs_target Mem.endpointConfiguration_struct _ _ _ _ Hl _).
  apply (slice_value_dom _) in H1, H2, H3. apply elem_of_dom_2 in Hl.
  cbn. set_solver.
Qed.

Lemma containerConfiguration_value_dom h p v :
  containerConfiguration_value h p = Some v →
  Mem.sub_locs Mem.containerConfiguration_struct
    Mem.containerConfiguration_slices h p ⊆ dom h.
Proof.
  destruct p as [l0|]; [|set_solver].
  intros (c & ? & ? & Hl & H1 & H2 & _)%containerConfiguration_value_Some.
  rewrite (sub_locs_target Mem.containerConfiguration_struct _ _ _ _ Hl _).
  apply (slice_value_dom _) in H1, H2. apply elem_of_dom_2 in Hl.
  cbn. set_solver.
Qed.

Lemma IPNet_value_frame X h h' p v :
  IPNet_value h p = Some v → frame X h h' →
  Mem.sub_locs Mem.IPNet_struct Mem.IPNet_slices h p ## X →
  IPNet_value h' p = Some v
  ∧ Mem.sub_locs Mem.IPNet_struct Mem.IPNet_slices h' p
    = Mem.sub_locs Mem.IPNet_struct Mem.IPNet_slices h p.
Proof.
  intros Hv HF HX.
  pose proof (frame_agree _ _ _ _ HF (IPNet_value_dom _ _ _ Hv) HX) as Hag.
  by rewrite (IPNet_value_agree h h'), (sub_locs_agree _ _ h h').
Qed.

Lemma endpointConfiguration_value_frame X h h' p v :
  endpointConfiguration_value h p = Some v → frame X h h' →
  Mem.sub_locs Mem.endpointConfiguration_struct
    Mem.endpointConfiguration_slices h p ## X →
  endpointConfiguration_value h' p = Some v
  ∧ Mem.sub_locs Mem.endpointConfiguration_struct
      Mem.endpointConfiguration_slices h' p
    = Mem.sub_locs Mem.endpointConfiguration_struct
        Mem.endpointConfiguration_slices h p.
Proof.
  intros Hv HF HX.
  pose proof (frame_agree _ _ _ _ HF (endpointConfiguration_value_dom _ _ _ Hv) HX)
    as Hag.
  by rewrite (endpointConfiguration_value_agree h h'), (sub_locs_agree _ _ h h').
Qed.

Lemma containerConfiguration_value_frame X h h' p v :
  containerConfiguration_value h p = Some v → frame X h h' →
  Mem.sub_locs Mem.containerConfiguration_struct
    Mem.containerConfiguration_slices h p ## X →
  containerConfiguration_value h' p = Some v
  ∧ Mem.sub_locs Mem.containerConfiguration_struct
      Mem.containerConfiguration_slices h' p
    = Mem.sub_locs Mem.containerConfiguration_struct
        Mem.containerConfiguration_slices h p.
Proof.
  intros Hv HF HX.
  pose proof (frame_agree _ _ _ _ HF (containerConfiguration_value_dom _ _ _ Hv) HX)
    as Hag.
  by rewrite (containerConfiguration_value_agree h h'), (sub_locs_agree _ _ h h').
Qed.

(** ** The copy helpers *)

Lemma wp_GetMacCopy h from v Q :
  slice_value Mem.bytes_kind h from = Some v →
  (∀ to h', frame ∅ h h' → Mem.slice_locs to ## dom h →
            slice_value Mem.bytes_kind h' to = Some v → Q to h') →
  wp (Mem.GetMacCopy from) h Q.
Proof.
  intros Hv HQ. destruct from as [|a0 off n].
  { apply wp_ret, HQ; [apply frame_refl|set_solver|done]. }
  set (from := Mem.SWin a0 off n) in *.
  pose proof (slice_value_length _ _ _ _ Hv) as Hlen.
  destruct (slice_value_SWin _ _ _ _ _ _ Hv) as (ys & _ & _ & Hxs).
  set (xs := take n (drop off ys)) in *. clearbody xs. subst v. cbn in Hlen.
  apply wp_bind, (wp_make Mem.bytes_kind). intros a Ha.
  apply wp_bind.
  eapply (wp_copy_whole Mem.bytes_kind).
  - apply lookup_insert_eq.
  - by rewrite length_replicate.
  - eapply slice_value_frame; [apply _|done|by apply (frame_insert_fresh ∅)|set_solver].
  - apply wp_ret. rewrite insert_insert_eq. apply HQ.
    + by apply frame_insert_fresh.
    + cbn. set_solver.
    + replace (Mem.len from) with (length xs) by done.
      apply (slice_value_whole Mem.bytes_kind), lookup_insert_eq.
Qed.

Lemma wp_GetIPNetCopy h from v Q :
  IPNet_value h from = Some v →
  (∀ to h', frame ∅ h h' →
            Mem.sub_locs Mem.IPNet_struct Mem.IPNet_slices h' to ## dom h →
            IPNet_value h' to = Some v → Q to h') →
  wp (Mem.GetIPNetCopy from) h Q.
Proof.
  intros Hv HQ. destruct from as [p|].
  2: { apply wp_ret, HQ; [apply frame_refl|set_solver|done]. }
  destruct (IPNet_value_Some _ _ _ Hv) as (n & ip & mask & Hp & Hip & Hmask & ->).
  apply wp_bind, (wp_load_struct Mem.IPNet_struct _ _ _ _ Hp).
  apply wp_bind, (wp_GetMacCopy _ _ _ _ Hmask). intros mask' h1 F1 Dmask Vmask.
  assert (h1 !! p = Some (Mem.OIPNet n)) as Hp1.
  { destruct F1 as [_ F1]. rewrite F1; [done|by eapply elem_of_dom_2|set_solver]. }
  apply wp_bind, (wp_load_struct Mem.IPNet_struct _ _ _ _ Hp1).
  apply wp_bind, (wp_GetMacCopy h1 _ ip).
  { eapply slice_value_frame; [apply _|done..|set_solver]. }
  intros ip' h2 F2 Dip Vip.
  apply wp_bind, wp_alloc. intros q Hq. apply wp_ret.
  pose proof (frame_insert_fresh ∅ h2 q
                (Mem.OIPNet {| Mem.IP := ip'; Mem.Mask := mask' |}) Hq) as F3.
  pose proof (slice_value_dom _ _ _ _ Vmask) as Dm1.
  pose proof (slice_value_dom _ _ _ _ Vip) as Di2.
  destruct F1 as [D1 F1'], F2 as [D2 F2'].
  set (n' := {| Mem.IP := ip'; Mem.Mask := mask' |}) in *.
  assert (<[q := Mem.OIPNet n']> h2 !! q = Some (Mem.pack Mem.IPNet_struct n'))
    as Hq' by apply lookup_insert_eq.
  apply HQ.
  - eapply frame_trans; [|done]. eapply frame_trans; by split.
  - rewrite (sub_locs_target Mem.IPNet_struct _ _ q _ Hq' _).
    cbn. set_solver.
  - unfold IPNet_value. rewrite lookup_insert_eq. cbn.
    rewrite (slice_value_frame _ ∅ h2 _ _ _ Vip F3) by set_solver. cbn.
    rewrite (slice_value_frame _ ∅ h1 _ mask' mask Vmask); [done| |set_solver].
    eapply frame_trans; [by split|done].
Qed.

(** ** Assignments to fields *)

Lemma wp_assign {R A} (st : Mem.struct R) `{!StructOk st} (f : R → A) set_f g
    src dst h rs rd Q :
  h !! src = Some (Mem.pack st rs) → h !! dst = Some (Mem.pack st rd) →
  wp (g (f rs)) h
     (λ v h1, frame ∅ h h1 ∧ Q tt (<[dst := Mem.pack st (set_f v rd)]> h1)) →
  wp (Mem.assign st f set_f g src dst) h Q.
Proof.
  intros Hs Hd Hg. apply wp_bind, (wp_load_struct st _ _ _ _ Hs).
  apply wp_bind. eapply wp_mono; [done|]. intros v h1 [[_ F] HQ].
  apply (wp_update_struct st _ _ _ rd); [|done].
  rewrite F; [done|by eapply elem_of_dom_2|set_solver].
Qed.

Lemma wp_make_copy {R T} (st : Mem.struct R) `{!StructOk st}
    (k : Mem.kind T) `{!KindOk k} f set_f src dst h rs rd v Q :
  (∀ s r, f (set_f s r) = s) →
  h !! src = Some (Mem.pack st rs) → h !! dst = Some (Mem.pack st rd) →
  src ≠ dst →
  slice_value k h (f rs) = Some v → dst ∉ Mem.slice_locs (f rs) →
  (∀ s' h', frame {[dst]} h h' →
            h' !! dst = Some (Mem.pack st (set_f s' rd)) →
            Mem.slice_locs s' ## dom h →
            slice_value k h' s' = Some (Some (elems v)) → Q tt h') →
  wp (Mem.make_copy k st f set_f src dst) h Q.
Proof.
  intros Hlens Hs Hd Hne Hv Hnot HQ.
  pose proof (slice_value_length k _ _ _ Hv) as Hlen.
  pose proof (slice_value_dom k _ _ _ Hv) as Hdom.
  apply wp_bind, (wp_assign st _ _ _ _ _ _ _ _ _ Hs Hd).
  apply (wp_make k). intros a Ha. split; [by apply frame_insert_fresh|].
  assert (a ≠ dst) as Had by (apply elem_of_dom_2 in Hd; set_solver).
  assert (a ≠ src) as Has by (apply elem_of_dom_2 in Hs; set_solver).
  set (s' := Mem.SWin a 0 (Mem.len (f rs))).
  set (h2 := <[dst := Mem.pack st (set_f s' rd)]>
               (<[a := Mem.wrap k (replicate (Mem.len (f rs)) (Mem.zero k))]> h)).
  assert (h2 !! dst = Some (Mem.pack st (set_f s' rd))) as Hd2
    by apply lookup_insert_eq.
  assert (h2 !! src = Some (Mem.pack st rs)) as Hs2
    by by unfold h2; rewrite !lookup_insert_ne.
  apply wp_bind, (wp_load_struct st _ _ _ _ Hd2).
  apply wp_bind, (wp_load_struct st _ _ _ _ Hs2).
  rewrite Hlens. apply wp_bind.
  eapply (wp_copy_whole k).
  - unfold h2. rewrite lookup_insert_ne by done. apply lookup_insert_eq.
  - by rewrite length_replicate.
  - rewrite <- Hv. apply (slice_value_agree k). intros l Hl.
    unfold h2. rewrite !lookup_insert_ne; [done|set_solver..].
  - apply wp_ret. unfold h2.
    rewrite (insert_insert_ne _ a dst), insert_insert_eq by done.
    apply (HQ s').
    + split; [set_solver|]. intros l ? ?.
      rewrite !lookup_insert_ne; [done|set_solver..].
    + apply lookup_insert_eq.
    + cbn. set_solver.
    + unfold s'. rewrite <- Hlen. apply (slice_value_whole k).
      rewrite lookup_insert_ne by done. apply lookup_insert_eq.
Qed.

(** ** The sub-configurations *)

Lemma frame_update X h h' l o :
  frame X h h' → l ∈ X → frame X h (<[l := o]> h').
Proof. intros HF Hl. eapply frame_trans; [done|by apply frame_insert_in]. Qed.

Lemma frame_lookup X h h' l o :
  frame X h h' → h !! l = Some o → l ∉ X → h' !! l = Some o.
Proof. intros [_ F] Hl HX. rewrite F; [done|by eapply elem_of_dom_2|done]. Qed.

Lemma frame_dom X h h' : frame X h h' → dom h ⊆ dom h'.
Proof. by intros [? _]. Qed.

Lemma wp_endpointConfiguration_CopyTo h c d vc rd Q :
  endpointConfiguration_value h (Some c) = Some (Some vc) →
  h !! d = Some (Mem.OEndpointConfiguration rd) →
  d ∉ Mem.sub_locs Mem.endpointConfiguration_struct
        Mem.endpointConfiguration_slices h (Some c) →
  (∀ h', frame {[d]} h h' →
         Mem.sub_locs Mem.endpointConfiguration_struct
           Mem.endpointConfiguration_slices h' (Some d) ∖ {[d]} ## dom h →
         endpointConfiguration_value h' (Some d)
         = Some (Some (endpointConfiguration_copy vc)) →
         Q tt h') →
  wp (Mem.endpointConfiguration_CopyTo c d) h Q.
Proof.
  intros Hv Hd Hnot HQ.
  destruct (endpointConfiguration_value_Some _ _ _ Hv)
    as (rc & mac & pbs & eps & Hc & Hmac & Hpbs & Heps & [= ->]).
  rewrite (sub_locs_target Mem.endpointConfiguration_struct _ _ _ _ Hc _) in Hnot.
  cbn in Hnot.
  assert (c ≠ d) as Hcd by set_solver.
  assert (d ∈ dom h) as Hdd by by eapply elem_of_dom_2.
  unfold Mem.endpointConfiguration_CopyTo.
  apply wp_bind, (wp_assign Mem.endpointConfiguration_struct _ _ _ _ _ _ _ _ _ Hc Hd).
  apply (wp_GetMacCopy _ _ _ _ Hmac). intros mac' h1 F1 Dmac Vmac.
  split; [done|].
  set (r1 := Mem.set_MacAddress mac' rd).
  set (h1' := <[d := Mem.pack Mem.endpointConfiguration_struct r1]> h1).
  assert (frame {[d]} h h1') as F1'
    by (apply frame_update; [by eapply frame_weaken|set_solver]).
  assert (frame {[d]} h1 h1') as F11 by (apply frame_insert_in; set_solver).
  apply wp_bind.
  apply (wp_make_copy Mem.endpointConfiguration_struct Mem.portBindings_kind
           _ _ _ _ _ rc r1 pbs); [done| |apply lookup_insert_eq|done| |set_solver|].
  { apply (frame_lookup _ _ _ _ _ F1' Hc). set_solver. }
  { apply (slice_value_frame _ _ _ _ _ _ Hpbs F1'). set_solver. }
  intros s2 h2 F2 Hd2 D2 V2.
  apply wp_bind.
  apply (wp_make_copy Mem.endpointConfiguration_struct Mem.transportPorts_kind
           _ _ _ _ _ rc (Mem.set_PortBindings s2 r1) eps);
    [done| |done|done| |set_solver|].
  { apply (frame_lookup _ _ _ _ _ (frame_trans _ _ _ _ F1' F2) Hc). set_solver. }
  { apply (slice_value_frame _ _ _ _ _ _ Heps (frame_trans _ _ _ _ F1' F2)).
    set_solver. }
  intros s3 h3 F3 Hd3 D3 V3. apply wp_ret.
  pose proof (frame_dom _ _ _ F1) as Dh1.
  pose proof (frame_dom _ _ _ F11) as Dh11.
  pose proof (frame_dom _ _ _ F2) as Dh2.
  apply HQ.
  - eapply frame_trans; [done|]. by eapply frame_trans.
  - rewrite (sub_locs_target Mem.endpointConfiguration_struct _ _ _ _ Hd3 _).
    cbn. set_solver.
  - unfold endpointConfiguration_value. rewrite Hd3. cbn.
    rewrite (slice_value_frame _ {[d]} h1 h3 mac' mac); [|done| |set_solver].
    2: { eapply frame_trans; [done|]. by eapply frame_trans. }
    cbn. rewrite (slice_value_frame _ {[d]} h2 h3 s2 _ V2 F3) by set_solver.
    cbn. by rewrite V3.
Qed.

Lemma wp_containerConfiguration_CopyTo h c d vc rd Q :
  containerConfiguration_value h (Some c) = Some (Some vc) →
  h !! d = Some (Mem.OContainerConfiguration rd) →
  d ∉ Mem.sub_locs Mem.containerConfiguration_struct
        Mem.containerConfiguration_slices h (Some c) →
  (∀ h', frame {[d]} h h' →
         Mem.sub_locs Mem.containerConfiguration_struct
           Mem.containerConfiguration_slices h' (Some d) ∖ {[d]} ## dom h →
         containerConfiguration_value h' (Some d)
         = Some (Some (containerConfiguration_copy vc)) →
         Q tt h') →
  wp (Mem.containerConfiguration_CopyTo c d) h Q.
Proof.
  intros Hv Hd Hnot HQ.
  destruct (containerConfiguration_value_Some _ _ _ Hv)
    as (rc & pe & ce & Hc & Hpe & Hce & [= ->]).
  rewrite (sub_locs_target Mem.containerConfiguration_struct _ _ _ _ Hc _) in Hnot.
  cbn in Hnot.
  assert (c ≠ d) as Hcd by set_solver.
  assert (d ∈ dom h) as Hdd by by eapply elem_of_dom_2.
  unfold Mem.containerConfiguration_CopyTo.
  apply wp_bind.
  apply (wp_make_copy Mem.containerConfiguration_struct Mem.strings_kind
           _ _ _ _ _ rc rd pe); [done..|set_solver|].
  intros s1 h1 F1 Hd1 D1 V1.
  apply wp_bind.
  apply (wp_make_copy Mem.containerConfiguration_struct Mem.strings_kind
           _ _ _ _ _ rc (Mem.set_ParentEndpoints s1 rd) ce);
    [done| |done|done| |set_solver|].
  { apply (frame_lookup _ _ _ _ _ F1 Hc). set_solver. }
  { apply (slice_value_frame _ _ _ _ _ _ Hce F1). set_solver. }
  intros s2 h2 F2 Hd2 D2 V2. apply wp_ret.
  pose proof (frame_dom _ _ _ F1) as Dh1.
  apply HQ.
  - by eapply frame_trans.
  - rewrite (sub_locs_target Mem.containerConfiguration_struct _ _ _ _ Hd2 _).
    cbn. set_solver.
  - unfold containerConfiguration_value. rewrite Hd2. cbn.
    rewrite (slice_value_frame _ {[d]} h1 h2 s1 _ V1 F2) by set_solver.
    cbn. by rewrite V2.
Qed.

(** ** A pointer field of the endpoint *)

Lemma wp_copy_sub {R} (st : Mem.struct R) `{!StructOk st} empty f set_f method
    a b h ea eb Q :
  (∀ v e, f (set_f v e) = v) →
  h !! a = Some (Mem.OBridgeEndpoint ea) → h !! b = Some (Mem.OBridgeEndpoint eb) →
  a ≠ b →
  match f ea with
  | None => Q tt h
  | Some c =>
      ∀ q, q ∉ dom h →
        wp (method c q)
           (<[b := Mem.OBridgeEndpoint (set_f (Some q) eb)]>
              (<[q := Mem.pack st empty]> h)) Q
  end →
  wp (Mem.copy_sub st empty f set_f method a b) h Q.
Proof.
  intros Hlens Ha Hb Hab HQ. unfold Mem.copy_sub.
  apply wp_bind, (wp_load_struct Mem.bridgeEndpoint_struct _ _ _ _ Ha).
  destruct (f ea) as [c|] eqn:Hf; [|by apply wp_ret].
  apply wp_bind, wp_alloc. intros q Hq.
  assert (q ≠ a) by (apply elem_of_dom_2 in Ha; set_solver).
  assert (q ≠ b) by (apply elem_of_dom_2 in Hb; set_solver).
  apply wp_bind, (wp_update_struct Mem.bridgeEndpoint_struct _ _ _ eb).
  { by rewrite lookup_insert_ne. }
  apply wp_bind, (wp_load_struct Mem.bridgeEndpoint_struct _ _ ea).
  { by rewrite !lookup_insert_ne. }
  apply wp_bind, (wp_load_struct Mem.bridgeEndpoint_struct _ _ (set_f (Some q) eb)).
  { apply lookup_insert_eq. }
  rewrite Hf, Hlens. by apply HQ.
Qed.

(** ** Fields of the endpoint *)

#[local] Instance plain_field_ok A : FieldOk (plain_field A).
Proof. split; cbn; intros; set_solver. Qed.

Lemma slice_not_endpoint {T} (k : Mem.kind T) `{!KindOk k} h s v l e :
  slice_value k h s = Some v → h !! l = Some (Mem.OBridgeEndpoint e) →
  l ∉ Mem.slice_locs s.
Proof.
  destruct s as [|a0 off n]; [set_solver|].
  intros (ys & Ha & _)%(slice_value_SWin k) Hl. cbn.
  intros ->%elem_of_singleton. rewrite Ha in Hl.
  injection Hl. apply wrap_not_endpoint.
Qed.

#[local] Instance slice_field_ok {T} (k : Mem.kind T) `{!KindOk k} :
  FieldOk (slice_field k).
Proof.
  split; cbn.
  - intros X h h' s v Hv HF HX. split; [|done]. by eapply slice_value_frame.
  - intros h s v. apply (slice_value_dom k).
  - intros h s v l e. apply (slice_not_endpoint k).
Qed.

#[local] Instance IPNet_field_ok : FieldOk IPNet_field.
Proof.
  split; cbn.
  - intros. by eapply IPNet_value_frame.
  - apply IPNet_value_dom.
  - intros h [p|] v l e Hv Hl; [|set_solver].
    destruct (IPNet_value_Some _ _ _ Hv) as (n & ? & ? & Hp & H1 & H2 & _).
    rewrite (sub_locs_target Mem.IPNet_struct _ _ _ _ Hp _). cbn.
    pose proof (slice_not_endpoint _ _ _ _ _ _ H1 Hl).
    pose proof (slice_not_endpoint _ _ _ _ _ _ H2 Hl).
    assert (l ≠ p) by (intros ->; congruence). set_solver.
Qed.

#[local] Instance endpointConfiguration_field_ok : FieldOk endpointConfiguration_field.
Proof.
  split; cbn.
  - intros. by eapply endpointConfiguration_value_frame.
  - apply endpointConfiguration_value_dom.
  - intros h [p|] v l e Hv Hl; [|set_solver].
    destruct (endpointConfiguration_value_Some _ _ _ Hv)
      as (n & ? & ? & ? & Hp & H1 & H2 & H3 & _).
    rewrite (sub_locs_target Mem.endpointConfiguration_struct _ _ _ _ Hp _). cbn.
    pose proof (slice_not_endpoint _ _ _ _ _ _ H1 Hl).
    pose proof (slice_not_endpoint _ _ _ _ _ _ H2 Hl).
    pose proof (slice_not_endpoint _ _ _ _ _ _ H3 Hl).
    assert (l ≠ p) by (intros ->; congruence). set_solver.
Qed.

#[local] Instance containerConfiguration_field_ok : FieldOk containerConfiguration_field.
Proof.
  split; cbn.
  - intros. by eapply containerConfiguration_value_frame.
  - apply containerConfiguration_value_dom.
  - intros h [p|] v l e Hv Hl; [|set_solver].
    destruct (containerConfiguration_value_Some _ _ _ Hv)
      as (n & ? & ? & Hp & H1 & H2 & _).
    rewrite (sub_locs_target Mem.containerConfiguration_struct _ _ _ _ Hp _). cbn.
    pose proof (slice_not_endpoint _ _ _ _ _ _ H1 Hl).
    pose proof (slice_not_endpoint _ _ _ _ _ _ H2 Hl).
    assert (l ≠ p) by (intros ->; congruence). set_solver.
Qed.

Lemma good_frame {A V} (fk : field_kind A V) `{!FieldOk fk} D X h h' p v :
  good fk D h p v → frame X h h' → X ⊆ D → good fk D h' p v.
Proof.
  intros [HD Hv] HF HX.
  destruct (field_frame X h h' p v Hv HF) as [Hv' Hl]; [set_solver|].
  split; [by rewrite Hl|done].
Qed.

Lemma good_mono {A V} (fk : field_kind A V) D D' h p v :
  good fk D h p v → D' ⊆ D → good fk D' h p v.
Proof. intros [? ?] ?. split; [set_solver|done]. Qed.

Lemma wp_assign_field {A V} (fk : field_kind A V) `{!FieldOk fk}
    (f : Mem.bridgeEndpoint → A) set_f (g : A → M (gmap positive Mem.obj) A)
    a b h ea eb v Q :
  (∀ h from v Q',
     value fk h from = Some v →
     (∀ to h', frame ∅ h h' → locs fk h' to ## dom h →
               value fk h' to = Some v → Q' to h') →
     wp (g from) h Q') →
  h !! a = Some (Mem.OBridgeEndpoint ea) → h !! b = Some (Mem.OBridgeEndpoint eb) →
  value fk h (f ea) = Some v →
  (∀ to h', frame {[b]} h h' →
            h' !! b = Some (Mem.OBridgeEndpoint (set_f to eb)) →
            good fk (dom h) h' to v → Q tt h') →
  wp (Mem.assign Mem.bridgeEndpoint_struct f set_f g a b) h Q.
Proof.
  intros Hg Ha Hb Hv HQ.
  apply (wp_assign Mem.bridgeEndpoint_struct _ _ _ _ _ _ _ _ _ Ha Hb).
  apply (Hg _ _ _ _ Hv). intros to h1 F1 D1 V1. split; [done|].
  assert (b ∈ dom h) by by eapply elem_of_dom_2.
  apply (HQ to).
  - apply frame_update; [by eapply frame_weaken|set_solver].
  - apply lookup_insert_eq.
  - apply (good_frame fk _ {[b]} h1); [done|apply frame_insert_in|]; set_solver.
Qed.

Lemma wp_ret_field {A} h (from : A) v Q' :
  value (plain_field A) h from = Some v →
  (∀ to h', frame ∅ h h' → locs (plain_field A) h' to ## dom h →
            value (plain_field A) h' to = Some v → Q' to h') →
  wp (ret from) h Q'.
Proof.
  intros Hv HQ. apply wp_ret, HQ; [apply frame_refl|set_solver|done].
Qed.

(** ** The endpoint *)

Lemma bridgeEndpoint_value_Some h x v :
  bridgeEndpoint_value h x = Some v →
  ∃ e, h !! x = Some (Mem.OBridgeEndpoint e)
    ∧ value IPNet_field h (Mem.addr e) = Some (addr v)
    ∧ value IPNet_field h (Mem.addrv6 e) = Some (addrv6 v)
    ∧ value (slice_field Mem.bytes_kind) h (Mem.macAddress e) = Some (macAddress v)
    ∧ value endpointConfiguration_field h (Mem.config e) = Some (config v)
    ∧ value containerConfiguration_field h (Mem.containerConfig e)
      = Some (containerConfig v)
    ∧ value (slice_field Mem.portBindings_kind) h (Mem.portMapping e)
      = Some (portMapping v)
    ∧ Mem.id e = id v ∧ Mem.srcName e = srcName v ∧ Mem.network e = network v
    ∧ Mem.dbIndex e = dbIndex v ∧ Mem.dbExists e = dbExists v.
Proof.
  unfold bridgeEndpoint_value.
  intros (e & (o & Hl & Ho)%bind_Some & Hv)%bind_Some.
  apply (pack_unpack (st := Mem.bridgeEndpoint_struct)) in Ho as ->.
  apply bind_Some in Hv as (a4 & H1 & (a6 & H2 & Hv)%bind_Some).
  apply bind_Some in Hv as (mac & H3 & (cfg & H4 & Hv)%bind_Some).
  apply bind_Some in Hv as (ccfg & H5 & (pms & H6 & [= <-])%bind_Some).
  exists e. cbn. naive_solver.
Qed.

Lemma storage_target h x e :
  h !! x = Some (Mem.OBridgeEndpoint e) →
  Mem.storage h x
  = {[x]} ∪ (locs IPNet_field h (Mem.addr e) ∪ locs IPNet_field h (Mem.addrv6 e)
             ∪ Mem.slice_locs (Mem.macAddress e)
             ∪ locs endpointConfiguration_field h (Mem.config e)
             ∪ locs containerConfiguration_field h (Mem.containerConfig e)
             ∪ Mem.slice_locs (Mem.portMapping e)).
Proof. intros Hx. unfold Mem.storage. by rewrite Hx. Qed.

Lemma bridgeEndpoint_value_dom h x v :
  bridgeEndpoint_value h x = Some v → Mem.storage h x ⊆ dom h.
Proof.
  intros (e & Hx & H1 & H2 & H3 & H4 & H5 & H6 & _)%bridgeEndpoint_value_Some.
  rewrite (storage_target _ _ _ Hx).
  apply field_dom in H1, H2, H3, H4, H5, H6. apply elem_of_dom_2 in Hx.
  cbn in *. set_solver.
Qed.

Section CopyTo_proof.

Variables (h : gmap positive Mem.obj) (a b : positive).
Variables (ea : Mem.bridgeEndpoint) (va : bridgeEndpoint).
Hypothesis Ha : h !! a = Some (Mem.OBridgeEndpoint ea).
Hypothesis Hva : bridgeEndpoint_value h a = Some va.
Hypothesis Hb : b ∈ dom h.
Hypothesis Hsep : Mem.storage h a ## Mem.storage h b.

(** The cells that the copy must stay away from: all those of [h] but the
    ones that the destination reaches. *)
Definition D0 : gset positive := dom h ∖ (Mem.storage h b ∖ {[b]}).

Lemma Hba : b ∉ Mem.storage h a.
Proof. intros ?. apply (Hsep b); [done|]. unfold Mem.storage. set_solver. Qed.

(** In [h'] the destination holds [e'], which is worth [w] and whose
    storage is outside [D0]; [h'] is [h] but for new cells and the
    destination. *)
Definition Inv h' (e' : Mem.bridgeEndpoint) (w : bridgeEndpoint) : Prop :=
  frame {[b]} h h'
  ∧ h' !! b = Some (Mem.OBridgeEndpoint e')
  ∧ good IPNet_field D0 h' (Mem.addr e') (addr w)
  ∧ good IPNet_field D0 h' (Mem.addrv6 e') (addrv6 w)
  ∧ good (slice_field Mem.bytes_kind) D0 h' (Mem.macAddress e') (macAddress w)
  ∧ good endpointConfiguration_field D0 h' (Mem.config e') (config w)
  ∧ good containerConfiguration_field D0 h' (Mem.containerConfig e')
      (containerConfig w)
  ∧ good (slice_field Mem.portBindings_kind) D0 h' (Mem.portMapping e')
      (portMapping w)
  ∧ Mem.id e' = id w ∧ Mem.srcName e' = srcName w ∧ Mem.network e' = network w
  ∧ Mem.dbIndex e' = dbIndex w ∧ Mem.dbExists e' = dbExists w.

Lemma Hab : a ≠ b.
Proof. intros E. apply Hba. rewrite <- E. unfold Mem.storage. set_solver. Qed.

Lemma D0_dom h' : frame {[b]} h h' → D0 ⊆ dom h'.
Proof. intros [HD _]. unfold D0. set_solver. Qed.

Lemma D0_source : Mem.storage h a ⊆ D0.
Proof.
  pose proof (bridgeEndpoint_value_dom _ _ _ Hva). unfold D0. set_solver.
Qed.

Lemma source_at h' :
  frame {[b]} h h' →
  h' !! a = Some (Mem.OBridgeEndpoint ea)
  ∧ value IPNet_field h' (Mem.addr ea) = Some (addr va)
  ∧ value IPNet_field h' (Mem.addrv6 ea) = Some (addrv6 va)
  ∧ value (slice_field Mem.bytes_kind) h' (Mem.macAddress ea) = Some (macAddress va)
  ∧ value endpointConfiguration_field h' (Mem.config ea) = Some (config va)
  ∧ value containerConfiguration_field h' (Mem.containerConfig ea)
    = Some (containerConfig va)
  ∧ value (slice_field Mem.portBindings_kind) h' (Mem.portMapping ea)
    = Some (portMapping va)
  ∧ locs endpointConfiguration_field h' (Mem.config ea) ⊆ dom h ∖ {[b]}
  ∧ locs containerConfiguration_field h' (Mem.containerConfig ea) ⊆ dom h ∖ {[b]}
  ∧ Mem.slice_locs (Mem.portMapping ea) ⊆ dom h ∖ {[b]}.
Proof.
  intros HF.
  destruct (bridgeEndpoint_value_Some _ _ _ Hva)
    as (ea' & Ha' & A1 & A2 & A3 & A4 & A5 & A6 & _).
  rewrite Ha in Ha'. injection Ha' as <-.
  pose proof Hba as Hba'. rewrite (storage_target _ _ _ Ha) in Hba'.
  pose proof (field_dom _ _ _ A4) as D4.
  pose proof (field_dom _ _ _ A5) as D5.
  pose proof (field_dom _ _ _ A6) as D6.
  split; [apply (frame_lookup _ _ _ _ _ HF Ha); pose proof Hab; set_solver|].
  destruct (field_frame _ _ _ _ _ A1 HF) as [? ?]; [cbn in *; set_solver|].
  destruct (field_frame _ _ _ _ _ A2 HF) as [? ?]; [cbn in *; set_solver|].
  destruct (field_frame _ _ _ _ _ A3 HF) as [? ?]; [cbn in *; set_solver|].
  destruct (field_frame _ _ _ _ _ A4 HF) as [? E4]; [cbn in *; set_solver|].
  destruct (field_frame _ _ _ _ _ A5 HF) as [? E5]; [cbn in *; set_solver|].
  destruct (field_frame _ _ _ _ _ A6 HF) as [? ?]; [cbn in *; set_solver|].
  rewrite E4, E5. cbn in *. repeat split; try done; set_solver.
Qed.

(** After a statement that left the frame [F'] and the destination [e'']:
    the old contents are carried over the frame, the new one is at hand. *)
Ltac Inv_step I F' Hb' :=
  let F := fresh "F" in
  destruct I as (F & _ & ? & ? & ? & ? & ? & ? & ? & ? & ? & ? & ?);
  pose proof (D0_dom _ F);
  split; [by eapply frame_trans|];
  split; [exact Hb'|];
  repeat match goal with |- _ ∧ _ => split end; cbn;
    first [ done
          | eapply good_frame; [apply _|eassumption|exact F'|unfold D0; set_solver]
          | eapply good_mono; [eassumption|done] ].

Lemma source_fields :
  Mem.id ea = id va ∧ Mem.srcName ea = srcName va.
Proof.
  destruct (bridgeEndpoint_value_Some _ _ _ Hva) as (ea' & Ha0 & Hrest).
  rewrite Ha in Ha0. injection Ha0 as <-. naive_solver.
Qed.

Lemma stage_id h' e' w :
  Inv h' e' w →
  wp (Mem.assign Mem.bridgeEndpoint_struct Mem.id Mem.set_id ret a b) h'
     (λ _ h'', ∃ e'', Inv h'' e'' (set_id (id va) w)).
Proof.
  intros I. destruct (source_at h') as (Ha' & _); [apply I|].
  destruct source_fields as [Eid _].
  apply (wp_assign_field (plain_field string) _ _ _ _ _ _ ea e' (Mem.id ea));
    [intros; by eapply wp_ret_field|done|apply I|done|].
  intros to h'' F' Hb' [_ [= ->]]. eexists. Inv_step I F' Hb'.
Qed.

Lemma stage_srcName h' e' w :
  Inv h' e' w →
  wp (Mem.assign Mem.bridgeEndpoint_struct Mem.srcName Mem.set_srcName ret a b) h'
     (λ _ h'', ∃ e'', Inv h'' e'' (set_srcName (srcName va) w)).
Proof.
  intros I. destruct (source_at h') as (Ha' & _); [apply I|].
  destruct source_fields as [_ Esrc].
  apply (wp_assign_field (plain_field string) _ _ _ _ _ _ ea e' (Mem.srcName ea));
    [intros; by eapply wp_ret_field|done|apply I|done|].
  intros to h'' F' Hb' [_ [= ->]]. eexists. Inv_step I F' Hb'.
Qed.

Lemma stage_addr h' e' w :
  Inv h' e' w →
  wp (Mem.assign Mem.bridgeEndpoint_struct Mem.addr Mem.set_addr
        Mem.GetIPNetCopy a b) h'
     (λ _ h'', ∃ e'', Inv h'' e'' (set_addr (addr va) w)).
Proof.
  intros I. destruct (source_at h') as (Ha' & A1 & _); [apply I|].
  apply (wp_assign_field IPNet_field _ _ _ _ _ _ ea e' (addr va));
    [apply wp_GetIPNetCopy|done|apply I|done|].
  intros to h'' F' Hb' G. eexists. Inv_step I F' Hb'.
Qed.

Lemma stage_addrv6 h' e' w :
  Inv h' e' w →
  wp (Mem.assign Mem.bridgeEndpoint_struct Mem.addrv6 Mem.set_addrv6
        Mem.GetIPNetCopy a b) h'
     (λ _ h'', ∃ e'', Inv h'' e'' (set_addrv6 (addrv6 va) w)).
Proof.
  intros I. destruct (source_at h') as (Ha' & _ & A2 & _); [apply I|].
  apply (wp_assign_field IPNet_field _ _ _ _ _ _ ea e' (addrv6 va));
    [apply wp_GetIPNetCopy|done|apply I|done|].
  intros to h'' F' Hb' G. eexists. Inv_step I F' Hb'.
Qed.

Lemma stage_macAddress h' e' w :
  Inv h' e' w →
  wp (Mem.assign Mem.bridgeEndpoint_struct Mem.macAddress Mem.set_macAddress
        Mem.GetMacCopy a b) h'
     (λ _ h'', ∃ e'', Inv h'' e'' (set_macAddress (macAddress va) w)).
Proof.
  intros I. destruct (source_at h') as (Ha' & _ & _ & A3 & _); [apply I|].
  apply (wp_assign_field (slice_field Mem.bytes_kind) _ _ _ _ _ _ ea e'
           (macAddress va));
    [apply wp_GetMacCopy|done|apply I|done|].
  intros to h'' F' Hb' G. eexists. Inv_step I F' Hb'.
Qed.

Lemma stage_portMapping h' e' w :
  Inv h' e' w →
  wp (Mem.make_copy Mem.portBindings_kind Mem.bridgeEndpoint_struct
        Mem.portMapping Mem.set_portMapping a b) h'
     (λ _ h'', ∃ e'', Inv h'' e'' (set_portMapping (allocated (portMapping va)) w)).
Proof.
  intros I.
  destruct (source_at h') as (Ha' & _ & _ & _ & _ & _ & A6 & _ & _ & D6);
    [apply I|].
  apply (wp_make_copy Mem.bridgeEndpoint_struct Mem.portBindings_kind
           _ _ _ _ _ ea e' (portMapping va));
    [done|done|apply I|apply Hab|done|set_solver|].
  intros s' h'' F' Hb' D' V'.
  assert (good (slice_field Mem.portBindings_kind) (dom h') h'' s'
            (allocated (portMapping va))) as G by done.
  eexists. Inv_step I F' Hb'.
Qed.

Lemma stage_config h' e' w :
  Inv h' e' w →
  wp (Mem.copy_sub Mem.endpointConfiguration_struct
        {| Mem.MacAddress := Mem.SNil; Mem.PortBindings := Mem.SNil;
           Mem.ExposedPorts := Mem.SNil |}
        Mem.config Mem.set_config Mem.endpointConfiguration_CopyTo a b) h'
     (λ _ h'', ∃ e'',
        Inv h'' e''
          match config va with
          | Some c => set_config (Some (endpointConfiguration_copy c)) w
          | None => w
          end).
Proof.
  intros I.
  destruct (source_at h') as (Ha' & _ & _ & _ & A4 & _ & _ & D4 & _); [apply I|].
  pose proof I as (F & Hb' & _).
  apply (wp_copy_sub Mem.endpointConfiguration_struct _ _ _ _ a b h' ea e');
    [done|done|done|apply Hab|].
  destruct (Mem.config ea) as [c|] eqn:Hc.
  2: { injection A4 as <-. by exists e'. }
  intros q Hq.
  destruct (endpointConfiguration_value_Some _ _ _ A4)
    as (rc & mac & pbs & eps & _ & _ & _ & _ & Hvc).
  rewrite Hvc in *. clear Hvc.
  set (zero := {| Mem.MacAddress := Mem.SNil; Mem.PortBindings := Mem.SNil;
                  Mem.ExposedPorts := Mem.SNil |}).
  set (hq := <[b := Mem.OBridgeEndpoint (Mem.set_config (Some q) e')]>
               (<[q := Mem.pack Mem.endpointConfiguration_struct zero]> h')).
  pose proof (frame_dom _ _ _ F) as Dh'.
  assert (q ≠ b) as Hqb by set_solver.
  assert (frame {[b]} h' hq) as Fq.
  { apply frame_update; [by apply frame_insert_fresh|set_solver]. }
  destruct (field_frame _ _ _ _ _ A4 Fq) as [A4q E4q]; [set_solver|].
  cbn [locs value endpointConfiguration_field] in A4q, E4q, D4.
  apply (wp_endpointConfiguration_CopyTo hq c q _ zero _ A4q).
  { unfold hq. rewrite lookup_insert_ne by done. apply lookup_insert_eq. }
  { rewrite E4q. set_solver. }
  intros h6 F6 D6 V6.
  assert (frame {[b]} h' h6) as F' by (eapply frame_outside; [done..|set_solver]).
  assert (h6 !! b = Some (Mem.OBridgeEndpoint (Mem.set_config (Some q) e'))) as Hb6.
  { apply (frame_lookup _ _ _ _ _ F6); [apply lookup_insert_eq|set_solver]. }
  assert (good endpointConfiguration_field (dom h') h6 (Some q)
            (Some (endpointConfiguration_copy
                     {| MacAddress := mac; PortBindings := pbs;
                        ExposedPorts := eps |}))) as G.
  { split; [|done]. cbn. pose proof (frame_dom _ _ _ Fq).
    intros l Hl Hl'. destruct (decide (l = q)) as [->|]; [done|].
    apply (D6 l); set_solver. }
  eexists. Inv_step I F' Hb6.
Qed.

Lemma stage_containerConfig h' e' w :
  Inv h' e' w →
  wp (Mem.copy_sub Mem.containerConfiguration_struct
        {| Mem.ParentEndpoints := Mem.SNil; Mem.ChildEndpoints := Mem.SNil |}
        Mem.containerConfig Mem.set_containerConfig
        Mem.containerConfiguration_CopyTo a b) h'
     (λ _ h'', ∃ e'',
        Inv h'' e''
          match containerConfig va with
          | Some c => set_containerConfig (Some (containerConfiguration_copy c)) w
          | None => w
          end).
Proof.
  intros I.
  destruct (source_at h') as (Ha' & _ & _ & _ & _ & A5 & _ & _ & D5 & _); [apply I|].
  pose proof I as (F & Hb' & _).
  apply (wp_copy_sub Mem.containerConfiguration_struct _ _ _ _ a b h' ea e');
    [done|done|done|apply Hab|].
  destruct (Mem.containerConfig ea) as [c|] eqn:Hc.
  2: { injection A5 as <-. by exists e'. }
  intros q Hq.
  destruct (containerConfiguration_value_Some _ _ _ A5)
    as (rc & pe & ce & _ & _ & _ & Hvc).
  rewrite Hvc in *. clear Hvc.
  set (zero := {| Mem.ParentEndpoints := Mem.SNil; Mem.ChildEndpoints := Mem.SNil |}).
  set (hq := <[b := Mem.OBridgeEndpoint (Mem.set_containerConfig (Some q) e')]>
               (<[q := Mem.pack Mem.containerConfiguration_struct zero]> h')).
  pose proof (frame_dom _ _ _ F) as Dh'.
  assert (q ≠ b) as Hqb by set_solver.
  assert (frame {[b]} h' hq) as Fq.
  { apply frame_update; [by apply frame_insert_fresh|set_solver]. }
  destruct (field_frame _ _ _ _ _ A5 Fq) as [A5q E5q]; [set_solver|].
  cbn [locs value containerConfiguration_field] in A5q, E5q, D5.
  apply (wp_containerConfiguration_CopyTo hq c q _ zero _ A5q).
  { unfold hq. rewrite lookup_insert_ne by done. apply lookup_insert_eq. }
  { rewrite E5q. set_solver. }
  intros h6 F6 D6 V6.
  assert (frame {[b]} h' h6) as F' by (eapply frame_outside; [done..|set_solver]).
  assert (h6 !! b = Some (Mem.OBridgeEndpoint (Mem.set_containerConfig (Some q) e')))
    as Hb6.
  { apply (frame_lookup _ _ _ _ _ F6); [apply lookup_insert_eq|set_solver]. }
  assert (good containerConfiguration_field (dom h') h6 (Some q)
            (Some (containerConfiguration_copy
                     {| ParentEndpoints := pe; ChildEndpoints := ce |}))) as G.
  { split; [|done]. cbn. pose proof (frame_dom _ _ _ Fq).
    intros l Hl Hl'. destruct (decide (l = q)) as [->|]; [done|].
    apply (D6 l); set_solver. }
  eexists. Inv_step I F' Hb6.
Qed.

Lemma Inv_value h' e' w : Inv h' e' w → bridgeEndpoint_value h' b = Some w.
Proof.
  intros (_ & Hb' & [_ V1] & [_ V2] & [_ V3] & [_ V4] & [_ V5] & [_ V6]
          & E1 & E2 & E3 & E4 & E5).
  unfold bridgeEndpoint_value. rewrite Hb'. cbn in *.
  rewrite V1, V2, V3, V4, V5, V6. cbn.
  rewrite E1, E2, E3, E4, E5. by destruct w.
Qed.

Lemma Inv_storage h' e' w : Inv h' e' w → Mem.storage h' b ∖ {[b]} ## D0.
Proof.
  intros (_ & Hb' & [L1 _] & [L2 _] & [L3 _] & [L4 _] & [L5 _] & [L6 _] & _).
  rewrite (storage_target _ _ _ Hb'). cbn in *. set_solver.
Qed.

Lemma Inv_source h' e' w :
  Inv h' e' w →
  bridgeEndpoint_value h' a = Some va ∧ Mem.storage h' a = Mem.storage h a.
Proof.
  intros (F & _).
  assert (∀ l, l ∈ Mem.storage h a → h' !! l = h !! l) as Hag.
  { eapply frame_agree; [done|by eapply bridgeEndpoint_value_dom|].
    pose proof Hba. set_solver. }
  by rewrite (bridgeEndpoint_value_agree h h'), (storage_agree h h').
Qed.

End CopyTo_proof.

Lemma D0_disjoint h b (S : gset positive) :
  S ⊆ Mem.storage h b → b ∉ S → S ## D0 h b.
Proof. unfold D0. set_solver. Qed.

Lemma wp_CopyTo h a b va vb :
  bridgeEndpoint_value h a = Some va → bridgeEndpoint_value h b = Some vb →
  Mem.storage h a ## Mem.storage h b →
  wp (Mem.CopyTo a b) h (λ _ h', ∃ e', Inv h b h' e' (CopyTo_value va vb)).
Proof.
  intros Hva Hvb Hsep.
  destruct (bridgeEndpoint_value_Some _ _ _ Hva) as (ea & Ha & _).
  destruct (bridgeEndpoint_value_Some _ _ _ Hvb)
    as (eb & Hb & B1 & B2 & B3 & B4 & B5 & B6 & E1 & E2 & E3 & E4 & E5).
  assert (b ∈ dom h) as Hbd by by eapply elem_of_dom_2.
  assert (Inv h b h eb vb) as I0.
  { pose proof (storage_target _ _ _ Hb) as Hst.
    split; [apply frame_refl|]. split; [done|].
    repeat match goal with |- _ ∧ _ => split end; try done;
      (split; [|done]);
      (apply D0_disjoint;
       [rewrite Hst; clear; cbn [locs slice_field]; set_solver
       |by eapply field_not_endpoint]). }
  unfold Mem.CopyTo.
  apply wp_bind, (wp_load_struct Mem.bridgeEndpoint_struct _ _ eb); [done|].
  cbv zeta.
  apply wp_bind. eapply wp_mono; [exact (stage_id h a b ea va Ha Hva Hbd Hsep _ _ _ I0)|]. intros _ h1 (e1 & I1).
  apply wp_bind. eapply wp_mono; [exact (stage_srcName h a b ea va Ha Hva Hbd Hsep _ _ _ I1)|]. intros _ h2 (e2 & I2).
  apply wp_bind. eapply wp_mono; [exact (stage_addr h a b ea va Ha Hva Hbd Hsep _ _ _ I2)|]. intros _ h3 (e3 & I3).
  apply wp_bind. eapply wp_mono; [exact (stage_addrv6 h a b ea va Ha Hva Hbd Hsep _ _ _ I3)|]. intros _ h4 (e4 & I4).
  apply wp_bind. eapply wp_mono; [exact (stage_macAddress h a b ea va Ha Hva Hbd Hsep _ _ _ I4)|].
  intros _ h5 (e5 & I5).
  apply wp_bind. eapply wp_mono; [exact (stage_config h a b ea va Ha Hva Hbd Hsep _ _ _ I5)|]. intros _ h6 (e6 & I6).
  apply wp_bind. eapply wp_mono; [exact (stage_containerConfig h a b ea va Ha Hva Hbd Hsep _ _ _ I6)|].
  intros _ h7 (e7 & I7).
  apply wp_bind. eapply wp_mono; [exact (stage_portMapping h a b ea va Ha Hva Hbd Hsep _ _ _ I7)|].
  intros _ h8 (e8 & I8).
  apply wp_ret. by exists e8.
Qed.


(** * Part 6: what [CopyTo] never assigns *)

(** ** What [CopyTo] never assigns *)

Section keeps.

(** The source at [a] has a nil pointer in the field [proj]; the destination
    at [b] has [c0] there. *)
Variables (a b : positive) (proj : Mem.bridgeEndpoint → option positive).
Variable c0 : option positive.

(** The field [proj] is nil in the source and [c0] in the destination. *)
Definition nil_kept h : Prop :=
  (∃ e, h !! a = Some (Mem.OBridgeEndpoint e) ∧ proj e = None)
  ∧ (∃ e, h !! b = Some (Mem.OBridgeEndpoint e) ∧ proj e = c0).

Lemma keeps_ret {A} (x : A) : keeps nil_kept (ret x).
Proof. by intros h. Qed.

Lemma keeps_panics {A} : keeps nil_kept (Mem.panics (A := A)).
Proof. by intros h. Qed.

Lemma keeps_bind {A B} (m : M _ A) (k : A → M _ B) :
  keeps nil_kept m → (∀ x, keeps nil_kept (k x)) → keeps nil_kept (bind m k).
Proof.
  intros Hm Hk h HP. specialize (Hm h HP). unfold bind.
  destruct (m h) as [[x|e|p] h']; cbn in *; [by apply Hk|done..].
Qed.

Lemma keeps_load l : keeps nil_kept (Mem.load l).
Proof. intros h HP. unfold Mem.load. by destruct (h !! l). Qed.

(** A store of anything but an endpoint, over anything but an endpoint. *)
Lemma P_insert_other h l o :
  nil_kept h → (∀ e, h !! l ≠ Some (Mem.OBridgeEndpoint e)) → nil_kept (<[l := o]> h).
Proof.
  intros [(e1 & H1 & ?) (e2 & H2 & ?)] Hl.
  assert (l ≠ a) by (intros ->; by eapply Hl).
  assert (l ≠ b) by (intros ->; by eapply Hl).
  split; eexists; by rewrite lookup_insert_ne.
Qed.

(** A store of an endpoint with the same [proj] over an endpoint. *)
Lemma P_insert_endpoint h l e f :
  nil_kept h → h !! l = Some (Mem.OBridgeEndpoint e) → proj (f e) = proj e →
  nil_kept (<[l := Mem.OBridgeEndpoint (f e)]> h).
Proof.
  intros [(e1 & H1 & ?) (e2 & H2 & ?)] Hl Hf. split.
  - destruct (decide (l = a)) as [->|].
    + exists (f e). rewrite lookup_insert_eq. split; [done|]. congruence.
    + exists e1. by rewrite lookup_insert_ne.
  - destruct (decide (l = b)) as [->|].
    + exists (f e). rewrite lookup_insert_eq. split; [done|]. congruence.
    + exists e2. by rewrite lookup_insert_ne.
Qed.

Lemma keeps_alloc o : keeps nil_kept (Mem.alloc o).
Proof.
  intros h HP. cbn. apply P_insert_other; [done|]. intros e He.
  apply (is_fresh (dom h)). by eapply elem_of_dom_2.
Qed.

Lemma keeps_load_struct {R} (st : Mem.struct R) l : keeps nil_kept (Mem.load_struct st l).
Proof.
  apply keeps_bind; [apply keeps_load|]. intros o.
  destruct (Mem.unpack st o); [apply keeps_ret|apply keeps_panics].
Qed.

(** A struct type other than the endpoint's. *)
Definition other_struct {R} (st : Mem.struct R) : Prop :=
  ∀ r e, Mem.pack st r ≠ Mem.OBridgeEndpoint e.

Lemma keeps_update_other {R} (st : Mem.struct R) `{!StructOk st} l f :
  other_struct st → keeps nil_kept (Mem.update_struct st l f).
Proof.
  intros Hst h HP. unfold Mem.update_struct, Mem.load_struct, Mem.load, bind.
  destruct (h !! l) as [o|] eqn:Hl; [|done]. cbn.
  destruct (Mem.unpack st o) as [r|] eqn:Ho; [|done]. cbn.
  apply P_insert_other; [done|]. intros e He.
  apply pack_unpack in Ho as ->. rewrite Hl in He. injection He. apply Hst.
Qed.

Lemma keeps_update_endpoint l f :
  (∀ e, proj (f e) = proj e) →
  keeps nil_kept (Mem.update_struct Mem.bridgeEndpoint_struct l f).
Proof.
  intros Hf h HP. unfold Mem.update_struct, Mem.load_struct, Mem.load, bind.
  destruct (h !! l) as [o|] eqn:Hl; [|done]. cbn.
  destruct o; try done. cbn. by apply P_insert_endpoint.
Qed.

Lemma keeps_read {T} (k : Mem.kind T) s : keeps nil_kept (Mem.read k s).
Proof.
  destruct s; [apply keeps_ret|]. apply keeps_bind; [apply keeps_load|].
  intros o. destruct (_ ≫= _); [apply keeps_ret|apply keeps_panics].
Qed.

Lemma keeps_make {T} (k : Mem.kind T) n : keeps nil_kept (Mem.make k n).
Proof. apply keeps_bind; [apply keeps_alloc|]. intros. apply keeps_ret. Qed.

Lemma keeps_copy {T} (k : Mem.kind T) `{!KindOk k} dst src :
  keeps nil_kept (Mem.copy k dst src).
Proof.
  apply keeps_bind; [apply keeps_read|]. intros xs.
  destruct dst as [|arr off n]; [apply keeps_ret|].
  intros h HP. unfold bind, Mem.load.
  destruct (h !! arr) as [o|] eqn:Hl; [|done]. cbn.
  destruct (Mem.unwrap k o) as [ys|] eqn:Ho; [|done].
  case_decide; [|done]. cbn.
  apply P_insert_other; [done|]. intros e He.
  apply wrap_unwrap in Ho as ->. rewrite Hl in He. injection He.
  apply wrap_not_endpoint.
Qed.

Lemma keeps_GetMacCopy from : keeps nil_kept (Mem.GetMacCopy from).
Proof.
  destruct from; [apply keeps_ret|].
  apply keeps_bind; [apply keeps_make|]. intros to.
  apply keeps_bind; [apply (keeps_copy Mem.bytes_kind)|]. intros. apply keeps_ret.
Qed.

Lemma keeps_GetIPNetCopy from : keeps nil_kept (Mem.GetIPNetCopy from).
Proof.
  destruct from; [|apply keeps_ret].
  apply keeps_bind; [apply keeps_load_struct|]. intros n.
  apply keeps_bind; [apply keeps_GetMacCopy|]. intros mask.
  apply keeps_bind; [apply keeps_load_struct|]. intros n'.
  apply keeps_bind; [apply keeps_GetMacCopy|]. intros ip.
  apply keeps_bind; [apply keeps_alloc|]. intros. apply keeps_ret.
Qed.

Lemma other_IPNet : other_struct Mem.IPNet_struct.
Proof. done. Qed.
Lemma other_endpointConfiguration : other_struct Mem.endpointConfiguration_struct.
Proof. done. Qed.
Lemma other_containerConfiguration : other_struct Mem.containerConfiguration_struct.
Proof. done. Qed.

(** An update that is kept: of a struct that is no endpoint, or of a field
    of the endpoint that is not [proj]. *)
Definition kept_update {R} (st : Mem.struct R) (l : positive) (f : R → R) : Prop :=
  keeps nil_kept (Mem.update_struct st l f).

Lemma keeps_assign {R A} (st : Mem.struct R) (f : R → A) set_f g src dst :
  (∀ x, keeps nil_kept (g x)) → (∀ v, kept_update st dst (set_f v)) →
  keeps nil_kept (Mem.assign st f set_f g src dst).
Proof.
  intros Hg Hu. apply keeps_bind; [apply keeps_load_struct|]. intros s.
  apply keeps_bind; [apply Hg|]. intros v. apply Hu.
Qed.

Lemma keeps_make_copy {R T} (k : Mem.kind T) `{!KindOk k} (st : Mem.struct R)
    f set_f src dst :
  (∀ v, kept_update st dst (set_f v)) →
  keeps nil_kept (Mem.make_copy k st f set_f src dst).
Proof.
  intros Hu.
  apply keeps_bind; [apply keeps_assign; [intros; apply keeps_make|done]|].
  intros _. apply keeps_bind; [apply keeps_load_struct|]. intros d.
  apply keeps_bind; [apply keeps_load_struct|]. intros s.
  apply keeps_bind; [by apply keeps_copy|]. intros. apply keeps_ret.
Qed.

Lemma keeps_endpointConfiguration_CopyTo c d :
  keeps nil_kept (Mem.endpointConfiguration_CopyTo c d).
Proof.
  assert (∀ f, kept_update Mem.endpointConfiguration_struct d f) as Hu
    by (intros; apply (keeps_update_other _), other_endpointConfiguration).
  apply keeps_bind; [apply keeps_assign; [apply keeps_GetMacCopy|done]|]. intros _.
  apply keeps_bind; [by apply (keeps_make_copy _)|]. intros _.
  apply keeps_bind; [by apply (keeps_make_copy _)|]. intros. apply keeps_ret.
Qed.

Lemma keeps_containerConfiguration_CopyTo c d :
  keeps nil_kept (Mem.containerConfiguration_CopyTo c d).
Proof.
  assert (∀ f, kept_update Mem.containerConfiguration_struct d f) as Hu
    by (intros; apply (keeps_update_other _), other_containerConfiguration).
  apply keeps_bind; [by apply (keeps_make_copy _)|]. intros _.
  apply keeps_bind; [by apply (keeps_make_copy _)|]. intros. apply keeps_ret.
Qed.

(** The pointer field copied is another one than [proj]. *)
Lemma keeps_copy_sub_other {R} (st : Mem.struct R) empty f set_f method dst :
  other_struct st → (∀ v e, proj (set_f v e) = proj e) →
  (∀ c d, keeps nil_kept (method c d)) →
  keeps nil_kept (Mem.copy_sub st empty f set_f method a dst).
Proof.
  intros Hst Hset Hm. apply keeps_bind; [apply keeps_load_struct|]. intros s.
  destruct (f s); [|apply keeps_ret].
  apply keeps_bind; [apply keeps_alloc|]. intros q.
  apply keeps_bind; [by apply keeps_update_endpoint|]. intros _.
  apply keeps_bind; [apply keeps_load_struct|]. intros s'.
  apply keeps_bind; [apply keeps_load_struct|]. intros d'.
  destruct (f s'), (f d'); try apply keeps_panics. apply Hm.
Qed.

(** The pointer field copied is [proj], nil in the source: nothing is
    done. *)
Lemma keeps_copy_sub_nil {R} (st : Mem.struct R) empty set_f method dst :
  keeps nil_kept (Mem.copy_sub st empty proj set_f method a dst).
Proof.
  intros h HP. pose proof HP as [(e & Ha & He) _].
  unfold Mem.copy_sub, Mem.load_struct, Mem.load, bind. rewrite Ha. cbn.
  by rewrite He.
Qed.

(** The statements of [CopyTo] on the fields that are no pointer to a
    sub-configuration. *)
Lemma keeps_endpoint_assign {A} (f : Mem.bridgeEndpoint → A) set_f g dst :
  (∀ v e, proj (set_f v e) = proj e) → (∀ x, keeps nil_kept (g x)) →
  keeps nil_kept (Mem.assign Mem.bridgeEndpoint_struct f set_f g a dst).
Proof.
  intros Hset Hg. apply keeps_assign; [done|].
  intros v. by apply keeps_update_endpoint.
Qed.

End keeps.

Lemma CopyTo_keeps_config a b c0 : keeps (nil_kept a b Mem.config c0) (Mem.CopyTo a b).
Proof.
  apply keeps_bind; [apply keeps_load_struct|]. intros _.
  apply keeps_bind; [by apply keeps_endpoint_assign, keeps_ret|]. intros _.
  apply keeps_bind; [by apply keeps_endpoint_assign, keeps_ret|]. intros _.
  apply keeps_bind; [by apply keeps_endpoint_assign, keeps_GetIPNetCopy|]. intros _.
  apply keeps_bind; [by apply keeps_endpoint_assign, keeps_GetIPNetCopy|]. intros _.
  apply keeps_bind; [by apply keeps_endpoint_assign, keeps_GetMacCopy|]. intros _.
  apply keeps_bind; [apply keeps_copy_sub_nil|]. intros _.
  apply keeps_bind.
  { apply keeps_copy_sub_other;
      [apply other_containerConfiguration|done|
       apply keeps_containerConfiguration_CopyTo]. }
  intros _. apply keeps_bind; [|intros; apply keeps_ret].
  apply keeps_make_copy; [apply _|]. intros v. by apply keeps_update_endpoint.
Qed.

Lemma CopyTo_keeps_containerConfig a b c0 :
  keeps (nil_kept a b Mem.containerConfig c0) (Mem.CopyTo a b).
Proof.
  apply keeps_bind; [apply keeps_load_struct|]. intros _.
  apply keeps_bind; [by apply keeps_endpoint_assign, keeps_ret|]. intros _.
  apply keeps_bind; [by apply keeps_endpoint_assign, keeps_ret|]. intros _.
  apply keeps_bind; [by apply keeps_endpoint_assign, keeps_GetIPNetCopy|]. intros _.
  apply keeps_bind; [by apply keeps_endpoint_assign, keeps_GetIPNetCopy|]. intros _.
  apply keeps_bind; [by apply keeps_endpoint_assign, keeps_GetMacCopy|]. intros _.
  apply keeps_bind.
  { apply keeps_copy_sub_other;
      [apply other_endpointConfiguration|done|
       apply keeps_endpointConfiguration_CopyTo]. }
  intros _. apply keeps_bind; [apply keeps_copy_sub_nil|]. intros _.
  apply keeps_bind; [|intros; apply keeps_ret].
  apply keeps_make_copy; [apply _|]. intros v. by apply keeps_update_endpoint.
Qed.

(** C10.  When the source's [config] is nil, the [config] pointer of the
    destination after [CopyTo] is the one it held before, however the call
    ends; and the same for [containerConfig]. *)
Theorem CopyTo_keeps_stale_sub_configuration h a b ea eb :
  h !! a = Some (Mem.OBridgeEndpoint ea) →
  h !! b = Some (Mem.OBridgeEndpoint eb) →
  (Mem.config ea = None →
     field_after Mem.config a b h = Some (Mem.config eb))
  ∧ (Mem.containerConfig ea = None →
     field_after Mem.containerConfig a b h = Some (Mem.containerConfig eb)).
Proof.
  intros Ha Hb. split; intros Hnil; unfold field_after.
  - destruct (CopyTo_keeps_config a b (Mem.config eb) h) as [_ (e & -> & ->)];
      [|done].
    split; eauto.
  - destruct (CopyTo_keeps_containerConfig a b (Mem.containerConfig eb) h)
      as [_ (e & -> & ->)]; [|done].
    split; eauto.
Qed.

(** * Part 7: more on the codec *)

(** ** What a method leaves true of its receiver *)

Lemma preserves_ret {S A} (P : S → Prop) (x : A) : preserves P (ret x).
Proof. by intros s. Qed.

Lemma preserves_lift {S A} (P : S → Prop) (o : outcome A) : preserves P (lift o).
Proof. by intros s. Qed.

Lemma preserves_modify {S} (P : S → Prop) (f : S → S) :
  (∀ s, P s → P (f s)) → preserves P (modify f).
Proof. intros Hf s. apply Hf. Qed.

Lemma preserves_bind {S A B} (P : S → Prop) (m : M S A) (k : A → M S B) :
  preserves P m → (∀ x, preserves P (k x)) → preserves P (bind m k).
Proof.
  intros Hm Hk s HP. specialize (Hm s HP). unfold bind.
  destruct (m s) as [[x|e|p] s']; cbn in *; [by apply Hk|done..].
Qed.

Lemma preserves_bind_lift {S A B} (P : S → Prop) (o : outcome A) (k : A → M S B) :
  (∀ x, o = Ok x → preserves P (k x)) → preserves P (bind (lift o) k).
Proof. intros Hk s HP. destruct o as [x|e|p]; [by apply Hk|done..]. Qed.

Lemma preserves_range {S A T} (P : S → Prop) (l : list T) (body : A → T → M S A) acc :
  (∀ acc x, preserves P (body acc x)) → preserves P (range l body acc).
Proof.
  intros Hbody. revert acc. induction l as [|x l IH]; intros acc; cbn.
  - apply preserves_ret.
  - apply preserves_bind; [apply Hbody|]. intros acc'. apply IH.
Qed.

Lemma preserves_parse_all {S T} (P : S → Prop) (FromString : string → parsed T)
    wrap strs :
  preserves P (parse_all (S := S) FromString wrap strs).
Proof.
  apply preserves_range. intros acc x.
  destruct (FromString x); [apply preserves_ret|apply preserves_lift].
Qed.

Lemma preserves_decode_optional {T} (P : bridgeEndpoint → Prop) nMap key
    (parse : string → parsed T) assign format :
  (∀ v s, P s → P (assign v s)) →
  preserves P (decode_optional nMap key parse assign format).
Proof.
  intros Ha. unfold decode_optional. destruct (has_key nMap key); [|apply preserves_ret].
  apply preserves_bind; [apply preserves_lift|]. intros raw.
  destruct (parse raw).
  - apply preserves_modify, Ha.
  - apply preserves_bind; [apply preserves_modify, Ha|]. intros _. apply preserves_lift.
Qed.

(** The statements of [UnmarshalJSON] assign eight fields and no other. *)
Lemma preserves_UnmarshalJSON (P : bridgeEndpoint → Prop) b :
  (∀ v s, P s → P (set_id v s)) → (∀ v s, P s → P (set_srcName v s)) →
  (∀ nMap, preserves P
     (decode_optional nMap "addr" ParseCIDR set_addr
        "failed to decode bridge endpoint address IPv4 after json unmarshal: %s")) →
  (∀ nMap, preserves P
     (decode_optional nMap "addrv6" ParseCIDR set_addrv6
        "failed to decode bridge endpoint address IPv6 after json unmarshal: %s")) →
  (∀ nMap, preserves P
     (decode_optional nMap "macAddress" ParseMAC set_macAddress
        "failed to decode bridge endpoint mac address after json unmarshal: %s")) →
  (∀ v s, P s → P (set_config v s)) → (∀ v s, P s → P (set_containerConfig v s)) →
  (∀ v s, P s → P (set_portMapping v s)) →
  preserves P (UnmarshalJSON b).
Proof.
  intros Hid Hsrc Ha Ha6 Hmac Hcfg Hccfg Hpm. unfold UnmarshalJSON.
  apply preserves_bind; [apply preserves_lift|]. intros nMap.
  apply preserves_bind; [apply preserves_lift|]. intros v1.
  apply preserves_bind; [apply preserves_modify, Hid|]. intros _.
  apply preserves_bind; [apply preserves_lift|]. intros v2.
  apply preserves_bind; [apply preserves_modify, Hsrc|]. intros _.
  apply preserves_bind; [apply Ha|]. intros _.
  apply preserves_bind; [apply Ha6|]. intros _.
  apply preserves_bind; [apply Hmac|]. intros _.
  apply preserves_bind; [apply preserves_lift|]. intros cfg.
  apply preserves_bind; [apply preserves_modify, Hcfg|]. intros _.
  apply preserves_bind; [apply preserves_lift|]. intros ccfg.
  apply preserves_bind; [apply preserves_modify, Hccfg|]. intros _.
  apply preserves_bind.
  { destruct (has_key nMap "portMapping"); [|apply preserves_ret].
    apply preserves_bind; [apply preserves_lift|]. intros strs.
    apply preserves_parse_all. }
  intros pms. apply preserves_bind; [apply preserves_modify, Hpm|]. intros _.
  apply preserves_ret.
Qed.

(** X1.  Whatever the bytes and however the call ends, [SetValue] leaves the
    receiver's network, index and existence flag as they were: they are not
    part of the document.  So the key prefix of a record survives its
    decoding. *)
Theorem SetValue_keeps_store_fields b tgt :
  let r := (SetValue b tgt).2 in
  network r = network tgt ∧ dbIndex r = dbIndex tgt ∧ dbExists r = dbExists tgt
  ∧ KeyPrefix r = KeyPrefix tgt ∧ Index r = Index tgt ∧ Exists r = Exists tgt.
Proof.
  set (P := λ s : bridgeEndpoint,
         network s = network tgt ∧ dbIndex s = dbIndex tgt
         ∧ dbExists s = dbExists tgt).
  assert (HP : P (SetValue b tgt).2).
  { apply (preserves_UnmarshalJSON P); try done;
      intros; by apply preserves_decode_optional. }
  destruct HP as (Hn & Hi & He). cbv zeta.
  unfold KeyPrefix, Index, Exists. by rewrite Hn, Hi, He.
Qed.

(** X2.  When the document has no [addr] (or [addrv6], or [macAddress]),
    [UnmarshalJSON] leaves that field of the receiver as it was, however
    the call ends: a record decoded into keeps its old address. *)
Theorem absent_optional_key_keeps_the_field m tgt k :
  m !! key_name k = None →
  same_field k (UnmarshalJSON (Text (JObject m)) tgt).2 tgt.
Proof.
  intros Hk.
  assert (Habs : ∀ {T} (parse : string → parsed T) assign format,
             preserves (λ s, same_field k s tgt)
               (decode_optional (IJson <$> m) (key_name k) parse assign format)).
  { intros T parse assign format s Hs.
    by rewrite decode_optional_absent. }
  set (P := λ s, same_field k s tgt).
  enough (Hpres : preserves P (UnmarshalJSON (Text (JObject m))))
    by (apply Hpres; by destruct k).
  unfold UnmarshalJSON. apply preserves_bind_lift. intros nMap [= <-].
  apply preserves_bind; [apply preserves_lift|]. intros v1.
  apply preserves_bind; [apply preserves_modify; by destruct k|]. intros _.
  apply preserves_bind; [apply preserves_lift|]. intros v2.
  apply preserves_bind; [apply preserves_modify; by destruct k|]. intros _.
  apply preserves_bind.
  { destruct k; [apply (Habs _ ParseCIDR)|apply preserves_decode_optional; by intros..]. }
  intros _. apply preserves_bind.
  { destruct k; [|apply (Habs _ ParseCIDR)|]; apply preserves_decode_optional; by intros. }
  intros _. apply preserves_bind.
  { destruct k; [| |apply (Habs _ ParseMAC)]; apply preserves_decode_optional; by intros. }
  intros _.
  apply preserves_bind; [apply preserves_lift|]. intros cfg.
  apply preserves_bind; [apply preserves_modify; by destruct k|]. intros _.
  apply preserves_bind; [apply preserves_lift|]. intros ccfg.
  apply preserves_bind; [apply preserves_modify; by destruct k|]. intros _.
  apply preserves_bind.
  { destruct (has_key _ "portMapping"); [|apply preserves_ret].
    apply preserves_bind; [apply preserves_lift|]. intros strs.
    apply preserves_parse_all. }
  intros pms. apply preserves_bind; [apply preserves_modify; by destruct k|]. intros _.
  apply preserves_ret.
Qed.

(** ** Documents that are no object *)

Lemma bind_run_Ok {S A B} (m : M S A) (k : A → M S B) s b r :
  bind m k s = (Ok b, r) → ∃ a s', m s = (Ok a, s') ∧ k a s' = (Ok b, r).
Proof.
  unfold bind. destruct (m s) as [[a|e|p] s']; simpl; try done. eauto.
Qed.

Lemma lift_run_Ok {S A} (o : outcome A) (s s' : S) a :
  lift o s = (Ok a, s') → o = Ok a ∧ s' = s.
Proof. unfold lift. by intros [= -> ->]. Qed.

Lemma modify_run {S} (f : S → S) s u s' :
  modify f s = (Ok u, s') → s' = f s.
Proof. by intros [= <-]. Qed.

(** [json.Unmarshal] into a map fails on every document but an object and
    [null]. *)
Lemma json_Unmarshal_map_Ok b nMap :
  json_Unmarshal_map b = Ok nMap →
  (b = Text JNull ∧ nMap = ∅) ∨ ∃ m, b = Text (JObject m) ∧ nMap = IJson <$> m.
Proof.
  destruct b as [[]|]; cbn; intros [=]; subst; eauto.
Qed.

(** A value that [json.Unmarshal] stored is never a [[]string]. *)
Lemma assert_strings_decoded b nMap key :
  json_Unmarshal_map b = Ok nMap →
  ∃ dyn, assert_strings (index nMap key) = Panic (InterfaceConversion dyn "[]string").
Proof.
  intros [[-> ->] | (m & -> & ->)]%json_Unmarshal_map_Ok.
  - unfold index. rewrite lookup_empty. cbn. eauto.
  - apply assert_strings_json.
Qed.

(** X3.  Bytes that are no JSON object leave the receiver untouched: text
    that does not parse gives a syntax error, a document of another kind
    the type error of [encoding/json], and [null], which decodes to the nil
    map, the panic of line 86. *)
Theorem UnmarshalJSON_not_an_object b tgt :
  (∀ m, b ≠ Text (JObject m)) →
  (UnmarshalJSON b tgt).2 = tgt
  ∧ match b with
    | Garbage => (UnmarshalJSON b tgt).1 = Err SyntaxError
    | Text JNull =>
        (UnmarshalJSON b tgt).1 = Panic (InterfaceConversion "nil" "string")
    | Text j =>
        (UnmarshalJSON b tgt).1
        = Err (UnmarshalTypeError (json_kind j) "map[string]interface {}")
    end.
Proof.
  intros Hb. destruct b as [[]|]; try done. by destruct (Hb m).
Qed.

(** ** The container configuration is never decoded *)

Lemma containerConfiguration_UnmarshalJSON_fails b cf :
  (containerConfiguration_UnmarshalJSON b cf).2 = cf
  ∧ (containerConfiguration_UnmarshalJSON b cf).1 ≠ Ok tt.
Proof.
  unfold containerConfiguration_UnmarshalJSON.
  destruct (json_Unmarshal_map b) as [nMap|e|p] eqn:Hb;
    [rewrite bind_lift_Ok|by rewrite bind_lift_Err|by rewrite bind_lift_Panic].
  destruct (assert_strings_decoded b nMap "ParentEndpoints" Hb) as [dyn ->].
  by rewrite bind_lift_Panic.
Qed.

(** X4.  [containerConfiguration.UnmarshalJSON] returns normally on no
    input at all, and never touches its receiver: what is not an object is
    an error, and on an object (or [null]) the type assertion of line 212
    panics, the value under [ParentEndpoints] being an array or nil.  On
    the method's own encoding the panic names [[]interface {}] for a list
    and [nil] for a nil list. *)
Theorem containerConfiguration_UnmarshalJSON_never_returns b cf :
  (containerConfiguration_UnmarshalJSON b cf).2 = cf
  ∧ (containerConfiguration_UnmarshalJSON b cf).1 ≠ Ok tt
  ∧ ∀ cf0,
      (containerConfiguration_UnmarshalJSON
         (Text (containerConfiguration_MarshalJSON cf0)) cf).1
      = Panic (InterfaceConversion
                 (match ParentEndpoints cf0 with
                  | Some _ => "[]interface {}"
                  | None => "nil"
                  end)
                 "[]string").
Proof.
  split; [apply containerConfiguration_UnmarshalJSON_fails|].
  split; [apply containerConfiguration_UnmarshalJSON_fails|].
  intros cf0.
  unfold containerConfiguration_UnmarshalJSON, containerConfiguration_MarshalJSON,
    json_Marshal_map.
  cbn [json_Unmarshal_map]. rewrite bind_lift_Ok, index_json.
  rewrite lookup_fmap, lookup_insert_ne, lookup_insert_eq by done.
  by destruct (ParentEndpoints cf0).
Qed.

(** ** What a decoded record never has *)

Lemma decode_sub_containerConfiguration_Ok nMap b format ccfg :
  json_Unmarshal_map b = Ok nMap →
  decode_sub nMap "containerConfiguration" containerConfiguration_zero
    containerConfiguration_UnmarshalJSON format = Ok ccfg →
  ccfg = None.
Proof.
  intros _. unfold decode_sub, json_Unmarshal_ptr, or_return.
  destruct (json_Marshal _) as [| | | | |cm]; try by intros [= <-].
  all: lazymatch goal with
       | |- context [containerConfiguration_UnmarshalJSON ?b ?z] =>
           pose proof (containerConfiguration_UnmarshalJSON_fails b z)
             as (_ & Hno);
           destruct (containerConfiguration_UnmarshalJSON b z) as [[[]|?|?] ?]
       end; done.
Qed.

Lemma endpointConfiguration_UnmarshalJSON_Ok b z c :
  endpointConfiguration_UnmarshalJSON b z = (Ok tt, c) →
  PortBindings c = None ∧ ExposedPorts c = None.
Proof.
  unfold endpointConfiguration_UnmarshalJSON. intros Hrun.
  apply bind_run_Ok in Hrun as (cMap & s1 & [Hb ->]%lift_run_Ok & Hrun).
  apply bind_run_Ok in Hrun as (_ & s2 & _ & Hrun).
  apply bind_run_Ok in Hrun as (pms & s3 & Hpms & Hrun).
  apply bind_run_Ok in Hrun as (_ & s4 & ->%modify_run & Hrun).
  apply bind_run_Ok in Hrun as (eps & s5 & Heps & Hrun).
  apply bind_run_Ok in Hrun as (_ & s6 & ->%modify_run & [= <-]).
  assert (pms = None ∧ s3 = s2) as [-> ->].
  { destruct (has_key cMap "PortBindings"); [|by injection Hpms].
    destruct (assert_strings_decoded b cMap "PortBindings" Hb) as [dyn Hp].
    by rewrite Hp in Hpms. }
  assert (eps = None ∧ s5 = set_PortBindings None s2) as [-> ->].
  { destruct (has_key cMap "ExposedPorts"); [|by injection Heps].
    destruct (assert_strings_decoded b cMap "ExposedPorts" Hb) as [dyn Hp].
    by rewrite Hp in Heps. }
  done.
Qed.

Lemma decode_sub_endpointConfiguration_Ok nMap format cfg c :
  decode_sub nMap "config" endpointConfiguration_zero
    endpointConfiguration_UnmarshalJSON format = Ok cfg →
  cfg = Some c → PortBindings c = None ∧ ExposedPorts c = None.
Proof.
  unfold decode_sub, json_Unmarshal_ptr, or_return. intros Hd ->.
  destruct (json_Marshal _) as [| | | | |cm]; try done.
  all: lazymatch type of Hd with
       | context [endpointConfiguration_UnmarshalJSON ?b ?z] =>
           destruct (endpointConfiguration_UnmarshalJSON b z) as [[[]|?|?] c'] eqn:Hc
       end; try done;
       injection Hd as <-; by eapply endpointConfiguration_UnmarshalJSON_Ok.
Qed.

(** X5.  A record that [UnmarshalJSON] returned normally on has no
    container configuration and no port mapping, and its configuration, if
    any, has no port bindings and no exposed ports; the bytes were an object
    without [portMapping], with strings under [id] and [srcName]. *)
Theorem decoded_endpoint_has_no_lists b tgt r :
  UnmarshalJSON b tgt = (Ok tt, r) →
  containerConfig r = None ∧ portMapping r = None
  ∧ (∀ c, config r = Some c → PortBindings c = None ∧ ExposedPorts c = None)
  ∧ ∃ m, b = Text (JObject m) ∧ m !! "portMapping" = None
         ∧ is_string_at m "id" ∧ is_string_at m "srcName".
Proof.
  unfold UnmarshalJSON. intros Hrun.
  apply bind_run_Ok in Hrun as (nMap & s0 & [Hb ->]%lift_run_Ok & Hrun).
  apply bind_run_Ok in Hrun as (v1 & s1 & [Hv1 ->]%lift_run_Ok & Hrun).
  apply bind_run_Ok in Hrun as (_ & s2 & ->%modify_run & Hrun).
  apply bind_run_Ok in Hrun as (v2 & s3 & [Hv2 ->]%lift_run_Ok & Hrun).
  apply bind_run_Ok in Hrun as (_ & s4 & ->%modify_run & Hrun).
  apply bind_run_Ok in Hrun as (_ & s5 & _ & Hrun).
  apply bind_run_Ok in Hrun as (_ & s6 & _ & Hrun).
  apply bind_run_Ok in Hrun as (_ & s7 & _ & Hrun).
  apply bind_run_Ok in Hrun as (cfg & s8 & [Hcfg ->]%lift_run_Ok & Hrun).
  apply bind_run_Ok in Hrun as (_ & s9 & ->%modify_run & Hrun).
  apply bind_run_Ok in Hrun as (ccfg & s10 & [Hccfg ->]%lift_run_Ok & Hrun).
  apply bind_run_Ok in Hrun as (_ & s11 & ->%modify_run & Hrun).
  apply bind_run_Ok in Hrun as (pms & s12 & Hpms & Hrun).
  apply bind_run_Ok in Hrun as (_ & s13 & ->%modify_run & [= <-]).
  apply (decode_sub_containerConfiguration_Ok _ b) in Hccfg as ->; [|done].
  assert (has_key nMap "portMapping" = false) as Hno.
  { destruct (has_key nMap "portMapping"); [|done].
    destruct (assert_strings_decoded b nMap "portMapping" Hb) as [dyn Hp].
    by rewrite Hp in Hpms. }
  rewrite Hno in Hpms. injection Hpms as <- <-.
  split; [done|]. split; [done|]. split.
  { intros c Hc. by eapply decode_sub_endpointConfiguration_Ok. }
  apply json_Unmarshal_map_Ok in Hb as [[-> ->] | (m & -> & ->)].
  { unfold index in Hv1. by rewrite lookup_empty in Hv1. }
  exists m. split; [done|]. rewrite has_key_json in Hno.
  apply bool_decide_eq_false in Hno. rewrite index_json in Hv1, Hv2.
  split; [by apply eq_None_not_Some|]. unfold is_string_at. split.
  - destruct (m !! "id") as [[]|]; try done. eauto.
  - destruct (m !! "srcName") as [[]|]; try done. eauto.
Qed.

(** ** The codec of the endpoint configuration *)

(** The loop of [MarshalJSON] over a list: nil for no element, else the
    strings in order. *)
Lemma strings_of_elems {T} (f : T → string) (xs : slice T) :
  strings_of f xs = if decide (len xs ≠ 0) then Some (f <$> elems xs) else None.
Proof.
  unfold strings_of, len.
  assert (Hgen : ∀ (l : list T) out, l ≠ [] →
            foldl (λ out x, append out (f x)) out l = Some (elems out ++ (f <$> l))).
  { induction l as [|x l IH]; intros out Hl; [done|]. cbn [foldl].
    destruct (decide (l = [])) as [->|Hne]; [done|].
    rewrite IH by done. change (elems (append out (f x))) with (elems out ++ [f x]).
    by rewrite <- app_assoc. }
  destruct (elems xs) as [|x l] eqn:E; cbn [length].
  - by rewrite decide_False by (intros ?; done).
  - rewrite decide_True by done. by rewrite Hgen.
Qed.

(** What [MarshalJSON] of an endpoint configuration puts under each key. *)
Lemma endpointConfiguration_document ec :
  ∃ doc, endpointConfiguration_MarshalJSON ec = JObject doc
    ∧ doc !! "MacAddress"
      = (if decide (len (MacAddress ec) ≠ 0)
         then Some (JString (HardwareAddr_String (elems (MacAddress ec))))
         else None)
    ∧ doc !! "PortBindings"
      = (if decide (len (PortBindings ec) ≠ 0)
         then Some (JArray (JString <$> (PortBinding_String <$> elems (PortBindings ec))))
         else None)
    ∧ doc !! "ExposedPorts"
      = (if decide (len (ExposedPorts ec) ≠ 0)
         then Some (JArray (JString <$> (TransportPort_String <$> elems (ExposedPorts ec))))
         else None)
    ∧ ∀ key, key ≠ "MacAddress" → key ≠ "PortBindings" → key ≠ "ExposedPorts" →
             doc !! key = None.
Proof.
  unfold endpointConfiguration_MarshalJSON, json_Marshal_map. cbv zeta.
  eexists. split; [done|]. rewrite !strings_of_elems.
  destruct (decide (len (MacAddress ec) ≠ 0)), (decide (len (PortBindings ec) ≠ 0)),
    (decide (len (ExposedPorts ec) ≠ 0));
    repeat split; try (intros key ? ? ?); by simplify_map_eq.
Qed.

(** ** Formats with two verbs *)

Lemma Sprintf_prefix (prefix rest : string) args :
  no_verb prefix = true →
  Sprintf (prefix +:+ rest) args = prefix +:+ Sprintf rest args.
Proof.
  induction prefix as [|c p IH]; intros Hp; [done|].
  cbn in Hp. apply andb_prop in Hp as [Hc%negb_true_iff Hp]. specialize (IH Hp).
  change (String c p +:+ rest) with (String c (p +:+ rest)).
  change (String c p +:+ Sprintf rest args) with (String c (p +:+ Sprintf rest args)).
  rewrite <- IH. destruct (p +:+ rest) as [|v r] eqn:E; [done|].
  by rewrite Sprintf_step, Hc.
Qed.

Lemma Sprintf_verb (v : ascii) (rest a : string) args :
  v = "s"%char ∨ v = "v"%char →
  Sprintf (String "%" (String v rest)) (a :: args) = a +:+ Sprintf rest args.
Proof. intros [-> | ->]; by rewrite Sprintf_step. Qed.

Lemma Sprintf_s_v (prefix a b : string) :
  no_verb prefix = true →
  Sprintf (prefix +:+ "%s: %v") [a; b] = prefix +:+ a +:+ ": " +:+ b.
Proof.
  intros Hp. rewrite Sprintf_prefix by done.
  change "%s: %v" with (String "%" (String "s" (": " +:+ "%v"))).
  rewrite Sprintf_verb by auto. rewrite Sprintf_prefix by done.
  change "%v" with (String "%" (String "v" EmptyString)).
  rewrite Sprintf_verb by auto. change (Sprintf EmptyString []) with EmptyString.
  by rewrite append_empty.
Qed.

(** ** Decoding an endpoint configuration *)

Lemma MacAddress_stage_run m z :
  MacAddress_stage (IJson <$> m) z
  = match m !! "MacAddress" with
    | None => (Ok tt, z)
    | Some (JString raw) =>
        match ParseMAC raw with
        | Parsed mac => (Ok tt, set_MacAddress (Some mac) z)
        | Unparsed err =>
            (Err (InternalError
                    (MacAddress_message +:+ raw +:+ ": " +:+ fmt_error err)),
             set_MacAddress None z)
        end
    | Some j => (Panic (InterfaceConversion (dynamic_type (IJson j)) "string"), z)
    end.
Proof.
  unfold MacAddress_stage. rewrite has_key_json, index_json.
  destruct (m !! "MacAddress") as [j|] eqn:Hmac.
  - rewrite bool_decide_eq_true_2 by eauto. cbn [default from_option Datatypes.id].
    destruct j as [| | |raw| |]; try done. cbn [assert_string].
    rewrite bind_lift_Ok. destruct (ParseMAC raw) as [mac|err]; [done|].
    rewrite bind_modify. unfold fail. cbn [lift]. unfold InternalErrorf.
    by rewrite (Sprintf_s_v MacAddress_message raw (fmt_error err) eq_refl).
  - by rewrite bool_decide_eq_false_2 by by intros [? ?].
Qed.

(** A document without lists: only [MacAddress] is looked at. *)
Lemma endpointConfiguration_UnmarshalJSON_no_lists m z :
  m !! "PortBindings" = None → m !! "ExposedPorts" = None →
  endpointConfiguration_UnmarshalJSON (Text (JObject m)) z
  = match m !! "MacAddress" with
    | None => (Ok tt, set_ExposedPorts None (set_PortBindings None z))
    | Some (JString raw) =>
        match ParseMAC raw with
        | Parsed mac =>
            (Ok tt, set_ExposedPorts None
                      (set_PortBindings None (set_MacAddress (Some mac) z)))
        | Unparsed err =>
            (Err (InternalError
                    (MacAddress_message +:+ raw +:+ ": " +:+ fmt_error err)),
             set_MacAddress None z)
        end
    | Some j => (Panic (InterfaceConversion (dynamic_type (IJson j)) "string"), z)
    end.
Proof.
  intros Hpb Hep. unfold endpointConfiguration_UnmarshalJSON.
  cbn [json_Unmarshal_map]. rewrite bind_lift_Ok.
  pose proof (MacAddress_stage_run m z) as Hrun. unfold MacAddress_stage in Hrun.
  destruct (m !! "MacAddress") as [[| | |raw| |]|];
    try (by rewrite (bind_Panic _ _ _ _ _ Hrun)).
  - destruct (ParseMAC raw) as [mac|err];
      [rewrite (bind_Ok _ _ _ _ _ Hrun)|by rewrite (bind_Err _ _ _ _ _ Hrun)].
    rewrite !has_key_json, Hpb, Hep.
    by rewrite (bool_decide_eq_false_2 (is_Some None)) by by intros [? ?].
  - rewrite (bind_Ok _ _ _ _ _ Hrun).
    rewrite !has_key_json, Hpb, Hep.
    by rewrite (bool_decide_eq_false_2 (is_Some None)) by by intros [? ?].
Qed.

(** A document with a list: the type assertion of line 262 or 273 fails,
    unless the method has returned before. *)
Lemma endpointConfiguration_UnmarshalJSON_lists m z :
  is_Some (m !! "PortBindings") ∨ is_Some (m !! "ExposedPorts") →
  (endpointConfiguration_UnmarshalJSON (Text (JObject m)) z).1 ≠ Ok tt
  ∧ ((m !! "MacAddress" = None
      ∨ ∃ raw mac, m !! "MacAddress" = Some (JString raw) ∧ ParseMAC raw = Parsed mac) →
     ∃ dyn, (endpointConfiguration_UnmarshalJSON (Text (JObject m)) z).1
            = Panic (InterfaceConversion dyn "[]string")).
Proof.
  intros Hlist.
  assert (Hlate : ∀ s,
    ∃ dyn, (bind (if has_key (IJson <$> m) "PortBindings" then
            strs <- lift (assert_strings (index (IJson <$> m) "PortBindings"));;
            parse_all PortBinding_FromString
              (λ str err, InternalErrorf
                 "failed to decode bridge endpoint configuration port binding after json unmarshal %s: %v"
                 [str; fmt_error err])
              strs
          else ret None) (λ pms,
      modify (set_PortBindings pms);;
      eps <- (if has_key (IJson <$> m) "ExposedPorts" then
            strs <- lift (assert_strings (index (IJson <$> m) "ExposedPorts"));;
            parse_all TransportPort_FromString
              (λ str err, InternalErrorf
                 "failed to decode bridge endpoint configuration exposed port after json unmarshal %s: %v"
                 [str; fmt_error err])
              strs
          else ret None);;
      modify (set_ExposedPorts eps);;
      ret tt) s).1 = Panic (InterfaceConversion dyn "[]string")).
  { intros s. rewrite !has_key_json.
    destruct (assert_strings_json m "PortBindings") as [d1 E1].
    destruct (assert_strings_json m "ExposedPorts") as [d2 E2].
    rewrite E1, E2.
    destruct (bool_decide (is_Some (m !! "PortBindings"))) eqn:B1.
    - exists d1. done.
    - apply bool_decide_eq_false in B1. destruct Hlist as [?|Hl]; [done|].
      rewrite (bool_decide_eq_true_2 _ Hl). exists d2. done. }
  unfold endpointConfiguration_UnmarshalJSON. cbn [json_Unmarshal_map].
  rewrite bind_lift_Ok. split.
  - intros Hok. apply bind_Ok_inv in Hok as (_ & s' & _ & Hok).
    destruct (Hlate s') as [dyn Hp]. by rewrite Hp in Hok.
  - intros Hmac. pose proof (MacAddress_stage_run m z) as Hrun.
    unfold MacAddress_stage in Hrun.
    destruct Hmac as [E | (raw & mac & E & Hparse)]; rewrite E in Hrun.
    + rewrite (bind_Ok _ _ _ _ _ Hrun). apply Hlate.
    + rewrite Hparse in Hrun. rewrite (bind_Ok _ _ _ _ _ Hrun). apply Hlate.
Qed.

Lemma endpointConfiguration_round_trip_run ec z :
  len (PortBindings ec) = 0 → len (ExposedPorts ec) = 0 →
  prints_back (MacAddress ec) →
  endpointConfiguration_UnmarshalJSON
    (Text (endpointConfiguration_MarshalJSON ec)) z
  = (Ok tt,
     {| MacAddress := if decide (len (MacAddress ec) ≠ 0)
                      then Some (elems (MacAddress ec)) else MacAddress z;
        PortBindings := None; ExposedPorts := None |}).
Proof.
  intros Hpb Hep Hmac.
  destruct (endpointConfiguration_document ec) as (doc & -> & Lmac & Lpb & Lep & _).
  rewrite decide_False in Lpb by by intros ?.
  rewrite decide_False in Lep by by intros ?.
  rewrite (endpointConfiguration_UnmarshalJSON_no_lists _ _ Lpb Lep), Lmac.
  destruct (decide (len (MacAddress ec) ≠ 0)) as [Hne|]; [|done].
  by rewrite (Hmac Hne).
Qed.

(** X6.  An endpoint configuration without port bindings and exposed ports
    is decoded from its own encoding: the hardware address comes back if the
    parser reads what the printer wrote (an empty one leaves the receiver's),
    and both lists are nil. *)
Theorem endpointConfiguration_round_trip ec z :
  len (PortBindings ec) = 0 → len (ExposedPorts ec) = 0 →
  prints_back (MacAddress ec) →
  endpointConfiguration_UnmarshalJSON
    (Text (endpointConfiguration_MarshalJSON ec)) z
  = (Ok tt,
     {| MacAddress := if decide (len (MacAddress ec) ≠ 0)
                      then Some (elems (MacAddress ec)) else MacAddress z;
        PortBindings := None; ExposedPorts := None |}).
Proof. apply endpointConfiguration_round_trip_run. Qed.

(** X7.  An endpoint configuration with a port binding or an exposed port is
    not decoded from its own encoding; when its hardware address is empty
    or parses back, the call panics on the type assertion of line 262 or
    273. *)
Theorem endpointConfiguration_lists_do_not_decode ec z :
  len (PortBindings ec) ≠ 0 ∨ len (ExposedPorts ec) ≠ 0 →
  (endpointConfiguration_UnmarshalJSON
     (Text (endpointConfiguration_MarshalJSON ec)) z).1 ≠ Ok tt
  ∧ (prints_back (MacAddress ec) →
     (endpointConfiguration_UnmarshalJSON
        (Text (endpointConfiguration_MarshalJSON ec)) z).1
     = Panic (InterfaceConversion "[]interface {}" "[]string")).
Proof.
  intros Hlist.
  destruct (endpointConfiguration_document ec) as (doc & -> & Lmac & Lpb & Lep & _).
  assert (Hdoc : is_Some (doc !! "PortBindings") ∨ is_Some (doc !! "ExposedPorts")).
  { destruct Hlist as [Hl|Hl]; [left; rewrite Lpb|right; rewrite Lep];
      by rewrite decide_True. }
  destruct (endpointConfiguration_UnmarshalJSON_lists doc z Hdoc) as [Hno Hpanic].
  split; [done|]. intros Hmac.
  destruct Hpanic as [dyn Hp].
  { rewrite Lmac. destruct (decide (len (MacAddress ec) ≠ 0)); [|by left].
    right. eexists _, _. split; [done|]. by apply Hmac. }
  rewrite Hp. do 2 f_equal.
  revert Hp. unfold endpointConfiguration_UnmarshalJSON. cbn [json_Unmarshal_map].
  rewrite bind_lift_Ok.
  pose proof (MacAddress_stage_run doc z) as Hrun. unfold MacAddress_stage in Hrun.
  rewrite Lmac in Hrun.
  destruct (decide (len (MacAddress ec) ≠ 0)) as [Hne|];
    [rewrite (Hmac Hne) in Hrun|]; rewrite (bind_Ok _ _ _ _ _ Hrun);
    rewrite !has_key_json, !index_json, Lpb, Lep;
    (destruct (decide (len (PortBindings ec) ≠ 0));
     [rewrite bool_decide_eq_true_2 by eauto; cbn; congruence|];
     rewrite bool_decide_eq_false_2 by (by intros [? ?]);
     rewrite bind_ret, bind_modify;
     destruct (decide (len (ExposedPorts ec) ≠ 0)); [|by destruct Hlist];
     rewrite bool_decide_eq_true_2 by eauto; cbn; congruence).
Qed.


(** X9.  The document of an endpoint configuration has [MacAddress],
    [PortBindings] and [ExposedPorts] exactly when the field is not empty,
    with the printed address and the printed elements in order, and no
    other key; a configuration with nothing in it is encoded as the empty
    object. *)
Theorem endpointConfiguration_MarshalJSON_keys ec :
  ∃ doc, endpointConfiguration_MarshalJSON ec = JObject doc
    ∧ doc !! "MacAddress"
      = (if decide (len (MacAddress ec) ≠ 0)
         then Some (JString (HardwareAddr_String (elems (MacAddress ec))))
         else None)
    ∧ doc !! "PortBindings"
      = (if decide (len (PortBindings ec) ≠ 0)
         then Some (JArray (JString <$> (PortBinding_String <$> elems (PortBindings ec))))
         else None)
    ∧ doc !! "ExposedPorts"
      = (if decide (len (ExposedPorts ec) ≠ 0)
         then Some (JArray (JString <$> (TransportPort_String <$> elems (ExposedPorts ec))))
         else None)
    ∧ (∀ key, key ≠ "MacAddress" → key ≠ "PortBindings" → key ≠ "ExposedPorts" →
              doc !! key = None)
    ∧ (len (MacAddress ec) = 0 → len (PortBindings ec) = 0 →
       len (ExposedPorts ec) = 0 → doc = ∅).
Proof.
  destruct (endpointConfiguration_document ec) as (doc & E & Lmac & Lpb & Lep & Lno).
  exists doc. repeat split; try done.
  intros H1 H2 H3. apply map_eq. intros key. rewrite lookup_empty.
  rewrite decide_False in Lmac by by intros ?.
  rewrite decide_False in Lpb by by intros ?.
  rewrite decide_False in Lep by by intros ?.
  destruct (decide (key = "MacAddress")) as [->|]; [done|].
  destruct (decide (key = "PortBindings")) as [->|]; [done|].
  destruct (decide (key = "ExposedPorts")) as [->|]; [done|].
  by apply Lno.
Qed.

(** ** The document of an endpoint *)



(** ** The endpoints that come back *)




(** ** A record decoded half way *)



(** * Part 8: the restore of a listing *)

(** ** Restoring a listing *)

Lemma collect_endpoints (eps : list bridgeEndpoint) (epl : slice bridgeEndpoint)
    (n : bridgeNetwork) :
  range (KVBridgeEndpoint <$> eps)
    (λ epl kvo, ep <- lift (assert_bridgeEndpoint kvo);; ret (append epl ep)) epl n
  = (Ok (if eps is [] then epl else Some (elems epl ++ eps)), n).
Proof.
  revert epl. induction eps as [|ep eps IH]; intros epl; [done|].
  cbn [fmap list_fmap range]. unfold bind at 1. unfold bind at 1.
  cbn [assert_bridgeEndpoint]. unfold lift at 1, ret at 1. cbv beta iota.
  rewrite IH. change (elems (append epl ep)) with (elems epl ++ [ep]).
  destruct eps; [done|]. by rewrite <- app_assoc.
Qed.

Lemma collect_foreign (eps : list bridgeEndpoint) ty rest
    (epl : slice bridgeEndpoint) (n : bridgeNetwork) :
  range ((KVBridgeEndpoint <$> eps) ++ KVOther ty :: rest)
    (λ epl kvo, ep <- lift (assert_bridgeEndpoint kvo);; ret (append epl ep)) epl n
  = (Panic (InterfaceConversion ty "*bridge.bridgeEndpoint"), n).
Proof.
  revert epl. induction eps as [|ep eps IH]; intros epl; [done|].
  cbn [fmap list_fmap range app]. unfold bind at 1. unfold bind at 1.
  cbn [assert_bridgeEndpoint]. unfold lift at 1, ret at 1. cbv beta iota.
  apply IH.
Qed.

Lemma getEndpointsFromStore_listing n eps err :
  listing n = (KVBridgeEndpoint <$> eps, err) → no_listing_error err →
  getEndpointsFromStore n = (Ok (if eps is [] then None else Some eps), n).
Proof.
  intros Hl Herr. unfold getEndpointsFromStore. unfold listing in Hl.
  unfold bind at 1, get at 1. cbv beta iota. rewrite Hl.
  assert ((match err with
           | Some e => if decide (e ≠ ErrKeyNotFound) then fail e else ret tt
           | None => ret tt
           end) n = (Ok tt, n)) as Hgate.
  { destruct Herr as [-> | ->]; [done|]. by rewrite decide_False by by intros ?. }
  rewrite (bind_Ok _ _ _ _ _ Hgate). by rewrite collect_endpoints.
Qed.

Lemma insert_endpoints eps n :
  range eps
    (λ _ ep,
       n <- get;;
       let ep := set_network (network_id n) ep in
       modify (set_endpoints (<[id ep := ep]> (endpoints n))))
    tt n
  = (Ok tt, set_endpoints (restored (network_id n) eps (endpoints n)) n).
Proof.
  revert n. induction eps as [|ep eps IH]; intros n; [by destruct n|].
  cbn [range]. unfold bind at 1. unfold bind at 1, get at 1. cbv beta iota zeta.
  unfold modify at 1. by rewrite IH.
Qed.

Lemma populateEndpoints_run n eps err :
  listing n = (KVBridgeEndpoint <$> eps, err) → no_listing_error err →
  populateEndpoints n
  = (Ok tt, set_endpoints (restored (network_id n) eps (endpoints n)) n).
Proof.
  intros Hl Herr. unfold populateEndpoints.
  rewrite (bind_Ok _ _ _ _ _ (getEndpointsFromStore_listing n eps err Hl Herr)).
  pose proof (insert_endpoints eps n) as Hins.
  destruct eps; (etrans; [exact (bind_Ok _ _ _ _ _ Hins)|done]).
Qed.

(** *** The table after the loop *)

Lemma restored_snoc nid eps ep table :
  restored nid (eps ++ [ep]) table
  = <[id ep := set_network nid ep]> (restored nid eps table).
Proof. unfold restored. by rewrite foldl_app. Qed.

Lemma restored_other nid eps table k :
  k ∉ id <$> eps → restored nid eps table !! k = table !! k.
Proof.
  induction eps as [|ep eps IH] using rev_ind; intros Hk; [done|].
  rewrite fmap_app, not_elem_of_app in Hk. destruct Hk as [Hk Hne].
  rewrite restored_snoc, lookup_insert_ne; [by apply IH|].
  cbn in Hne. set_solver.
Qed.

Lemma restored_listed nid eps table ep :
  ep ∈ eps →
  ∃ ep', restored nid eps table !! id ep = Some (set_network nid ep')
         ∧ ep' ∈ eps ∧ id ep' = id ep.
Proof.
  induction eps as [|x eps IH] using rev_ind; intros Hep; [by apply elem_of_nil in Hep|].
  rewrite restored_snoc. destruct (decide (id x = id ep)) as [E|Hne].
  - exists x. rewrite E, lookup_insert_eq. split; [done|]. split; [|done].
    apply elem_of_app. right. by apply list_elem_of_singleton.
  - rewrite lookup_insert_ne by done.
    apply elem_of_app in Hep as [Hep|Hep%list_elem_of_singleton]; [|congruence].
    destruct (IH Hep) as (ep' & ? & ? & ?). exists ep'.
    split; [done|]. split; [|done]. apply elem_of_app. by left.
Qed.

Lemma restored_NoDup nid eps table ep :
  NoDup (id <$> eps) → ep ∈ eps →
  restored nid eps table !! id ep = Some (set_network nid ep).
Proof.
  induction eps as [|x eps IH] using rev_ind; intros Hnd Hep;
    [by apply elem_of_nil in Hep|].
  rewrite restored_snoc. rewrite fmap_app in Hnd.
  apply NoDup_app in Hnd as (Hnd & Hdisj & _).
  apply elem_of_app in Hep as [Hep|Hep%list_elem_of_singleton].
  - rewrite lookup_insert_ne; [by apply IH|].
    intros E. apply (Hdisj (id ep)); [by apply list_elem_of_fmap_2|].
    rewrite <- E. cbn. set_solver.
  - subst x. by rewrite lookup_insert_eq.
Qed.

(** The loop as one union: the entries of the listing, the later ones
    first, over the table. *)
Lemma restored_union nid eps table :
  restored nid eps table
  = list_to_map (reverse ((λ ep, (id ep, set_network nid ep)) <$> eps)) ∪ table.
Proof.
  induction eps as [|x eps IH] using rev_ind.
  - cbn. by rewrite (left_id_L ∅ (∪)).
  - rewrite restored_snoc, IH, fmap_app, reverse_app. cbn.
    by rewrite insert_union_l.
Qed.

Lemma restored_twice nid eps table :
  restored nid eps (restored nid eps table) = restored nid eps table.
Proof.
  rewrite !restored_union, (assoc_L (∪)). by rewrite (idemp_L (∪)).
Qed.

(** X13.  When [List] returns endpoints and no error (or the one that
    stands for no key), [populateEndpoints] returns normally, keeps the
    network's id and store, and leaves in the table, under the id of each
    listed endpoint, a listed endpoint of that id with the network set (the
    endpoint itself when the ids are distinct); the entries under other ids
    are as they were. *)
Theorem populateEndpoints_restores n eps err :
  listing n = (KVBridgeEndpoint <$> eps, err) → no_listing_error err →
  ∃ n', populateEndpoints n = (Ok tt, n')
    ∧ network_id n' = network_id n ∧ store n' = store n
    ∧ (∀ ep, ep ∈ eps →
         ∃ ep', endpoints n' !! id ep = Some (set_network (network_id n) ep')
                ∧ ep' ∈ eps ∧ id ep' = id ep)
    ∧ (NoDup (id <$> eps) →
       ∀ ep, ep ∈ eps →
         endpoints n' !! id ep = Some (set_network (network_id n) ep))
    ∧ (∀ k, k ∉ id <$> eps → endpoints n' !! k = endpoints n !! k).
Proof.
  intros Hl Herr. eexists. split; [by eapply populateEndpoints_run|].
  cbn [network_id store endpoints set_endpoints]. repeat split.
  - intros ep. apply restored_listed.
  - intros Hnd ep. by apply restored_NoDup.
  - intros k. apply restored_other.
Qed.

(** X14.  When [List] returns an object that is no [*bridgeEndpoint],
    [populateEndpoints] panics on the type assertion of line 43 and the
    table is as before: the endpoints listed before the object are not
    inserted. *)
Theorem populateEndpoints_foreign_object n eps ty rest err :
  listing n = ((KVBridgeEndpoint <$> eps) ++ KVOther ty :: rest, err) →
  no_listing_error err →
  populateEndpoints n
  = (Panic (InterfaceConversion ty "*bridge.bridgeEndpoint"), n).
Proof.
  intros Hl Herr. unfold populateEndpoints, getEndpointsFromStore.
  unfold listing in Hl.
  unfold bind at 1. unfold bind at 1, get at 1. cbv beta iota. rewrite Hl.
  assert ((match err with
           | Some e => if decide (e ≠ ErrKeyNotFound) then fail e else ret tt
           | None => ret tt
           end) n = (Ok tt, n)) as Hgate.
  { destruct Herr as [-> | ->]; [done|]. by rewrite decide_False by by intros ?. }
  by rewrite (bind_Ok _ _ _ _ _ Hgate), collect_foreign.
Qed.

(** X15.  After a [populateEndpoints] that restored a listing, a second one
    returns normally and leaves the network as the first left it. *)
Theorem populateEndpoints_twice n eps err :
  listing n = (KVBridgeEndpoint <$> eps, err) → no_listing_error err →
  ∃ n', populateEndpoints n = (Ok tt, n') ∧ populateEndpoints n' = (Ok tt, n').
Proof.
  intros Hl Herr. eexists. split; [by eapply populateEndpoints_run|].
  erewrite populateEndpoints_run; [|exact Hl|exact Herr].
  cbn [network_id store endpoints set_endpoints]. by rewrite restored_twice.
Qed.

(** * Part 9: more on [CopyTo] *)

(** ** More on [CopyTo] *)

(** [CopyTo] on two endpoints apart, in one statement. *)
Lemma CopyTo_run h a b va vb :
  bridgeEndpoint_value h a = Some va → bridgeEndpoint_value h b = Some vb →
  Mem.storage h a ## Mem.storage h b →
  ∃ h', Mem.CopyTo a b h = (Ok tt, h')
    ∧ bridgeEndpoint_value h' a = Some va
    ∧ bridgeEndpoint_value h' b = Some (CopyTo_value va vb)
    ∧ Mem.storage h' a ## Mem.storage h' b.
Proof.
  intros Hva Hvb Hsep.
  destruct (wp_run _ _ _ (wp_CopyTo _ _ _ _ _ Hva Hvb Hsep))
    as ([] & h' & Hrun & e' & I).
  destruct (bridgeEndpoint_value_Some _ _ _ Hva) as (ea & Ha & _).
  destruct (bridgeEndpoint_value_Some _ _ _ Hvb) as (eb & Hb & _).
  assert (b ∈ dom h) as Hbd by by eapply elem_of_dom_2.
  destruct (Inv_source h a b ea va Ha Hva Hbd Hsep _ _ _ I) as [Va Sa].
  pose proof (Inv_value h b _ _ _ I) as Vb.
  pose proof (Inv_storage h a b ea va Ha Hva Hbd Hsep _ _ _ I) as Sb.
  pose proof (D0_source h a b ea va Ha Hva Hbd Hsep) as Ds.
  pose proof (Hba h a b ea va Ha Hva Hbd Hsep) as Hba'.
  exists h'. repeat split; try done.
  rewrite Sa. intros l Hl Hl'. destruct (decide (l = b)) as [->|]; [done|].
  apply (Sb l); set_solver.
Qed.

(** X16.  [CopyTo] copies neither the network nor the index nor the
    existence flag: the destination keeps its own, so that its key is its
    old key prefix with the id of the source. *)
Theorem CopyTo_keeps_the_destination_network h a b va vb :
  bridgeEndpoint_value h a = Some va → bridgeEndpoint_value h b = Some vb →
  Mem.storage h a ## Mem.storage h b →
  ∃ h' r, Mem.CopyTo a b h = (Ok tt, h')
    ∧ bridgeEndpoint_value h' b = Some r
    ∧ network r = network vb ∧ Index r = Index vb ∧ Exists r = Exists vb
    ∧ KeyPrefix r = KeyPrefix vb
    ∧ Key r = KeyPrefix vb ++ [id va].
Proof.
  intros Hva Hvb Hsep.
  destruct (CopyTo_run h a b va vb Hva Hvb Hsep) as (h' & Hrun & _ & Vb & _).
  exists h', (CopyTo_value va vb). split; [done|]. split; [done|].
  unfold CopyTo_value. by destruct (config va), (containerConfig va).
Qed.

Lemma allocated_allocated {T} (s : slice T) : allocated (allocated s) = allocated s.
Proof. done. Qed.

Lemma CopyTo_value_twice va vb :
  CopyTo_value va (CopyTo_value va vb) = CopyTo_value va vb.
Proof.
  unfold CopyTo_value. by destruct (config va), (containerConfig va).
Qed.

(** X17.  A second [CopyTo] from the same source returns normally and leaves
    the destination worth what it was after the first. *)
Theorem CopyTo_twice h a b va vb :
  bridgeEndpoint_value h a = Some va → bridgeEndpoint_value h b = Some vb →
  Mem.storage h a ## Mem.storage h b →
  ∃ h1 h2, Mem.CopyTo a b h = (Ok tt, h1) ∧ Mem.CopyTo a b h1 = (Ok tt, h2)
    ∧ bridgeEndpoint_value h2 b = bridgeEndpoint_value h1 b
    ∧ bridgeEndpoint_value h2 a = Some va.
Proof.
  intros Hva Hvb Hsep.
  destruct (CopyTo_run h a b va vb Hva Hvb Hsep) as (h1 & Hrun1 & Va1 & Vb1 & Hsep1).
  destruct (CopyTo_run h1 a b va _ Va1 Vb1 Hsep1) as (h2 & Hrun2 & Va2 & Vb2 & _).
  exists h1, h2. by rewrite Vb1, Vb2, CopyTo_value_twice.
Qed.

(** X18.  When the destination, or the source, is no endpoint in the store,
    [CopyTo] panics before it writes anything. *)
Theorem CopyTo_of_no_endpoint h a b :
  (∀ e, h !! b ≠ Some (Mem.OBridgeEndpoint e))
  ∨ (∀ e, h !! a ≠ Some (Mem.OBridgeEndpoint e)) →
  ∃ p, Mem.CopyTo a b h = (Panic p, h).
Proof.
  intros Hno. unfold Mem.CopyTo.
  unfold bind at 1. unfold Mem.load_struct at 1. unfold bind at 1, Mem.load at 1.
  destruct (h !! b) as [ob|] eqn:Hb; [|cbn; eauto]. cbn [Mem.bridgeEndpoint_struct Mem.unpack].
  destruct ob as [| | | | | | |eb]; try (cbn; eauto; fail).
  destruct Hno as [Hno|Hno]; [by destruct (Hno eb)|].
  cbv beta iota zeta. unfold ret at 1. cbv beta iota.
  unfold bind at 1. unfold Mem.assign at 1. unfold bind at 1.
  unfold Mem.load_struct at 1. unfold bind at 1, Mem.load at 1.
  destruct (h !! a) as [oa|] eqn:Ha; [|cbn; eauto].
  destruct oa as [| | | | | | |ea]; try (cbn; eauto; fail).
  by destruct (Hno ea).
Qed.

(** ** An endpoint and its copy in the store *)

Lemma len_allocated {T} (s : slice T) : len (allocated s) = len s.
Proof. done. Qed.

Lemma strings_of_allocated {T} (f : T → string) (s : slice T) :
  strings_of f (allocated s) = strings_of f s.
Proof. done. Qed.

Lemma endpointConfiguration_MarshalJSON_copy c :
  endpointConfiguration_MarshalJSON (endpointConfiguration_copy c)
  = endpointConfiguration_MarshalJSON c.
Proof. done. Qed.

Lemma MarshalJSON_CopyTo_value va vb :
  (config va = None → config vb = None) →
  match containerConfig va with
  | Some cc => lists_allocated cc
  | None => containerConfig vb = None
  end →
  MarshalJSON (CopyTo_value va vb) = MarshalJSON va.
Proof.
  intros Hcfg Hccfg. unfold MarshalJSON, MarshalJSON_nMap, CopyTo_value. cbv zeta.
  destruct va as [i s a a6 mac cfg ccfg pm n ix ex]; cbn in *.
  destruct cfg as [c|], ccfg as [cc|]; cbn;
    rewrite ?Hcfg, ?Hccfg by done; try done.
  - destruct Hccfg as [[pe Hpe] [ce Hce]]. destruct cc as [p q]; cbn in *.
    by subst.
  - destruct Hccfg as [[pe Hpe] [ce Hce]]. destruct cc as [p q]; cbn in *.
    by subst.
Qed.

(** X19.  The copy is encoded as the source is, when the destination has no
    sub-configuration that the source lacks and the lists of the source's
    container configuration are not nil. *)
Theorem a_copy_encodes_like_its_source h a b va vb :
  bridgeEndpoint_value h a = Some va → bridgeEndpoint_value h b = Some vb →
  Mem.storage h a ## Mem.storage h b →
  (config va = None → config vb = None) →
  match containerConfig va with
  | Some cc => lists_allocated cc
  | None => containerConfig vb = None
  end →
  ∃ h' r, Mem.CopyTo a b h = (Ok tt, h')
    ∧ bridgeEndpoint_value h' b = Some r
    ∧ Value r = Value va.
Proof.
  intros Hva Hvb Hsep Hcfg Hccfg.
  destruct (CopyTo_run h a b va vb Hva Hvb Hsep) as (h' & Hrun & _ & Vb & _).
  exists h', (CopyTo_value va vb). split; [done|]. split; [done|].
  unfold Value. f_equal. by apply MarshalJSON_CopyTo_value.
Qed.

(** X20.  When a list of the source's container configuration is nil, the
    copy is not encoded as the source is: [make] has turned the nil list
    into an empty one, which [containerConfiguration.MarshalJSON] writes as
    an array and not as [null]. *)
Theorem a_copy_of_a_nil_list_encodes_otherwise h a b va vb cc :
  bridgeEndpoint_value h a = Some va → bridgeEndpoint_value h b = Some vb →
  Mem.storage h a ## Mem.storage h b →
  containerConfig va = Some cc →
  ParentEndpoints cc = None ∨ ChildEndpoints cc = None →
  ∃ h' r, Mem.CopyTo a b h = (Ok tt, h')
    ∧ bridgeEndpoint_value h' b = Some r
    ∧ Value r ≠ Value va.
Proof.
  intros Hva Hvb Hsep Hcc Hnil.
  destruct (CopyTo_run h a b va vb Hva Hvb Hsep) as (h' & Hrun & _ & Vb & _).
  exists h', (CopyTo_value va vb). split; [done|]. split; [done|].
  unfold Value. intros [= E].
  assert (MarshalJSON_nMap (CopyTo_value va vb) !! "containerConfiguration"
          = Some (IMarshaler "*bridge.containerConfiguration"
                    (Some (containerConfiguration_MarshalJSON
                             (containerConfiguration_copy cc))))) as L1.
  { destruct (nMap_lookup (CopyTo_value va vb)) as (_ & _ & _ & _ & _ & _ & -> & _).
    unfold CopyTo_value. rewrite Hcc. by destruct (config va). }
  assert (MarshalJSON_nMap va !! "containerConfiguration"
          = Some (IMarshaler "*bridge.containerConfiguration"
                    (Some (containerConfiguration_MarshalJSON cc)))) as L2.
  { destruct (nMap_lookup va) as (_ & _ & _ & _ & _ & _ & -> & _).
    by rewrite Hcc. }
  apply (f_equal (λ m : gmap string json, m !! "containerConfiguration")) in E.
  rewrite !lookup_fmap, L1, L2 in E.
  cbn [fmap option_fmap option_map json_Marshal] in E. apply (inj Some) in E.
  apply (f_equal (λ j, match j with
                        | JObject m => (m !! "ParentEndpoints", m !! "ChildEndpoints")
                        | _ => (None, None)
                        end)) in E.
  unfold containerConfiguration_MarshalJSON, json_Marshal_map in E.
  cbv beta iota zeta in E. rewrite !lookup_fmap in E.
  rewrite !lookup_insert_eq, !lookup_insert_ne, !lookup_insert_eq in E by done.
  cbn [fmap option_fmap option_map json_Marshal containerConfiguration_copy
         ParentEndpoints ChildEndpoints allocated] in E.
  destruct Hnil as [Hn | Hn]; rewrite Hn in E;
    [|destruct (ParentEndpoints cc)]; done.
Qed.

(** ** The copies of the sub-configurations *)

(** X21.  [endpointConfiguration.CopyTo] into another struct returns
    normally; the destination is worth the source with its two lists
    allocated (a nil list becomes an empty one, a nil hardware address
    stays nil); the arrays of the destination are new; the source and every
    other cell of the store are as they were. *)
Theorem endpointConfiguration_CopyTo_copies h c d vc rd :
  endpointConfiguration_value h (Some c) = Some (Some vc) →
  h !! d = Some (Mem.OEndpointConfiguration rd) →
  d ∉ Mem.sub_locs Mem.endpointConfiguration_struct
        Mem.endpointConfiguration_slices h (Some c) →
  ∃ h', Mem.endpointConfiguration_CopyTo c d h = (Ok tt, h')
    ∧ endpointConfiguration_value h' (Some d)
      = Some (Some {| MacAddress := MacAddress vc;
                      PortBindings := Some (elems (PortBindings vc));
                      ExposedPorts := Some (elems (ExposedPorts vc)) |})
    ∧ endpointConfiguration_value h' (Some c) = Some (Some vc)
    ∧ Mem.sub_locs Mem.endpointConfiguration_struct
        Mem.endpointConfiguration_slices h' (Some d) ∖ {[d]} ## dom h
    ∧ ∀ l, l ∈ dom h → l ≠ d → h' !! l = h !! l.
Proof.
  intros Hc Hd Hsep.
  destruct (wp_run _ _ _
    (wp_endpointConfiguration_CopyTo h c d vc rd
       (λ _ h', frame {[d]} h h'
          ∧ Mem.sub_locs Mem.endpointConfiguration_struct
              Mem.endpointConfiguration_slices h' (Some d) ∖ {[d]} ## dom h
          ∧ endpointConfiguration_value h' (Some d)
            = Some (Some (endpointConfiguration_copy vc)))
       Hc Hd Hsep (λ h' F S V, conj F (conj S V))))
    as ([] & h' & Hrun & F & S & V).
  exists h'. split; [done|]. split; [done|]. split; [|split; [done|]].
  - eapply endpointConfiguration_value_frame; [done..|set_solver].
  - intros l Hl Hne. apply F; [done|set_solver].
Qed.

(** X22.  [containerConfiguration.CopyTo] into another struct returns
    normally; the destination has the two lists of the source, allocated,
    in new arrays; the source and every other cell of the store are as they
    were. *)
Theorem containerConfiguration_CopyTo_copies h c d vc rd :
  containerConfiguration_value h (Some c) = Some (Some vc) →
  h !! d = Some (Mem.OContainerConfiguration rd) →
  d ∉ Mem.sub_locs Mem.containerConfiguration_struct
        Mem.containerConfiguration_slices h (Some c) →
  ∃ h', Mem.containerConfiguration_CopyTo c d h = (Ok tt, h')
    ∧ containerConfiguration_value h' (Some d)
      = Some (Some {| ParentEndpoints := Some (elems (ParentEndpoints vc));
                      ChildEndpoints := Some (elems (ChildEndpoints vc)) |})
    ∧ containerConfiguration_value h' (Some c) = Some (Some vc)
    ∧ Mem.sub_locs Mem.containerConfiguration_struct
        Mem.containerConfiguration_slices h' (Some d) ∖ {[d]} ## dom h
    ∧ ∀ l, l ∈ dom h → l ≠ d → h' !! l = h !! l.
Proof.
  intros Hc Hd Hsep.
  destruct (wp_run _ _ _
    (wp_containerConfiguration_CopyTo h c d vc rd
       (λ _ h', frame {[d]} h h'
          ∧ Mem.sub_locs Mem.containerConfiguration_struct
              Mem.containerConfiguration_slices h' (Some d) ∖ {[d]} ## dom h
          ∧ containerConfiguration_value h' (Some d)
            = Some (Some (containerConfiguration_copy vc)))
       Hc Hd Hsep (λ h' F S V, conj F (conj S V))))
    as ([] & h' & Hrun & F & S & V).
  exists h'. split; [done|]. split; [done|]. split; [|split; [done|]].
  - eapply containerConfiguration_value_frame; [done..|set_solver].
  - intros l Hl Hne. apply F; [done|set_solver].
Qed.

(** ** A record copied onto itself *)

(** [make] over the field that [copy] then reads: the elements are gone
    before they are copied. *)
Lemma wp_make_copy_self {R T} (st : Mem.struct R) `{!StructOk st}
    (k : Mem.kind T) `{!KindOk k} f set_f c h r v Q :
  (∀ s r, f (set_f s r) = s) →
  h !! c = Some (Mem.pack st r) →
  slice_value k h (f r) = Some v →
  (∀ s' h', frame {[c]} h h' →
            h' !! c = Some (Mem.pack st (set_f s' r)) →
            Mem.slice_locs s' ## dom h →
            slice_value k h' s' = Some (Some (replicate (len v) (Mem.zero k))) →
            Q tt h') →
  wp (Mem.make_copy k st f set_f c c) h Q.
Proof.
  intros Hlens Hc Hv HQ.
  pose proof (slice_value_length k _ _ _ Hv) as Hlen.
  apply wp_bind, (wp_assign st _ _ _ _ _ _ _ _ _ Hc Hc).
  apply (wp_make k). intros a Ha. split; [by apply frame_insert_fresh|].
  assert (a ≠ c) as Hac by (apply elem_of_dom_2 in Hc; set_solver).
  set (n := Mem.len (f r)).
  set (s' := Mem.SWin a 0 n).
  set (zs := replicate n (Mem.zero k)).
  set (h2 := <[c := Mem.pack st (set_f s' r)]> (<[a := Mem.wrap k zs]> h)).
  assert (h2 !! c = Some (Mem.pack st (set_f s' r))) as Hc2
    by apply lookup_insert_eq.
  assert (h2 !! a = Some (Mem.wrap k zs)) as Ha2
    by (unfold h2; rewrite lookup_insert_ne by done; apply lookup_insert_eq).
  assert (length zs = n) as Hzs by apply length_replicate.
  assert (slice_value k h2 s' = Some (Some zs)) as Hs2.
  { unfold s'. rewrite <- Hzs. by apply (slice_value_whole k). }
  apply wp_bind, (wp_load_struct st _ _ _ _ Hc2).
  apply wp_bind, (wp_load_struct st _ _ _ _ Hc2).
  rewrite Hlens. apply wp_bind.
  refine (wp_copy_whole k h2 a zs s' (Some zs) _ Ha2 Hzs Hs2 _).
  apply wp_ret. cbn [elems default]. rewrite insert_id by done.
  apply (HQ s').
  - split; [set_solver|]. intros l ? ?. unfold h2.
    rewrite !lookup_insert_ne; [done|set_solver..].
  - done.
  - cbn. set_solver.
  - unfold len. by rewrite Hlen.
Qed.

Lemma slice_not_at {T} (k : Mem.kind T) `{!KindOk k} h s v l o :
  slice_value k h s = Some v → h !! l = Some o → (∀ xs, o ≠ Mem.wrap k xs) →
  l ∉ Mem.slice_locs s.
Proof.
  intros Hv Hl Ho. destruct s as [|a off n]; [set_solver|].
  destruct (slice_value_SWin k _ _ _ _ _ Hv) as (ys & Ha & _).
  cbn. intros ->%elem_of_singleton. rewrite Hl in Ha. injection Ha as ->.
  by destruct (Ho ys).
Qed.

Lemma wp_containerConfiguration_CopyTo_self h c vc Q :
  containerConfiguration_value h (Some c) = Some (Some vc) →
  (∀ h', frame {[c]} h h' →
         containerConfiguration_value h' (Some c)
         = Some (Some (containerConfiguration_zeroed vc)) →
         Q tt h') →
  wp (Mem.containerConfiguration_CopyTo c c) h Q.
Proof.
  intros Hv HQ.
  destruct (containerConfiguration_value_Some _ _ _ Hv)
    as (rc & pe & ce & Hc & Hpe & Hce & [= ->]).
  assert (c ∈ dom h) as Hcd by by eapply elem_of_dom_2.
  unfold Mem.containerConfiguration_CopyTo.
  apply wp_bind.
  apply (wp_make_copy_self Mem.containerConfiguration_struct Mem.strings_kind
           _ _ _ _ rc pe); [done..|].
  intros s1 h1 F1 Hc1 D1 V1.
  apply wp_bind.
  apply (wp_make_copy_self Mem.containerConfiguration_struct Mem.strings_kind
           _ _ _ _ (Mem.set_ParentEndpoints s1 rc) ce); [done|done| |].
  { apply (slice_value_frame _ _ _ _ _ _ Hce F1).
    apply disjoint_singleton_r. by eapply (slice_not_at Mem.strings_kind). }
  intros s2 h2 F2 Hc2 D2 V2. apply wp_ret.
  pose proof (frame_dom _ _ _ F1) as Dh1.
  apply HQ; [by eapply frame_trans|].
  unfold containerConfiguration_value. rewrite Hc2. cbn.
  rewrite (slice_value_frame _ {[c]} h1 h2 s1 _ V1 F2) by set_solver.
  cbn. by rewrite V2.
Qed.

Lemma wp_endpointConfiguration_CopyTo_self h c vc Q :
  endpointConfiguration_value h (Some c) = Some (Some vc) →
  (∀ h', frame {[c]} h h' →
         endpointConfiguration_value h' (Some c)
         = Some (Some (endpointConfiguration_zeroed vc)) →
         Q tt h') →
  wp (Mem.endpointConfiguration_CopyTo c c) h Q.
Proof.
  intros Hv HQ.
  destruct (endpointConfiguration_value_Some _ _ _ Hv)
    as (rc & mac & pbs & eps & Hc & Hmac & Hpbs & Heps & [= ->]).
  assert (c ∈ dom h) as Hcd by by eapply elem_of_dom_2.
  unfold Mem.endpointConfiguration_CopyTo.
  apply wp_bind, (wp_assign Mem.endpointConfiguration_struct _ _ _ _ _ _ _ _ _ Hc Hc).
  apply (wp_GetMacCopy _ _ _ _ Hmac). intros mac' h1 F1 Dmac Vmac.
  split; [done|].
  set (r1 := Mem.set_MacAddress mac' rc).
  set (h1' := <[c := Mem.pack Mem.endpointConfiguration_struct r1]> h1).
  assert (frame {[c]} h h1') as F1'
    by (apply frame_update; [by eapply frame_weaken|set_solver]).
  assert (frame {[c]} h1 h1') as F11 by (apply frame_insert_in; set_solver).
  apply wp_bind.
  apply (wp_make_copy_self Mem.endpointConfiguration_struct Mem.portBindings_kind
           _ _ _ _ r1 pbs); [done|apply lookup_insert_eq| |].
  { apply (slice_value_frame _ _ _ _ _ _ Hpbs F1').
    apply disjoint_singleton_r. by eapply (slice_not_at Mem.portBindings_kind). }
  intros s2 h2 F2 Hd2 D2 V2.
  apply wp_bind.
  apply (wp_make_copy_self Mem.endpointConfiguration_struct Mem.transportPorts_kind
           _ _ _ _ (Mem.set_PortBindings s2 r1) eps); [done|done| |].
  { apply (slice_value_frame _ _ _ _ _ _ Heps (frame_trans _ _ _ _ F1' F2)).
    apply disjoint_singleton_r. by eapply (slice_not_at Mem.transportPorts_kind). }
  intros s3 h3 F3 Hd3 D3 V3. apply wp_ret.
  pose proof (frame_dom _ _ _ F1) as Dh1.
  pose proof (frame_dom _ _ _ F11) as Dh11.
  pose proof (frame_dom _ _ _ F2) as Dh2.
  apply HQ.
  - eapply frame_trans; [done|]. by eapply frame_trans.
  - unfold endpointConfiguration_value. rewrite Hd3. cbn.
    rewrite (slice_value_frame _ {[c]} h1 h3 mac' mac); [|done| |set_solver].
    2: { eapply frame_trans; [done|]. by eapply frame_trans. }
    cbn. rewrite (slice_value_frame _ {[c]} h2 h3 s2 _ V2 F3) by set_solver.
    cbn. by rewrite V3.
Qed.

Lemma wp_copy_sub_self {R} (st : Mem.struct R) `{!StructOk st} empty f set_f
    method a h ea Q :
  (∀ v e, f (set_f v e) = v) →
  h !! a = Some (Mem.OBridgeEndpoint ea) →
  match f ea with
  | None => Q tt h
  | Some _ =>
      ∀ q, q ∉ dom h →
        wp (method q q)
           (<[a := Mem.OBridgeEndpoint (set_f (Some q) ea)]>
              (<[q := Mem.pack st empty]> h)) Q
  end →
  wp (Mem.copy_sub st empty f set_f method a a) h Q.
Proof.
  intros Hlens Ha HQ. unfold Mem.copy_sub.
  apply wp_bind, (wp_load_struct Mem.bridgeEndpoint_struct _ _ _ _ Ha).
  destruct (f ea) as [c|] eqn:Hf; [|by apply wp_ret].
  apply wp_bind, wp_alloc. intros q Hq.
  assert (q ≠ a) by (apply elem_of_dom_2 in Ha; set_solver).
  apply wp_bind, (wp_update_struct Mem.bridgeEndpoint_struct _ _ _ ea).
  { by rewrite lookup_insert_ne. }
  apply wp_bind, (wp_load_struct Mem.bridgeEndpoint_struct _ _ (set_f (Some q) ea)).
  { apply lookup_insert_eq. }
  apply wp_bind, (wp_load_struct Mem.bridgeEndpoint_struct _ _ (set_f (Some q) ea)).
  { apply lookup_insert_eq. }
  rewrite Hlens. by apply HQ.
Qed.

(** The content of a field is carried over a store to the endpoint. *)
Lemma carry {A V} (fk : field_kind A V) `{!FieldOk fk} h h' a e p v :
  value fk h p = Some v → h !! a = Some (Mem.OBridgeEndpoint e) →
  frame {[a]} h h' → value fk h' p = Some v.
Proof.
  intros Hv Ha F. eapply field_frame; [done..|].
  apply disjoint_singleton_r. by eapply field_not_endpoint.
Qed.

Section itself.

Variable a : positive.

(** In [h'] the endpoint at [a] is [e'], worth [w]. *)
Definition Self h' (e' : Mem.bridgeEndpoint) (w : bridgeEndpoint) : Prop :=
  h' !! a = Some (Mem.OBridgeEndpoint e')
  ∧ value IPNet_field h' (Mem.addr e') = Some (addr w)
  ∧ value IPNet_field h' (Mem.addrv6 e') = Some (addrv6 w)
  ∧ value (slice_field Mem.bytes_kind) h' (Mem.macAddress e') = Some (macAddress w)
  ∧ value endpointConfiguration_field h' (Mem.config e') = Some (config w)
  ∧ value containerConfiguration_field h' (Mem.containerConfig e')
    = Some (containerConfig w)
  ∧ value (slice_field Mem.portBindings_kind) h' (Mem.portMapping e')
    = Some (portMapping w)
  ∧ Mem.id e' = id w ∧ Mem.srcName e' = srcName w ∧ Mem.network e' = network w
  ∧ Mem.dbIndex e' = dbIndex w ∧ Mem.dbExists e' = dbExists w.

Lemma Self_value h' e' w : Self h' e' w → bridgeEndpoint_value h' a = Some w.
Proof.
  intros (Ha' & V1 & V2 & V3 & V4 & V5 & V6 & E1 & E2 & E3 & E4 & E5).
  unfold bridgeEndpoint_value. rewrite Ha'. cbn in *.
  rewrite V1, V2, V3, V4, V5, V6. cbn.
  rewrite E1, E2, E3, E4, E5. by destruct w.
Qed.

(** After a statement that left the frame [F] and the endpoint [Ha'']. *)
Ltac Self_step I F Ha'' :=
  let Ha' := fresh "Ha'" in
  destruct I as (Ha' & ? & ? & ? & ? & ? & ? & ? & ? & ? & ? & ?);
  split; [exact Ha''|];
  repeat match goal with |- _ ∧ _ => split end;
  cbn [Mem.id Mem.srcName Mem.addr Mem.addrv6 Mem.macAddress Mem.config
       Mem.containerConfig Mem.portMapping Mem.network Mem.dbIndex Mem.dbExists
       Mem.set_id Mem.set_srcName Mem.set_addr Mem.set_addrv6 Mem.set_macAddress
       Mem.set_config Mem.set_containerConfig Mem.set_portMapping
       id srcName addr addrv6 macAddress config containerConfig portMapping
       network dbIndex dbExists set_config set_containerConfig set_portMapping];
  first [ done | eapply carry; [apply _|eassumption|exact Ha'|exact F] ].

Lemma self_id h' e' w :
  Self h' e' w →
  wp (Mem.assign Mem.bridgeEndpoint_struct Mem.id Mem.set_id ret a a) h'
     (λ _ h'', ∃ e'', Self h'' e'' w).
Proof.
  intros I. pose proof I as (Ha0 & _).
  apply (wp_assign_field (plain_field string) _ _ _ _ _ _ e' e' (Mem.id e'));
    [intros; by eapply wp_ret_field|done|done|done|].
  intros to h'' F Ha'' [_ [= ->]]. eexists. Self_step I F Ha''.
Qed.

Lemma self_srcName h' e' w :
  Self h' e' w →
  wp (Mem.assign Mem.bridgeEndpoint_struct Mem.srcName Mem.set_srcName ret a a) h'
     (λ _ h'', ∃ e'', Self h'' e'' w).
Proof.
  intros I. pose proof I as (Ha0 & _).
  apply (wp_assign_field (plain_field string) _ _ _ _ _ _ e' e' (Mem.srcName e'));
    [intros; by eapply wp_ret_field|done|done|done|].
  intros to h'' F Ha'' [_ [= ->]]. eexists. Self_step I F Ha''.
Qed.

Lemma self_addr h' e' w :
  Self h' e' w →
  wp (Mem.assign Mem.bridgeEndpoint_struct Mem.addr Mem.set_addr
        Mem.GetIPNetCopy a a) h'
     (λ _ h'', ∃ e'', Self h'' e'' w).
Proof.
  intros I. pose proof I as (Ha0 & V1 & _).
  apply (wp_assign_field IPNet_field _ _ _ _ _ _ e' e' (addr w));
    [apply wp_GetIPNetCopy|done|done|done|].
  intros to h'' F Ha'' [_ G]. eexists. Self_step I F Ha''.
Qed.

Lemma self_addrv6 h' e' w :
  Self h' e' w →
  wp (Mem.assign Mem.bridgeEndpoint_struct Mem.addrv6 Mem.set_addrv6
        Mem.GetIPNetCopy a a) h'
     (λ _ h'', ∃ e'', Self h'' e'' w).
Proof.
  intros I. pose proof I as (Ha0 & _ & V2 & _).
  apply (wp_assign_field IPNet_field _ _ _ _ _ _ e' e' (addrv6 w));
    [apply wp_GetIPNetCopy|done|done|done|].
  intros to h'' F Ha'' [_ G]. eexists. Self_step I F Ha''.
Qed.

Lemma self_macAddress h' e' w :
  Self h' e' w →
  wp (Mem.assign Mem.bridgeEndpoint_struct Mem.macAddress Mem.set_macAddress
        Mem.GetMacCopy a a) h'
     (λ _ h'', ∃ e'', Self h'' e'' w).
Proof.
  intros I. pose proof I as (Ha0 & _ & _ & V3 & _).
  apply (wp_assign_field (slice_field Mem.bytes_kind) _ _ _ _ _ _ e' e'
           (macAddress w));
    [apply wp_GetMacCopy|done|done|done|].
  intros to h'' F Ha'' [_ G]. eexists. Self_step I F Ha''.
Qed.

Lemma self_config h' e' w :
  Self h' e' w →
  wp (Mem.copy_sub Mem.endpointConfiguration_struct
        {| Mem.MacAddress := Mem.SNil; Mem.PortBindings := Mem.SNil;
           Mem.ExposedPorts := Mem.SNil |}
        Mem.config Mem.set_config Mem.endpointConfiguration_CopyTo a a) h'
     (λ _ h'', ∃ e'',
        Self h'' e''
          (set_config
             ((λ _, endpointConfiguration_zeroed endpointConfiguration_zero)
                <$> config w) w)).
Proof.
  intros I. pose proof I as (Ha0 & _ & _ & _ & V4 & _).
  apply (wp_copy_sub_self Mem.endpointConfiguration_struct _ _ _ _ a h' e');
    [done|done|].
  destruct (Mem.config e') as [c|] eqn:Hc.
  2: { exists e'. assert (config w = None) as E by by injection V4.
       unfold Self in I |- *. rewrite E in I |- *. exact I. }
  intros q Hq.
  destruct (endpointConfiguration_value_Some _ _ _ V4)
    as (rc & mac & pbs & eps & _ & _ & _ & _ & Hvc).
  set (zero := {| Mem.MacAddress := Mem.SNil; Mem.PortBindings := Mem.SNil;
                  Mem.ExposedPorts := Mem.SNil |}).
  set (hq := <[a := Mem.OBridgeEndpoint (Mem.set_config (Some q) e')]>
               (<[q := Mem.pack Mem.endpointConfiguration_struct zero]> h')).
  assert (a ∈ dom h') as Had by by eapply elem_of_dom_2.
  assert (q ≠ a) as Hqa by set_solver.
  assert (frame {[a]} h' hq) as Fq.
  { apply frame_update; [by apply frame_insert_fresh|set_solver]. }
  assert (hq !! q = Some (Mem.OEndpointConfiguration zero)) as Hqq.
  { unfold hq. rewrite lookup_insert_ne by done. apply lookup_insert_eq. }
  apply (wp_endpointConfiguration_CopyTo_self hq q endpointConfiguration_zero).
  { unfold endpointConfiguration_value. by rewrite Hqq. }
  intros h6 F6 V6.
  assert (frame {[a]} h' h6) as F' by (eapply frame_outside; [done..|set_solver]).
  assert (h6 !! a = Some (Mem.OBridgeEndpoint (Mem.set_config (Some q) e'))) as Ha6.
  { apply (frame_lookup _ _ _ _ _ F6); [apply lookup_insert_eq|set_solver]. }
  rewrite Hvc. cbn [fmap option_fmap option_map].
  eexists. Self_step I F' Ha6.
Qed.

Lemma self_containerConfig h' e' w :
  Self h' e' w →
  wp (Mem.copy_sub Mem.containerConfiguration_struct
        {| Mem.ParentEndpoints := Mem.SNil; Mem.ChildEndpoints := Mem.SNil |}
        Mem.containerConfig Mem.set_containerConfig
        Mem.containerConfiguration_CopyTo a a) h'
     (λ _ h'', ∃ e'',
        Self h'' e''
          (set_containerConfig
             ((λ _, containerConfiguration_zeroed containerConfiguration_zero)
                <$> containerConfig w) w)).
Proof.
  intros I. pose proof I as (Ha0 & _ & _ & _ & _ & V5 & _).
  apply (wp_copy_sub_self Mem.containerConfiguration_struct _ _ _ _ a h' e');
    [done|done|].
  destruct (Mem.containerConfig e') as [c|] eqn:Hc.
  2: { exists e'. assert (containerConfig w = None) as E by by injection V5.
       unfold Self in I |- *. rewrite E in I |- *. exact I. }
  intros q Hq.
  destruct (containerConfiguration_value_Some _ _ _ V5)
    as (rc & pe & ce & _ & _ & _ & Hvc).
  set (zero := {| Mem.ParentEndpoints := Mem.SNil; Mem.ChildEndpoints := Mem.SNil |}).
  set (hq := <[a := Mem.OBridgeEndpoint (Mem.set_containerConfig (Some q) e')]>
               (<[q := Mem.pack Mem.containerConfiguration_struct zero]> h')).
  assert (a ∈ dom h') as Had by by eapply elem_of_dom_2.
  assert (q ≠ a) as Hqa by set_solver.
  assert (frame {[a]} h' hq) as Fq.
  { apply frame_update; [by apply frame_insert_fresh|set_solver]. }
  assert (hq !! q = Some (Mem.OContainerConfiguration zero)) as Hqq.
  { unfold hq. rewrite lookup_insert_ne by done. apply lookup_insert_eq. }
  apply (wp_containerConfiguration_CopyTo_self hq q containerConfiguration_zero).
  { unfold containerConfiguration_value. by rewrite Hqq. }
  intros h6 F6 V6.
  assert (frame {[a]} h' h6) as F' by (eapply frame_outside; [done..|set_solver]).
  assert (h6 !! a = Some (Mem.OBridgeEndpoint (Mem.set_containerConfig (Some q) e')))
    as Ha6.
  { apply (frame_lookup _ _ _ _ _ F6); [apply lookup_insert_eq|set_solver]. }
  rewrite Hvc. cbn [fmap option_fmap option_map].
  eexists. Self_step I F' Ha6.
Qed.

Lemma self_portMapping h' e' w :
  Self h' e' w →
  wp (Mem.make_copy Mem.portBindings_kind Mem.bridgeEndpoint_struct
        Mem.portMapping Mem.set_portMapping a a) h'
     (λ _ h'', ∃ e'',
        Self h'' e''
          (set_portMapping
             (Some (replicate (len (portMapping w)) PortBinding_zero)) w)).
Proof.
  intros I. pose proof I as (Ha0 & _ & _ & _ & _ & _ & V6 & _).
  apply (wp_make_copy_self Mem.bridgeEndpoint_struct Mem.portBindings_kind
           _ _ _ _ e' (portMapping w)); [done|done|done|].
  intros s' h'' F Ha'' D V.
  eexists. Self_step I F Ha''.
Qed.

End itself.

Lemma wp_CopyTo_self h a va :
  bridgeEndpoint_value h a = Some va →
  wp (Mem.CopyTo a a) h
     (λ _ h', bridgeEndpoint_value h' a = Some (copied_onto_itself va)).
Proof.
  intros Hva.
  destruct (bridgeEndpoint_value_Some _ _ _ Hva) as (ea & I0).
  change (Self a h ea va) in I0. pose proof I0 as (Ha & _).
  unfold Mem.CopyTo.
  apply wp_bind, (wp_load_struct Mem.bridgeEndpoint_struct _ _ ea); [done|].
  cbv zeta.
  apply wp_bind. eapply wp_mono; [exact (self_id a _ _ _ I0)|]. intros _ h1 (e1 & I1).
  apply wp_bind. eapply wp_mono; [exact (self_srcName a _ _ _ I1)|]. intros _ h2 (e2 & I2).
  apply wp_bind. eapply wp_mono; [exact (self_addr a _ _ _ I2)|]. intros _ h3 (e3 & I3).
  apply wp_bind. eapply wp_mono; [exact (self_addrv6 a _ _ _ I3)|]. intros _ h4 (e4 & I4).
  apply wp_bind. eapply wp_mono; [exact (self_macAddress a _ _ _ I4)|]. intros _ h5 (e5 & I5).
  apply wp_bind. eapply wp_mono; [exact (self_config a _ _ _ I5)|]. intros _ h6 (e6 & I6).
  apply wp_bind. eapply wp_mono; [exact (self_containerConfig a _ _ _ I6)|].
  intros _ h7 (e7 & I7).
  apply wp_bind. eapply wp_mono; [exact (self_portMapping a _ _ _ I7)|].
  intros _ h8 (e8 & I8).
  apply wp_ret. by apply Self_value in I8.
Qed.

(** X23.  An endpoint copied onto itself loses what it points to: each
    sub-configuration is replaced by an empty one before it is read, and
    the port mappings by as many zero values, since [make] overwrites the
    field that [copy] then reads.  The names and the addresses stay. *)
Theorem CopyTo_onto_itself h a va :
  bridgeEndpoint_value h a = Some va →
  ∃ h', Mem.CopyTo a a h = (Ok tt, h')
    ∧ bridgeEndpoint_value h' a = Some (copied_onto_itself va).
Proof.
  intros Hva.
  destruct (wp_run _ _ _ (wp_CopyTo_self h a va Hva)) as ([] & h' & Hrun & V).
  by exists h'.
Qed.

(** X24.  A sub-configuration copied onto itself keeps the length of its
    lists and loses their elements, which become zero values. *)
Theorem sub_configuration_CopyTo_onto_itself h c :
  (∀ vc, endpointConfiguration_value h (Some c) = Some (Some vc) →
     ∃ h', Mem.endpointConfiguration_CopyTo c c h = (Ok tt, h')
       ∧ endpointConfiguration_value h' (Some c)
         = Some (Some (endpointConfiguration_zeroed vc)))
  ∧ (∀ vc, containerConfiguration_value h (Some c) = Some (Some vc) →
     ∃ h', Mem.containerConfiguration_CopyTo c c h = (Ok tt, h')
       ∧ containerConfiguration_value h' (Some c)
         = Some (Some (containerConfiguration_zeroed vc))).
Proof.
  split; intros vc Hv.
  - destruct (wp_run _ _ _
      (wp_endpointConfiguration_CopyTo_self h c vc
         (λ _ h', endpointConfiguration_value h' (Some c)
                  = Some (Some (endpointConfiguration_zeroed vc)))
         Hv (λ _ _ V, V))) as ([] & h' & Hrun & V).
    by exists h'.
  - destruct (wp_run _ _ _
      (wp_containerConfiguration_CopyTo_self h c vc
         (λ _ h', containerConfiguration_value h' (Some c)
                  = Some (Some (containerConfiguration_zeroed vc)))
         Hv (λ _ _ V, V))) as ([] & h' & Hrun & V).
    by exists h'.
Qed.

End facts.

(** * Part 10: the statements on the sample instance *)

#[local] Existing Instance Sample.external.

(** On the sample endpoint with every optional field present, decoding its
    own encoding panics. *)
Lemma round_trip_not_Ok_witness :
  (UnmarshalJSON (Text (MarshalJSON Sample.full)) (New Sample.full)).1
  = Panic (InterfaceConversion "[]interface {}" "[]string")
  ∧ (UnmarshalJSON (Text (MarshalJSON Sample.full)) (New Sample.full)).1 ≠ Ok tt.
Proof.
  split; [by vm_compute|].
  apply (round_trip_not_Ok Sample.full). left. by vm_compute.
Defined.




(** A store that refuses the connection. *)
Lemma listing_error_is_returned_witness :
  populateEndpoints (Sample.net1 (OtherError "connection refused"))
  = (Err (OtherError "connection refused"),
     Sample.net1 (OtherError "connection refused")).
Proof.
  apply (listing_error_is_returned _ []); [reflexivity|discriminate].
Defined.

(** A store that has no key under the prefix. *)
Lemma not_found_is_an_empty_listing_witness :
  populateEndpoints (Sample.net1 ErrKeyNotFound)
  = (Ok tt, Sample.net1 ErrKeyNotFound).
Proof. apply not_found_is_an_empty_listing. reflexivity. Defined.

(** The sample endpoint with every optional field absent. *)
Lemma unset_fields_are_omitted_witness :
  MarshalJSON_nMap Sample.bare !! "addrv6" = None
  ∧ MarshalJSON_nMap Sample.bare !! "portMapping" = None.
Proof.
  split.
  - apply (unset_fields_are_omitted Sample.bare). reflexivity.
  - apply (unset_fields_are_omitted Sample.bare). reflexivity.
Defined.



(** The sample store: the source at 1 has no [config] and the destination
    at 2 keeps its own, at 10; the other way round, the endpoint at 1 keeps
    its [containerConfig], at 8.  The call returns normally. *)
Lemma CopyTo_keeps_stale_sub_configuration_witness :
  (Mem.CopyTo 1 2 Sample.store0).1 = Ok tt
  ∧ field_after Mem.config 1 2 Sample.store0 = Some (Some 10%positive)
  ∧ field_after Mem.containerConfig 2 1 Sample.store0 = Some (Some 8%positive).
Proof.
  split; [by vm_compute|]. split.
  - edestruct (CopyTo_keeps_stale_sub_configuration Sample.store0 1 2)
      as [Hnil _]; [reflexivity..|].
    apply Hnil. reflexivity.
  - edestruct (CopyTo_keeps_stale_sub_configuration Sample.store0 2 1)
      as [_ Hnil]; [reflexivity..|].
    apply Hnil. reflexivity.
Defined.

(** ** More statements on the sample instance *)

(** [Sample.null_config] has no [addrv6]. *)
Lemma absent_optional_key_keeps_the_field_witness :
  same_field Kaddrv6
    (UnmarshalJSON (Text (JObject Sample.null_config)) (New Sample.bare)).2
    (New Sample.bare).
Proof.
  apply (absent_optional_key_keeps_the_field Sample.null_config _ Kaddrv6).
  reflexivity.
Defined.

(** Bytes that are no JSON text. *)
Lemma UnmarshalJSON_not_an_object_witness :
  (UnmarshalJSON Garbage Sample.bare).2 = Sample.bare
  ∧ (UnmarshalJSON Garbage Sample.bare).1 = Err SyntaxError.
Proof.
  apply (UnmarshalJSON_not_an_object Garbage Sample.bare). intros m. discriminate.
Defined.

(** [Sample.null_config] is decoded. *)
Lemma decoded_endpoint_has_no_lists_witness :
  containerConfig
    (UnmarshalJSON (Text (JObject Sample.null_config)) (New Sample.bare)).2 = None
  ∧ portMapping
      (UnmarshalJSON (Text (JObject Sample.null_config)) (New Sample.bare)).2 = None.
Proof.
  edestruct (decoded_endpoint_has_no_lists (Text (JObject Sample.null_config))
               (New Sample.bare)) as (Hcc & Hpm & _);
    [by vm_compute|]. split; [exact Hcc|exact Hpm].
Defined.

(** The configuration of [Sample.scalar]. *)
Lemma endpointConfiguration_round_trip_witness :
  endpointConfiguration_UnmarshalJSON
    (Text (endpointConfiguration_MarshalJSON
             Sample.mac_only))
    endpointConfiguration_zero
  = (Ok tt, Sample.mac_only).
Proof.
  apply (endpointConfiguration_round_trip Sample.mac_only
           endpointConfiguration_zero);
    [reflexivity|reflexivity|intros _; reflexivity].
Defined.

(** The configuration of [Sample.full]. *)
Lemma endpointConfiguration_lists_do_not_decode_witness :
  (endpointConfiguration_UnmarshalJSON
     (Text (endpointConfiguration_MarshalJSON Sample.with_lists))
     endpointConfiguration_zero).1
  = Panic (InterfaceConversion "[]interface {}" "[]string").
Proof.
  apply (endpointConfiguration_lists_do_not_decode Sample.with_lists
           endpointConfiguration_zero).
  - left. by vm_compute.
  - intros _. reflexivity.
Defined.




(** A listing of two endpoints. *)
Lemma populateEndpoints_restores_witness :
  ∃ n', populateEndpoints
          (Sample.net2 [KVBridgeEndpoint Sample.bare; KVBridgeEndpoint Sample.second])
        = (Ok tt, n')
    ∧ endpoints n' !! "ep1" = Some Sample.bare
    ∧ endpoints n' !! "ep2" = Some Sample.second
    ∧ endpoints n' !! "ep0" = Some Sample.bare.
Proof.
  destruct (populateEndpoints_restores
              (Sample.net2 [KVBridgeEndpoint Sample.bare; KVBridgeEndpoint Sample.second])
              [Sample.bare; Sample.second] None)
    as (n' & Hrun & _ & _ & _ & Hin & Hout); [reflexivity|by left|].
  exists n'. split; [exact Hrun|].
  assert (NoDup (id <$> [Sample.bare; Sample.second])) as Hnd
    by (apply (bool_decide_unpack _); by vm_compute).
  split; [|split].
  - apply (Hin Hnd Sample.bare). by left.
  - apply (Hin Hnd Sample.second). right. by left.
  - rewrite (Hout "ep0"); [reflexivity|].
    cbn. intros [[=]|[[=]|[]%elem_of_nil]%elem_of_cons]%elem_of_cons.
Defined.

(** A listing with a network configuration after an endpoint. *)
Lemma populateEndpoints_foreign_object_witness :
  populateEndpoints
    (Sample.net2 [KVBridgeEndpoint Sample.second;
                  KVOther "*bridge.networkConfiguration"])
  = (Panic (InterfaceConversion "*bridge.networkConfiguration"
              "*bridge.bridgeEndpoint"),
     Sample.net2 [KVBridgeEndpoint Sample.second;
                  KVOther "*bridge.networkConfiguration"]).
Proof.
  apply (populateEndpoints_foreign_object _ [Sample.second] _ [] None);
    [reflexivity|by left].
Defined.

Lemma populateEndpoints_twice_witness :
  ∃ n', populateEndpoints (Sample.net2 [KVBridgeEndpoint Sample.second])
        = (Ok tt, n')
    ∧ populateEndpoints n' = (Ok tt, n').
Proof.
  apply (populateEndpoints_twice _ [Sample.second] None); [reflexivity|by left].
Defined.

(** The sample store: the endpoint at 1 copied over the one at 2. *)
Lemma CopyTo_keeps_the_destination_network_witness :
  ∃ h' r, Mem.CopyTo 1 2 Sample.store0 = (Ok tt, h')
    ∧ bridgeEndpoint_value h' 2 = Some r
    ∧ network r = "net1" ∧ Index r = 0%N ∧ Exists r = false
    ∧ Key r = ["bridge_endpoint"; "net1"; "ep1"].
Proof.
  pose (va := default Sample.bare (bridgeEndpoint_value Sample.store0 1)).
  pose (vb := default Sample.bare (bridgeEndpoint_value Sample.store0 2)).
  destruct (CopyTo_keeps_the_destination_network Sample.store0 1 2 va vb)
    as (h' & r & Hrun & Hr & Hn & Hi & He & _ & Hk).
  - by vm_compute.
  - by vm_compute.
  - apply (bool_decide_unpack _). by vm_compute.
  - exists h', r. by repeat split.
Defined.

Lemma CopyTo_twice_witness :
  ∃ h1 h2, Mem.CopyTo 1 2 Sample.store0 = (Ok tt, h1)
    ∧ Mem.CopyTo 1 2 h1 = (Ok tt, h2)
    ∧ bridgeEndpoint_value h2 2 = bridgeEndpoint_value h1 2.
Proof.
  pose (va := default Sample.bare (bridgeEndpoint_value Sample.store0 1)).
  pose (vb := default Sample.bare (bridgeEndpoint_value Sample.store0 2)).
  destruct (CopyTo_twice Sample.store0 1 2 va vb) as (h1 & h2 & R1 & R2 & V & _).
  - by vm_compute.
  - by vm_compute.
  - apply (bool_decide_unpack _). by vm_compute.
  - exists h1, h2. split; [exact R1|]. split; [exact R2|exact V].
Defined.

(** The cell at 3 of the sample store is an address. *)
Lemma CopyTo_of_no_endpoint_witness :
  ∃ p, Mem.CopyTo 1 3 Sample.store0 = (Panic p, Sample.store0).
Proof.
  apply CopyTo_of_no_endpoint. left. intros e. by vm_compute.
Defined.

(** The endpoint at 2, which has a configuration, copied into the new one
    at 12. *)
Lemma a_copy_encodes_like_its_source_witness :
  ∃ va h' r, bridgeEndpoint_value Sample.store1 2 = Some va
    ∧ Mem.CopyTo 2 12 Sample.store1 = (Ok tt, h')
    ∧ bridgeEndpoint_value h' 12 = Some r
    ∧ Value r = Value va.
Proof.
  pose (va := default Sample.bare (bridgeEndpoint_value Sample.store1 2)).
  pose (vb := default Sample.bare (bridgeEndpoint_value Sample.store1 12)).
  assert (bridgeEndpoint_value Sample.store1 2 = Some va) as Hva by by vm_compute.
  destruct (a_copy_encodes_like_its_source Sample.store1 2 12 va vb)
    as (h' & r & Hrun & Hr & Hv).
  - exact Hva.
  - by vm_compute.
  - apply (bool_decide_unpack _). by vm_compute.
  - by vm_compute.
  - by vm_compute.
  - exists va, h', r. split; [exact Hva|]. split; [exact Hrun|].
    split; [exact Hr|exact Hv].
Defined.

(** The endpoint at 1, whose container configuration has no child
    endpoints. *)
Lemma a_copy_of_a_nil_list_encodes_otherwise_witness :
  ∃ va h' r, bridgeEndpoint_value Sample.store1 1 = Some va
    ∧ Mem.CopyTo 1 12 Sample.store1 = (Ok tt, h')
    ∧ bridgeEndpoint_value h' 12 = Some r
    ∧ Value r ≠ Value va.
Proof.
  pose (va := default Sample.bare (bridgeEndpoint_value Sample.store1 1)).
  pose (vb := default Sample.bare (bridgeEndpoint_value Sample.store1 12)).
  assert (bridgeEndpoint_value Sample.store1 1 = Some va) as Hva by by vm_compute.
  destruct (a_copy_of_a_nil_list_encodes_otherwise Sample.store1 1 12 va vb
              {| ParentEndpoints := Some ["ep0"]; ChildEndpoints := None |})
    as (h' & r & Hrun & Hr & Hv).
  - exact Hva.
  - by vm_compute.
  - apply (bool_decide_unpack _). by vm_compute.
  - by vm_compute.
  - right. reflexivity.
  - exists va, h', r. split; [exact Hva|]. split; [exact Hrun|].
    split; [exact Hr|exact Hv].
Defined.

(** The configuration at 10 copied into the empty one at 13. *)
Lemma endpointConfiguration_CopyTo_copies_witness :
  ∃ h', Mem.endpointConfiguration_CopyTo 10 13 Sample.store1 = (Ok tt, h')
    ∧ endpointConfiguration_value h' (Some 13%positive)
      = Some (Some {| MacAddress := MacAddress Sample.config10;
                      PortBindings := Some (elems (PortBindings Sample.config10));
                      ExposedPorts := Some (elems (ExposedPorts Sample.config10)) |}).
Proof.
  destruct (endpointConfiguration_CopyTo_copies Sample.store1 10 13
              Sample.config10
              {| Mem.MacAddress := Mem.SNil; Mem.PortBindings := Mem.SNil;
                 Mem.ExposedPorts := Mem.SNil |})
    as (h' & Hrun & Hv & _).
  - by vm_compute.
  - by vm_compute.
  - apply (bool_decide_unpack _). by vm_compute.
  - exists h'. split; [exact Hrun|exact Hv].
Defined.

(** The container configuration at 8 copied into the empty one at 14. *)
Lemma containerConfiguration_CopyTo_copies_witness :
  ∃ h', Mem.containerConfiguration_CopyTo 8 14 Sample.store1 = (Ok tt, h')
    ∧ containerConfiguration_value h' (Some 14%positive)
      = Some (Some {| ParentEndpoints := Some ["ep0"]; ChildEndpoints := Some [] |}).
Proof.
  destruct (containerConfiguration_CopyTo_copies Sample.store1 8 14
              {| ParentEndpoints := Some ["ep0"]; ChildEndpoints := None |}
              {| Mem.ParentEndpoints := Mem.SNil; Mem.ChildEndpoints := Mem.SNil |})
    as (h' & Hrun & Hv & _).
  - by vm_compute.
  - by vm_compute.
  - apply (bool_decide_unpack _). by vm_compute.
  - exists h'. split; [exact Hrun|exact Hv].
Defined.

(** The endpoint at 1 copied onto itself: its one port mapping is a zero
    value, its container configuration is empty. *)
Lemma CopyTo_onto_itself_witness :
  ∃ h' r, Mem.CopyTo 1 1 Sample.store0 = (Ok tt, h')
    ∧ bridgeEndpoint_value h' 1 = Some r
    ∧ portMapping r = Some [EmptyString]
    ∧ containerConfig r
      = Some {| ParentEndpoints := Some []; ChildEndpoints := Some [] |}
    ∧ id r = "ep1".
Proof.
  pose (va := default Sample.bare (bridgeEndpoint_value Sample.store0 1)).
  destruct (CopyTo_onto_itself Sample.store0 1 va) as (h' & Hrun & Hv);
    [by vm_compute|].
  exists h', (copied_onto_itself va). by repeat split.
Defined.
